(** * SeismicPro: QC metrics, spatial aggregation and AVO binning

    A shallow embedding of
      - [seismicpro/src/seismic_metrics.py] ([PM.linear_diff], [MetricsMap]),
      - [seismicpro/qc/utils.py] ([update_avo_params], [load_horizon],
        [avo_plot], [std_plot])
    and the properties of these functions.

    Numbers.  A finite floating-point number is rendered as the rational
    ([Q]) it denotes.  The bin grid of [MetricsMap] is computed with the
    rounding of binary floating point ([fl], [fl32] below); elsewhere the
    arithmetic is exact.  Where the source distinguishes the IEEE specials
    (not-a-number, the two infinities) the type [f64] below carries them next
    to the finite rationals.  [PM.linear_diff] needs a square root and is
    stated over the real numbers. *)

From Stdlib Require Import String Ascii.
From Stdlib Require Import List ZArith QArith Qround Qabs Lia Lqa Bool.
From Stdlib Require Import Permutation Sorted DecimalString.
From Stdlib Require Import Reals Lra.
Import ListNotations.

Local Open Scope Q_scope.

(** ** Python exceptions *)

Inductive exn : Type :=
| IndexError
| ValueError
| TypeError
| ZeroDivisionError.

(** ** Generic list helpers mirroring numpy indexing *)

(** [a[mask]] for a boolean mask [mask]. *)
Fixpoint select {A : Type} (mask : list bool) (a : list A) : list A :=
  match mask, a with
  | b :: m, x :: t => if b then x :: select m t else select m t
  | _, _ => []
  end.

(** Element-wise binary operation on two arrays of one length. *)
Fixpoint map2 {A B C : Type} (f : A -> B -> C) (a : list A) (b : list B) : list C :=
  match a, b with
  | x :: a', y :: b' => f x y :: map2 f a' b'
  | _, _ => []
  end.

(** [a[idx]] for an integer index array [idx] (indices are in range wherever
    this is used; [d] pads otherwise). *)
Definition take {A : Type} (d : A) (a : list A) (idx : list nat) : list A :=
  map (fun i => nth i a d) idx.

(** [np.nonzero(flags)[0]]: the positions holding [true]. *)
Fixpoint nonzero_from (k : nat) (flags : list bool) : list nat :=
  match flags with
  | [] => []
  | b :: t => if b then k :: nonzero_from (S k) t else nonzero_from (S k) t
  end.

Definition nonzero (flags : list bool) : list nat := nonzero_from 0 flags.

(** ** Stable sorting

    [np.unique(..., return_index=True)] sorts with [kind='mergesort'], a
    stable sort; every stable sort returns the same list, so insertion sort
    stands for it.  The array is sorted together with its positions, which
    gives [argsort] and the sorted array at once. *)

Section StableSort.
Context {A : Type} (leb : A -> A -> bool).

Fixpoint insert_by (x : nat * A) (l : list (nat * A)) : list (nat * A) :=
  match l with
  | [] => [x]
  | y :: t => if leb (snd x) (snd y) then x :: y :: t else y :: insert_by x t
  end.

Fixpoint isort (l : list (nat * A)) : list (nat * A) :=
  match l with
  | [] => []
  | x :: t => insert_by x (isort t)
  end.

Definition enumerate (a : list A) : list (nat * A) :=
  combine (seq 0 (length a)) a.

(** [a.argsort(kind='mergesort')] *)
Definition argsort (a : list A) : list nat := map fst (isort (enumerate a)).

(** [np.sort(a)] *)
Definition np_sort (a : list A) : list A := map snd (isort (enumerate a)).
End StableSort.

(** ** A model of float64 values with the IEEE specials *)

Inductive f64 : Type :=
| Fin (q : Q)
| PInf
| NInf
| NaN.

(** The largest finite float64, [(2^53 - 1) * 2^971]. *)
Definition float_max : Q := inject_Z ((2 ^ 53 - 1) * 2 ^ 971).

Definition Qsign_pos (q : Q) : bool := Qle_bool 0 q && negb (Qeq_bool q 0).

Definition f_neg (a : f64) : f64 :=
  match a with
  | Fin q => Fin (- q)
  | PInf => NInf
  | NInf => PInf
  | NaN => NaN
  end.

Definition f_add (a b : f64) : f64 :=
  match a, b with
  | NaN, _ | _, NaN => NaN
  | PInf, NInf | NInf, PInf => NaN
  | PInf, _ | _, PInf => PInf
  | NInf, _ | _, NInf => NInf
  | Fin x, Fin y => Fin (x + y)
  end.

Definition f_sub (a b : f64) : f64 := f_add a (f_neg b).

Definition f_div (a b : f64) : f64 :=
  match a, b with
  | NaN, _ | _, NaN => NaN
  | Fin x, Fin y =>
      if Qeq_bool y 0
      then if Qeq_bool x 0 then NaN else if Qsign_pos x then PInf else NInf
      else Fin (x / y)
  | Fin _, _ => Fin 0
  | _, Fin y => if Qle_bool 0 y then a else f_neg a
  | _, _ => NaN
  end.

(** [x == 0] and [x != 0] on floats ([nan != 0] holds). *)
Definition f_is_zero (a : f64) : bool :=
  match a with
  | Fin q => Qeq_bool q 0
  | _ => false
  end.

(** [np.nan_to_num(x)] with its defaults: not-a-number becomes [0.0], an
    infinity becomes the finite float of largest magnitude and of its sign. *)
Definition nan_to_num (a : f64) : f64 :=
  match a with
  | Fin q => Fin q
  | PInf => Fin float_max
  | NInf => Fin (- float_max)
  | NaN => Fin 0
  end.

Definition f_sum (l : list f64) : f64 := fold_left f_add l (Fin 0).

Definition f_of_nat (n : nat) : f64 := Fin (inject_Z (Z.of_nat n)).

(** [np.mean] ([a.mean()]) of a flat array: [nan] on an empty one. *)
Definition np_mean (l : list f64) : f64 := f_div (f_sum l) (f_of_nat (length l)).

Definition f_isnan (a : f64) : bool :=
  match a with NaN => true | _ => false end.

(** [np.nanmean] of a flat array. *)
Definition np_nanmean (l : list f64) : f64 :=
  np_mean (filter (fun a => negb (f_isnan a)) l).

(** ** The error monad of Python exceptions *)

Definition bind {A B : Type} (m : exn + A) (k : A -> exn + B) : exn + B :=
  match m with
  | inl e => inl e
  | inr a => k a
  end.

Notation "x <- m ;; k" := (bind m (fun x => k))
  (at level 61, m at next level, right associativity).

(** ** [np.arange(start, stop, step)] on rationals

    [ceil((stop - start) / step)] elements [start + k * step]; none when
    that count is not positive; a zero step raises. *)

Definition arange_len (start stop step : Q) : nat :=
  Z.to_nat (Qceiling ((stop - start) / step)).

Definition arange_elt (start step : Q) (k : nat) : Q :=
  start + inject_Z (Z.of_nat k) * step.

Definition np_arange (start stop step : Q) : exn + list Q :=
  if Qeq_bool step 0 then inl ZeroDivisionError
  else inr (map (arange_elt start step) (seq 0 (arange_len start stop step))).

Definition Qlt_bool (a b : Q) : bool := negb (Qle_bool b a).

Fixpoint Qmin_list (d : Q) (l : list Q) : Q :=
  match l with
  | [] => d
  | x :: t => Qmin_list (if Qlt_bool x d then x else d) t
  end.

Fixpoint Qmax_list (d : Q) (l : list Q) : Q :=
  match l with
  | [] => d
  | x :: t => Qmax_list (if Qlt_bool d x then x else d) t
  end.

(** [a.min()] and [a.max()]: a [ValueError] on an empty array. *)
Definition np_min (a : list Q) : exn + Q :=
  match a with
  | [] => inl ValueError
  | x :: t => inr (Qmin_list x t)
  end.

Definition np_max (a : list Q) : exn + Q :=
  match a with
  | [] => inl ValueError
  | x :: t => inr (Qmax_list x t)
  end.

(** ** Binary floating point

    A finite float is the rational it denotes; an operation on floats is the
    exact operation followed by rounding to the nearest float, ties to the
    even mantissa.  [round_to prec emin] rounds to [prec] bits of mantissa,
    with steps of [2 ^ emin] at the least (the subnormal numbers).  Values
    are taken within the range of the format: overflow is not modelled. *)

(** [floor (log2 a)] for [a > 0]. *)
Definition Qfloor_log2 (a : Q) : Z :=
  let e := (Z.log2 (Qnum a) - Z.log2 (Zpos (Qden a)))%Z in
  if Qle_bool (2 ^ e) a then e else (e - 1)%Z.

(** The integer nearest to [m], the even one of two that are as near. *)
Definition round_half_even (m : Q) : Z :=
  let f := Qfloor m in
  match Qcompare (m - inject_Z f) (1 # 2) with
  | Lt => f
  | Gt => (f + 1)%Z
  | Eq => if Z.even f then f else (f + 1)%Z
  end.

Definition round_to (prec emin : Z) (q : Q) : Q :=
  if Qeq_bool q 0 then 0
  else
    let e := Qfloor_log2 (Qabs q) in
    let u := Z.max (e - (prec - 1)) emin in
    Qred (inject_Z (round_half_even (q / 2 ^ u)) * 2 ^ u).

(** Rounding to [float64] and to [float32]. *)
Definition fl : Q -> Q := round_to 53 (-1074).

Definition fl32 : Q -> Q := round_to 24 (-149).

Definition f64_add (a b : Q) : Q := fl (a + b).

Definition f64_sub (a b : Q) : Q := fl (a - b).

Definition f64_mul (a b : Q) : Q := fl (a * b).

Definition f64_div (a b : Q) : Q := fl (a / b).

(** The largest finite float32, [(2^24 - 1) * 2^104]. *)
Definition float32_max : Q := inject_Z ((2 ^ 24 - 1) * 2 ^ 104).

(** [x.astype(np.float32)] of a float64 that may be special: a value that
    rounds beyond the largest float32 becomes an infinity. *)
Definition to_float32 (a : f64) : f64 :=
  match a with
  | Fin q =>
      let r := fl32 q in
      if Qlt_bool float32_max r then PInf
      else if Qlt_bool r (- float32_max) then NInf
      else Fin r
  | _ => a
  end.

(** * MetricsMap ([seismic_metrics.py]) *)

Module MetricsMap.

(** A row of the [coords] array. *)
Definition coord : Type := (Q * Q)%type.

(** One entry [[x, y, metric]] of [_maps_list]. *)
Record sample : Type := mk_sample { sx : Q; sy : Q; svalue : f64 }.

Record t : Type := mk { _maps_list : list sample }.

(** Rows compare lexicographically, as structured rows do in [np.unique]
    with [axis=0]. *)
Definition coord_cmp (a b : coord) : comparison :=
  match fst a ?= fst b with
  | Eq => snd a ?= snd b
  | c => c
  end.

Definition coord_leb (a b : coord) : bool :=
  match coord_cmp a b with Gt => false | _ => true end.

Definition coord_eqb (a b : coord) : bool :=
  match coord_cmp a b with Eq => true | _ => false end.

(** [mask[:1] = True; mask[1:] = aux[1:] != aux[:-1]] *)
Definition unique_mask (aux : list coord) : list bool :=
  match aux with
  | [] => []
  | _ :: rest => true :: map2 (fun a b => negb (coord_eqb a b)) rest aux
  end.

(** [np.unique(coords, axis=0, return_index=True)] *)
Definition np_unique (coords : list coord) : list coord * list nat :=
  let sorted := isort coord_leb (enumerate coords) in
  let perm := map fst sorted in
  let aux := map snd sorted in
  let mask := unique_mask aux in
  (select mask aux, select mask perm).

(** [__init__(self, metrics, coords)] *)
Definition __init__ (metrics : list f64) (coords : list coord) : t :=
  let '(unique_coords, position) := np_unique coords in
  let coords' := take (0, 0) unique_coords (argsort Nat.leb position) in
  {| _maps_list :=
       map (fun cm => mk_sample (fst (fst cm)) (snd (fst cm)) (snd cm))
           (combine coords' metrics) |}.

(** [build(coords, values)] of the specification is the constructor. *)
Definition build (coords : list coord) (values : list f64) : t :=
  __init__ values coords.

Definition maps_list (self : t) : list sample := _maps_list self.

(** [append(self, metrics)]: [self._maps_list.extend(metrics._maps_list)];
    the result is the updated [self]. *)
Definition append (self metrics : t) : t :=
  {| _maps_list := _maps_list self ++ _maps_list metrics |}.

End MetricsMap.


(** ** The bin grid: [MetricsMap.construct_metrics_map] *)

Module BinGrid.

Definition grid : Type := list (list f64).

(** [np.full((rows, cols), np.nan)] *)
Definition np_full_nan (rows cols : nat) : grid := repeat (repeat NaN cols) rows.

Fixpoint set_nth {A : Type} (k : nat) (v : A) (l : list A) : list A :=
  match l, k with
  | [], _ => []
  | _ :: t, O => v :: t
  | x :: t, S k' => x :: set_nth k' v t
  end.

(** [metrics_map[j, i] = v] (both indices are in range in the loops). *)
Definition set_cell (j i : nat) (v : f64) (g : grid) : grid :=
  set_nth j (set_nth i v (nth j g [])) g.

Definition get_cell (j i : nat) (g : grid) : f64 := nth i (nth j g []) NaN.

(** [np.arange(start, stop, step)] as numba compiles it for float64:
    [ceil((stop - start) / step)] items, item [i] being [start + i * step],
    every operation rounded; a zero step is refused. *)
Definition arange64 (start stop step : Q) : exn + list Q :=
  if Qeq_bool step 0 then inl ValueError
  else
    inr (map (fun i => f64_add start (f64_mul (inject_Z (Z.of_nat i)) step))
           (seq 0 (Z.to_nat (Qceiling (f64_div (f64_sub stop start) step))))).

(** The mask of one cell:
    [(coords_x - rx >= 0) & (coords_x - rx < bin_size) &
     (coords_y - ry >= 0) & (coords_y - ry < bin_size)],
    the differences being float64 differences. *)
Definition cell_mask (coords_x coords_y : list Q) (rx ry bin_size : Q) : list bool :=
  map2 andb
    (map2 andb
       (map2 andb (map (fun x => Qle_bool 0 (f64_sub x rx)) coords_x)
                  (map (fun x => Qlt_bool (f64_sub x rx) bin_size) coords_x))
       (map (fun y => Qle_bool 0 (f64_sub y ry)) coords_y))
    (map (fun y => Qlt_bool (f64_sub y ry) bin_size) coords_y).

(** [mask.sum()] *)
Definition mask_sum (mask : list bool) : nat := count_occ bool_dec mask true.

(** The body of the inner loop at [(i, j)]. *)
Definition cell_step (coords_x coords_y : list Q) (metrics : list f64) (bin_size : Q)
    (range_x range_y : list Q) (i j : nat) (metrics_map : grid) : grid :=
  let mask := cell_mask coords_x coords_y (nth i range_x 0) (nth j range_y 0) bin_size in
  if Nat.ltb 0 (mask_sum mask)
  then set_cell j i (np_mean (select mask metrics)) metrics_map
  else metrics_map.

(** [construct_metrics_map(coords_x, coords_y, metrics, bin_size)] on
    float64 arrays; the two [prange] loops run as ordinary loops. *)
Definition construct_metrics_map (coords_x coords_y : list Q) (metrics : list f64)
    (bin_size : Q) : exn + grid :=
  xmin <- np_min coords_x ;;
  xmax <- np_max coords_x ;;
  range_x <- arange64 xmin (f64_add xmax bin_size) bin_size ;;
  ymin <- np_min coords_y ;;
  ymax <- np_max coords_y ;;
  range_y <- arange64 ymin (f64_add ymax bin_size) bin_size ;;
  let metrics_map := np_full_nan (length range_y) (length range_x) in
  inr (fold_left
         (fun g i =>
            fold_left
              (fun g' j => cell_step coords_x coords_y metrics bin_size range_x range_y i j g')
              (seq 0 (length range_y)) g)
         (seq 0 (length range_x)) metrics_map).

(** [__split_result]: the columns of [np.array(self._maps_list).T], each cast
    to [float32]; unpacking the transpose of an empty array raises. *)
Definition __split_result (self : MetricsMap.t) : exn + (list Q * list Q * list f64) :=
  match MetricsMap._maps_list self with
  | [] => inl ValueError
  | l => inr (map (fun s => fl32 (MetricsMap.sx s)) l,
              map (fun s => fl32 (MetricsMap.sy s)) l,
              map (fun s => to_float32 (MetricsMap.svalue s)) l)
  end.

(** [construct_map(self, bin_size, ...)] up to the plotting call: the grid it
    returns. *)
Definition construct_map (self : MetricsMap.t) (bin_size : Q) : exn + grid :=
  cols <- __split_result self ;;
  let '(coords_x, coords_y, metrics) := cols in
  construct_metrics_map coords_x coords_y metrics bin_size.

End BinGrid.

(** * Offset binning ([qc/utils.py], [update_avo_params]) *)

Module Avo.

Definition matrix : Type := list (list f64).

(** *** A store of numpy buffers

    An [ndarray] is a handle: the buffer it looks into and the window of
    columns it shows.  Basic slicing returns a view (same buffer, narrower
    window); indexing with a boolean mask allocates a fresh buffer. *)

Definition heap : Type := list matrix.

Record ndarray : Type := mk_nd { base : nat; c_lo : nat; c_hi : nat }.

Definition M (A : Type) : Type := heap -> (exn + A) * heap.

Definition ret {A : Type} (a : A) : M A := fun h => (inr a, h).

Definition raise {A : Type} (e : exn) : M A := fun h => (inl e, h).

Definition mbind {A B : Type} (m : M A) (k : A -> M B) : M B :=
  fun h =>
    match m h with
    | (inl e, h') => (inl e, h')
    | (inr a, h') => k a h'
    end.

Notation "x <~ m ;; k" := (mbind m (fun x => k))
  (at level 61, m at next level, right associativity).

Definition lift {A : Type} (r : exn + A) : M A := fun h => (r, h).

(** The columns [lo, hi) of every row. *)
Definition window_rows (lo hi : nat) (m : matrix) : matrix :=
  map (fun r => firstn (hi - lo) (skipn lo r)) m.

Definition view (a : ndarray) (h : heap) : matrix :=
  window_rows (c_lo a) (c_hi a) (nth (base a) h []).

Definition nd_read (a : ndarray) : M matrix := fun h => (inr (view a h), h).

Definition nd_rows (a : ndarray) (h : heap) : nat := length (nth (base a) h []).

Definition nd_cols (a : ndarray) : nat := c_hi a - c_lo a.

(** [a.size] *)
Definition nd_size (a : ndarray) : M nat :=
  fun h => (inr (nd_rows a h * nd_cols a)%nat, h).

(** [a[mask]] with a boolean [mask] over the rows: a copy in a new buffer. *)
Definition bool_index (a : ndarray) (mask : list bool) : M ndarray :=
  fun h =>
    if Nat.eqb (length mask) (nd_rows a h)
    then (inr (mk_nd (length h) 0 (nd_cols a)), h ++ [select mask (view a h)])
    else (inl IndexError, h).

(** Python's normalisation of a slice bound against a length. *)
Definition slice_bound (n : nat) (v : Z) : nat :=
  if (v <? 0)%Z then Z.to_nat (Z.max 0 (v + Z.of_nat n))
  else Z.to_nat (Z.min v (Z.of_nat n)).

(** [a[:, start:stop]]: a view. *)
Definition slice_cols (a : ndarray) (start stop : Z) : ndarray :=
  let n := nd_cols a in
  let lo := slice_bound n start in
  let hi := Nat.max lo (slice_bound n stop) in
  mk_nd (base a) (c_lo a + lo) (c_lo a + hi).

Definition zero_to_nan (x : f64) : f64 := if f_is_zero x then NaN else x.

(** Rewrites the columns [lo, hi) of a row, leaving the others. *)
Definition map_window {A : Type} (f : A -> A) (lo hi : nat) (r : list A) : list A :=
  firstn lo r ++ map f (firstn (hi - lo) (skipn lo r)) ++ skipn (hi - lo) (skipn lo r).

Fixpoint update_nth {A : Type} (k : nat) (f : A -> A) (l : list A) : list A :=
  match l, k with
  | [], _ => []
  | x :: t, O => f x :: t
  | x :: t, S k' => x :: update_nth k' f t
  end.

(** [a[a == 0] = np.nan]: written through the view into its buffer. *)
Definition setitem_zero_nan (a : ndarray) : M unit :=
  fun h =>
    (inr tt, update_nth (base a) (map (map_window zero_to_nan (c_lo a) (c_hi a))) h).

(** *** The inputs of one call *)

Record trace_header : Type :=
  mk_header { offset : Q; CROSSLINE_3D : Z; INLINE_3D : Z }.

(** One gather of the batch: its amplitude array (traces by samples) and its
    rows of the index dataframe. *)
Record gather : Type := mk_gather { field : ndarray; batch_df : list trace_header }.

Record horizon_row : Type :=
  mk_hrow { h_inline : Z; h_crossline : Z; h_time : Q }.

Inductive bin_spec : Type :=
| BinInt (b : Z)
| BinEdges (edges : list Q).

(** [x.astype(np.int32)] of a float: truncation toward zero; out of range and
    for the specials the conversion yields the minimal int32. *)
Definition astype_int32 (x : f64) : Z :=
  match x with
  | Fin q =>
      let z := Z.quot (Qnum q) (Zpos (Qden q)) in
      if ((- 2 ^ 31 <=? z) && (z <? 2 ^ 31))%Z then z else (- 2 ^ 31)%Z
  | _ => (- 2 ^ 31)%Z
  end.

(** [np.clip(z, lo, hi)] *)
Definition np_clip (z lo hi : Z) : Z := Z.min hi (Z.max z lo).

(** [np.diff(samples[:2])[0]] *)
Definition t_step_of (samples : list Q) : exn + Q :=
  match samples with
  | s0 :: s1 :: _ => inr (s1 - s0)
  | _ => inl IndexError
  end.

(** The window used for a gather: the caller's when there is no horizon,
    else the one around the horizon time of the gather's first trace. *)
Definition gather_window (horizon : option (list horizon_row)) (horizon_window : Q * Q)
    (window : option (Z * Z)) (samples : list Q) (t_step : Q)
    (df : list trace_header) : exn + option (Z * Z) :=
  match horizon with
  | None => inr window
  | Some hz =>
      match df with
      | [] => inl IndexError
      | tr :: _ =>
          match filter (fun r => Z.eqb (h_crossline r) (CROSSLINE_3D tr)
                                 && Z.eqb (h_inline r) (INLINE_3D tr)) hz with
          | [] => inl IndexError
          | r :: _ =>
              let '(lower_bound, upper_bound) := horizon_window in
              let n := Z.of_nat (length samples) in
              let w0 := astype_int32 (f_div (Fin (h_time r - lower_bound)) (Fin t_step)) in
              let w1 := astype_int32 (f_div (Fin (h_time r + upper_bound)) (Fin t_step)) in
              inr (Some (np_clip w0 0 n, np_clip w1 0 n))
          end
      end
  end.

(** [step_list] *)
Definition step_list_of (bin_size : bin_spec) (offset : list Q) : exn + list Q :=
  match rev offset with
  | [] => inl IndexError
  | last_off :: _ =>
      match bin_size with
      | BinInt b => np_arange 0 (last_off + inject_Z b) (inject_Z b)
      | BinEdges edges =>
          inr (filter (fun e => Qlt_bool e last_off) edges ++ [last_off + 1])
      end
  end.

(** [np.array(offset >= stp) & np.array(offset < nxt)] *)
Definition bin_mask (offset : list Q) (stp nxt : Q) : list bool :=
  map2 andb (map (fun o => Qle_bool stp o) offset) (map (fun o => Qlt_bool o nxt) offset).

(** [storage[i] = v] *)
Definition setitem (storage : list f64) (i : nat) (v : f64) : exn + list f64 :=
  if Nat.ltb i (length storage) then inr (BinGrid.set_nth i v storage) else inl IndexError.

(** The consecutive pairs [(step_list[i], step_list[i+1])]. *)
Fixpoint bins_of (step_list : list Q) : list (Q * Q) :=
  match step_list with
  | a :: ((b :: _) as t) => (a, b) :: bins_of t
  | _ => []
  end.

Section OneGather.

(** [calc_method] only reads the array it is given. *)
Variable calc_method : matrix -> f64.

(** One turn of the loop over the bins. *)
Definition bin_step (fld : ndarray) (offset : list Q) (window : option (Z * Z))
    (i : nat) (stp nxt : Q) (storage : list f64) : M (list f64) :=
  subfield <~ bool_index fld (bin_mask offset stp nxt) ;;
  sz <~ nd_size subfield ;;
  if Nat.eqb sz 0 then lift (setitem storage i (Fin 0))
  else
    match window with
    | None => raise TypeError
    | Some w =>
        let subfield' := slice_cols subfield (fst w) (snd w + 1) in
        _ <~ setitem_zero_nan subfield' ;;
        data <~ nd_read subfield' ;;
        lift (setitem storage i (nan_to_num (calc_method data)))
    end.

Fixpoint bin_loop (fld : ndarray) (offset : list Q) (window : option (Z * Z))
    (i : nat) (bins : list (Q * Q)) (storage : list f64) : M (list f64) :=
  match bins with
  | [] => ret storage
  | (stp, nxt) :: rest =>
      storage' <~ bin_step fld offset window i stp nxt storage ;;
      bin_loop fld offset window (S i) rest storage'
  end.

(** The body of [for idx in batch.indices] up to the [storage] vector. *)
Definition avo_storage (g : gather) (samples : list Q) (bin_size : bin_spec)
    (storage_size : nat) (window : option (Z * Z)) (horizon_window : Q * Q)
    (horizon : option (list horizon_row)) : M (list f64) :=
  let offset := np_sort Qle_bool (map offset (batch_df g)) in
  t_step <~ lift (t_step_of samples) ;;
  window' <~ lift (gather_window horizon horizon_window window samples t_step (batch_df g)) ;;
  step_list <~ lift (step_list_of bin_size offset) ;;
  bin_loop (field g) offset window' 0 (bins_of step_list) (repeat (Fin 0) storage_size).

(** [np.array([storage]) if params is None else np.append(params, [storage], axis=0)] *)
Definition append_row (params : option matrix) (storage : list f64) : exn + option matrix :=
  match params with
  | None => inr (Some [storage])
  | Some p =>
      if forallb (fun r => Nat.eqb (length r) (length storage)) p
      then inr (Some (p ++ [storage]))
      else inl ValueError
  end.

(** [update_avo_params(params, batch, component, bin_size, storage_size,
    window, horizon_window, horizon, calc_method)]; [batch] is the list of
    its gathers with the [samples] of the component. *)
Fixpoint update_avo_params (params : option matrix) (batch : list gather)
    (samples : list Q) (bin_size : bin_spec) (storage_size : nat)
    (window : option (Z * Z)) (horizon_window : Q * Q)
    (horizon : option (list horizon_row)) : M (option matrix) :=
  match batch with
  | [] => ret params
  | g :: rest =>
      storage <~ avo_storage g samples bin_size storage_size window horizon_window horizon ;;
      params' <~ lift (append_row params storage) ;;
      update_avo_params params' rest samples bin_size storage_size window
        horizon_window horizon
  end.

End OneGather.

End Avo.

(** * Horizon files ([qc/utils.py], [load_horizon]) *)

Module Horizon.

Definition str : Type := list ascii.

Definition space : ascii := " "%char.

Definition newline : ascii := "010"%char.

(** [c] matches the class [[a-zA-Z:]]. *)
Definition is_alpha_colon (c : ascii) : bool :=
  let n := nat_of_ascii c in
  ((65 <=? n) && (n <=? 90) || (97 <=? n) && (n <=? 122) || (n =? 58))%nat.

(** The characters [str.strip()] removes (the ASCII ones). *)
Definition is_space (c : ascii) : bool :=
  let n := nat_of_ascii c in
  ((9 <=? n) && (n <=? 13) || (28 <=? n) && (n <=? 32))%nat.

(** [re.sub('[a-zA-Z:]', ' ', line)] *)
Definition sub_alpha (line : str) : str :=
  map (fun c => if is_alpha_colon c then space else c) line.

Fixpoint lstrip (s : str) : str :=
  match s with
  | c :: t => if is_space c then lstrip t else s
  | [] => []
  end.

(** [line.strip()] *)
Definition strip (s : str) : str := rev (lstrip (rev (lstrip s))).

(** [re.sub(' +', ' ', s)] *)
Fixpoint sub_spaces (s : str) : str :=
  match s with
  | [] => []
  | c :: t =>
      if Ascii.eqb c space
      then match t with
           | c' :: _ => if Ascii.eqb c' space then sub_spaces t else c :: sub_spaces t
           | [] => [c]
           end
      else c :: sub_spaces t
  end.

(** [s.split(sep)] for a one-character [sep]: every occurrence separates, so
    empty pieces are kept and the result is never empty. *)
Fixpoint split (sep : ascii) (s : str) : list str :=
  match s with
  | [] => [[]]
  | c :: t =>
      if Ascii.eqb c sep then [] :: split sep t
      else match split sep t with
           | w :: ws => (c :: w) :: ws
           | [] => [[c]]
           end
  end.

Definition is_digit (c : ascii) : bool :=
  let n := nat_of_ascii c in ((48 <=? n) && (n <=? 57))%nat.

Definition digit_val (c : ascii) : Z := Z.of_nat (nat_of_ascii c - 48).

(** A digit part [digit (["_"] digit)*] read left to right from the value
    [acc] of the digits before it; the count of digits read comes along.
    [after_digit] says whether an underscore may come next. *)
Fixpoint digitpart (after_digit : bool) (acc : Z) (cnt : nat) (s : str) : option (Z * nat) :=
  match s with
  | [] => if after_digit then Some (acc, cnt) else None
  | c :: t =>
      if is_digit c then digitpart true (10 * acc + digit_val c) (S cnt) t
      else if Ascii.eqb c "_"%char
           then if after_digit then digitpart false acc cnt t else None
           else None
  end.

(** An optional sign: its value and the rest. *)
Definition sign_of (s : str) : Z * str :=
  match s with
  | c :: t =>
      if Ascii.eqb c "-"%char then ((-1)%Z, t)
      else if Ascii.eqb c "+"%char then (1%Z, t)
      else (1%Z, s)
  | [] => (1%Z, [])
  end.

(** [int(s)] on a string: surrounding white space, a sign, decimal digits
    with single underscores between them. *)
Definition py_int (s : str) : exn + Z :=
  let '(sg, body) := sign_of (strip s) in
  match digitpart false 0 0 body with
  | Some (v, _) => inr (sg * v)%Z
  | None => inl ValueError
  end.

(** The part of [s] before the first ["."] and, if there is one, the part
    after it. *)
Fixpoint cut_dot (s : str) : str * option str :=
  match s with
  | [] => ([], None)
  | c :: t =>
      if Ascii.eqb c "."%char then ([], Some t)
      else let '(a, b) := cut_dot t in (c :: a, b)
  end.

(** A digit part that may be missing on one side of the point. *)
Definition digits_or_empty (s : str) : option (Z * nat) :=
  match s with
  | [] => Some (0%Z, O)
  | _ => digitpart false 0 0 s
  end.

(** [float(s)] on a string without letters (no exponent, no [inf] or [nan]
    can be written): [[sign] digits ["." [digits]]] or [[sign] "." digits].
    The decimal is read exactly. *)
Definition py_float (s : str) : exn + Q :=
  let '(sg, body) := sign_of (strip s) in
  match cut_dot body with
  | (ip, None) =>
      match digitpart false 0 0 ip with
      | Some (v, _) => inr (inject_Z (sg * v))
      | None => inl ValueError
      end
  | (ip, Some fp) =>
      match ip, fp with
      | [], [] => inl ValueError
      | _, _ =>
          match digits_or_empty ip, digits_or_empty fp with
          | Some (iv, _), Some (fv, k) =>
              inr (inject_Z sg * (inject_Z iv + inject_Z fv / inject_Z (10 ^ Z.of_nat k)))
          | _, _ => inl ValueError
          end
      end
  end.

(** [line[k]] for a list and a Python index (negative ones count from the
    end). *)
Definition py_index {A : Type} (l : list A) (k : Z) : exn + A :=
  let n := Z.of_nat (length l) in
  let k' := if (k <? 0)%Z then (k + n)%Z else k in
  if ((0 <=? k') && (k' <? n))%Z
  then match nth_error l (Z.to_nat k') with
       | Some x => inr x
       | None => inl IndexError
       end
  else inl IndexError.

(** The cleaned line: what [line] holds when it is compared with [''] *)
Definition clean (line : str) : str := sub_spaces (strip (sub_alpha line)).

(** The body of the loop over the lines: [None] for a line that is skipped,
    else the row appended to [horizon_val]. *)
Definition horizon_line (line : str) : exn + option Avo.horizon_row :=
  let line1 := clean line in
  match line1 with
  | [] => inr None
  | _ =>
      let toks := split space line1 in
      t0 <- py_index toks 0 ;;
      i <- py_int t0 ;;
      t1 <- py_index toks 1 ;;
      c <- py_int t1 ;;
      tl <- py_index toks (-1) ;;
      t <- py_float tl ;;
      inr (Some (Avo.mk_hrow i c t))
  end.

Fixpoint horizon_lines (lines : list str) (horizon_val : list Avo.horizon_row)
    : exn + list Avo.horizon_row :=
  match lines with
  | [] => inr horizon_val
  | line :: rest =>
      r <- horizon_line line ;;
      horizon_lines rest (match r with
                          | Some row => horizon_val ++ [row]
                          | None => horizon_val
                          end)
  end.

(** [load_horizon(horizon)] on the text read from the file. *)
Definition load_horizon (text : string) : exn + list Avo.horizon_row :=
  horizon_lines (split newline (list_ascii_of_string text)) [].

End Horizon.

(** * The AVO summary ([qc/utils.py], [avo_plot]) *)

Module AvoPlot.

Import Avo.

(** [data.T] of a two-dimensional array given by its rows. *)
Fixpoint transpose {A : Type} (m : list (list A)) : list (list A) :=
  match m with
  | [] => []
  | [r] => map (fun x => [x]) r
  | r :: t => map2 cons r (transpose t)
  end.

(** What [avg_method] can be: a string, a callable, or any other object. *)
Inductive avg_sel : Type :=
| AvgStr (s : string)
| AvgCallable (f : matrix -> list f64)
| AvgOther.

(** An entry of [stats]. *)
Inductive stat_sel : Type :=
| StatStr (s : string)
| StatCallable (f : matrix -> f64)
| StatOther.

(** What [stats] can be: [None], one string, a list, or an object that is
    neither a string nor iterable. *)
Inductive stats_arg : Type :=
| StatsNone
| StatsOne (s : string)
| StatsList (l : list stat_sel)
| StatsOther.

(** [bin_size]: the string ['offset'], an [int], or an array of offsets.  On
    an array [bin_size == 'offset'] compares element by element, and the
    truth value the [if] asks of the result is an error (ValueError) unless
    the array has one element. *)
Inductive bin_arg : Type :=
| BinOffset
| BinWidth (b : Z)
| BinArray (x : list Q).

(** What the function has computed when it turns to drawing. *)
Record summary : Type := mk_summary {
  bins : list Q;
  avg_value : list f64;
  avg_approx : list f64;
  stats_names : list string;
  stats_val : list f64 }.

Section Numpy.

(** numpy's numerical routines, which the function calls and does not define:
    [np.polyfit(x, y, deg)], [np.polyval(p, x)], [np.corrcoef(a, b)[0][1]]
    and [np.mean(np.nanstd(a, axis=1))]. *)
Variable np_polyfit : list Q -> list f64 -> Z -> exn + list f64.
Variable np_polyval : list f64 -> list Q -> list f64.
Variable np_corrcoef01 : list f64 -> list f64 -> f64.
Variable np_mean_nanstd : matrix -> f64.

(** The [if]/[elif] on [avg_method]. *)
Definition resolve_avg (avg_method : avg_sel) : exn + (matrix -> list f64) :=
  match avg_method with
  | AvgStr s =>
      if String.eqb s "mean" then inr (fun nan_data => map np_nanmean nan_data)
      else inl ValueError
  | AvgCallable f => inr f
  | AvgOther => inl ValueError
  end.

(** One turn of [for stat in stats]; the last branch builds a [ValueError]
    and drops it. *)
Definition stat_step (nan_rows : matrix) (avg_value avg_approx : list f64)
    (acc : list f64 * list string) (stat : stat_sel) : list f64 * list string :=
  let '(vals, names) := acc in
  match stat with
  | StatStr s =>
      if String.eqb s "std" then (vals ++ [np_mean_nanstd nan_rows], names ++ ["Mean std"%string])
      else if String.eqb s "corr"
           then (vals ++ [np_corrcoef01 avg_value avg_approx], names ++ ["Corr"%string])
           else (vals, names)
  | StatCallable f => (vals ++ [f nan_rows], names ++ ["Callable stat"%string])
  | StatOther => (vals, names)
  end.

(** [if stats is not None: ...] *)
Definition run_stats (stats : stats_arg) (nan_rows : matrix)
    (avg_value avg_approx : list f64) : exn + (list f64 * list string) :=
  match stats with
  | StatsNone => inr ([], [])
  | StatsOne s => inr (stat_step nan_rows avg_value avg_approx ([], []) (StatStr s))
  | StatsList l => inr (fold_left (stat_step nan_rows avg_value avg_approx) l ([], []))
  | StatsOther => inl TypeError
  end.

(** [avo_plot(data, bin_size, ..., avg_method, ..., approx_degree, stats, ...)]
    up to the drawing: the numbers it is about to draw. *)
Definition avo_plot (data : matrix) (bin_size : bin_arg) (avg_method : avg_sel)
    (approx_degree : Z) (stats : stats_arg) : exn + summary :=
  let transposed_data := transpose data in
  let nan_data := map (map zero_to_nan) transposed_data in
  avg <- resolve_avg avg_method ;;
  let avg_value := map nan_to_num (avg nan_data) in
  let nonzeros := nonzero (map (fun v => negb (f_is_zero v)) avg_value) in
  let avg_value := take NaN avg_value nonzeros in
  bin_size <-
    match bin_size with
    | BinOffset => inr (map (fun i => inject_Z (Z.of_nat i)) nonzeros)
    | BinWidth b => inr (map (fun i => inject_Z (Z.of_nat i * b)) nonzeros)
    | BinArray x => if Nat.eqb (length x) 1 then inr x else inl ValueError
    end ;;
  poly <- np_polyfit bin_size avg_value approx_degree ;;
  let avg_approx := np_polyval poly bin_size in
  st <- run_stats stats (take [] nan_data nonzeros) avg_value avg_approx ;;
  inr (mk_summary bin_size avg_value avg_approx (snd st) (fst st)).

End Numpy.

End AvoPlot.

(** * The comparison of several AVO distributions ([qc/utils.py], [std_plot])

    The entries of an AVO distribution are finite ([update_avo_params] stores
    them through [nan_to_num]); they are rationals here. *)

Module StdPlot.

Record row : Type := mk_row { val : Q; indices : Q; name : string }.

Definition Qsum (l : list Q) : Q := fold_right Qplus 0 l.

(** [np.mean] of finite values. *)
Definition Qmean (l : list Q) : Q := Qsum l / inject_Z (Z.of_nat (length l)).

Definition Qnonzero (v : Q) : bool := negb (Qeq_bool v 0).

(** [a.repeat(k)] *)
Definition np_repeat {A : Type} (a : list A) (k : nat) : list A :=
  flat_map (fun x => repeat x k) a.

(** The rows one distribution adds to the table: the body of
    [for results, name in zip(avo_results, names)]. *)
Definition series_rows (results : list (list Q)) (bin_size : Z) (nm : string) : list row :=
  let results := AvoPlot.transpose results in
  let shape1 := length (hd [] results) in
  let nonzeros_ixs := nonzero (map (fun r => Qnonzero (Qsum r)) results) in
  let offsets := map (fun i => inject_Z (Z.of_nat i * bin_size)) nonzeros_ixs in
  let values := concat (take [] results nonzeros_ixs) in
  let nonzeros_res := nonzero (map Qnonzero values) in
  let nonzeros_val := take 0 values nonzeros_res in
  let nonzeros_off := take 0 (np_repeat offsets shape1) nonzeros_res in
  map2 (fun v o => mk_row v o nm) nonzeros_val nonzeros_off.

(** [np.arange(n).astype(str)] *)
Definition default_names (n : nat) : list string :=
  map (fun k => DecimalString.NilZero.string_of_uint (Nat.to_uint k)) (seq 0 n).

(** The table [resulted_df] before the alignment. *)
Definition build_table (avo_results : list (list (list Q))) (bin_size : Z)
    (names : option (list string)) : list row :=
  let names :=
    match names with
    | None => default_names (length avo_results)
    | Some l => l
    end in
  concat (map2 (fun results nm => series_rows results bin_size nm) avo_results names).

(** [resulted_df.loc[mask, 'val'] = values]: the rows under the mask take
    the values in turn. *)
Fixpoint loc_assign (mask : row -> bool) (values : list Q) (tbl : list row) : list row :=
  match tbl with
  | [] => []
  | r :: t =>
      if mask r
      then match values with
           | v :: vs => mk_row v (indices r) (name r) :: loc_assign mask vs t
           | [] => r :: t
           end
      else r :: loc_assign mask values t
  end.

(** The keys of [groupby('name')]: the names of the table, each once, in
    increasing order. *)
Definition group_keys (tbl : list row) : list string :=
  np_sort String.leb (nodup string_dec (map name tbl)).

(** One turn of the loop over the groups; [snapshot] is the table as it was
    when [groupby] started to iterate. *)
Definition align_step (gen_mean : Q) (snapshot : list row) (tbl : list row)
    (nm : string) : list row :=
  let dframe := filter (fun r => String.eqb (name r) nm) snapshot in
  let align := gen_mean - Qmean (map val dframe) in
  loc_assign (fun r => String.eqb (name r) nm) (map (fun v => v + align) (map val dframe)) tbl.

(** [if align_mean: ...] *)
Definition align (tbl : list row) : list row :=
  let gen_mean := Qmean (map val tbl) in
  fold_left (align_step gen_mean tbl) (group_keys tbl) tbl.

(** [std_plot(avo_results, bin_size, names, ..., align_mean, ...)] up to the
    drawing: the table handed to the line plot. *)
Definition std_plot (avo_results : list (list (list Q))) (bin_size : Z)
    (names : option (list string)) (align_mean : bool) : list row :=
  let resulted_df := build_table avo_results bin_size names in
  if align_mean then align resulted_df else resulted_df.

End StdPlot.

(** * Linear fit of the picking ([seismic_metrics.py], [PM.linear_diff])

    Over the real numbers.  A component of the batch at the gather's position
    is a scalar or a one-dimensional array; numpy broadcasts a scalar (and an
    array of one element) against an array. *)

Module PM.

Local Open Scope R_scope.

Inductive nd : Type :=
| Scalar (r : R)
| Arr (l : list R).

(** An element-wise binary operation with broadcasting. *)
Definition broadcast (f : R -> R -> R) (a b : nd) : exn + nd :=
  match a, b with
  | Scalar x, Scalar y => inr (Scalar (f x y))
  | Scalar x, Arr l => inr (Arr (map (f x) l))
  | Arr l, Scalar y => inr (Arr (map (fun x => f x y) l))
  | Arr l1, Arr l2 =>
      if Nat.eqb (length l1) (length l2) then inr (Arr (map2 f l1 l2))
      else match l1, l2 with
           | [x], _ => inr (Arr (map (f x) l2))
           | _, [y] => inr (Arr (map (fun x => f x y) l1))
           | _, _ => inl ValueError
           end
  end.

Definition nd_map (f : R -> R) (a : nd) : nd :=
  match a with
  | Scalar x => Scalar (f x)
  | Arr l => Arr (map f l)
  end.

Definition Rsum (l : list R) : R := fold_right Rplus 0 l.

(** [np.mean] *)
Definition np_mean (a : nd) : R :=
  match a with
  | Scalar x => x
  | Arr l => Rsum l / INR (length l)
  end.

Definition sq (x : R) : R := x ^ 2.

Definition Rleb (x y : R) : bool := if Rle_dec x y then true else false.

Definition Reqb (x y : R) : bool := if Req_dec_T x y then true else false.

(** [np.median] of a flat array of numbers: the middle value of the sorted
    array, the mean of the two middle values when their number is even, and
    not-a-number ([None]) on an empty array. *)
Definition np_median (a : list R) : option R :=
  let s := np_sort Rleb a in
  let n := length a in
  if Nat.eqb n 0 then None
  else if Nat.even n then Some ((nth (n / 2 - 1) s 0 + nth (n / 2) s 0) / 2)
  else Some (nth (n / 2) s 0).

(** The values of an array, when none of them is not-a-number. *)
Fixpoint all_values (l : list (option R)) : option (list R) :=
  match l with
  | [] => Some []
  | Some v :: t => option_map (cons v) (all_values t)
  | None :: _ => None
  end.

(** One turn of the loop of [siegelslopes] over the points, at the point
    [(xj, yj)]: with [deltax[j, :] = xj - x] and [deltay[j, :] = yj - y],
    [deltay[j, id_nonzero] / deltax[j, id_nonzero]] where [id_nonzero] marks
    the non-zero entries of [deltax[j, :]]. *)
Definition slopes_of (y x : list R) (yj xj : R) : list R :=
  let deltax := map (fun xk => xj - xk) x in
  let deltay := map (fun yk => yj - yk) y in
  let id_nonzero := map (fun dx => negb (Reqb dx 0)) deltax in
  map2 Rdiv (select id_nonzero deltay) (select id_nonzero deltax).

(** [scipy.stats.siegelslopes(y, x)] with its default method
    ['hierarchical'], as scipy computes it: [ValueError] when the two arrays
    differ in length; else the slope is the median, over the points, of the
    median of the slopes from the point to the points of another abscissa,
    and the intercept is the median of [y - medslope * x].  [None] stands for
    the pair of not-a-numbers scipy returns when one of the medians is taken
    of no value. *)
Definition siegelslopes (y x : list R) : exn + option (R * R) :=
  if negb (Nat.eqb (length x) (length y)) then inl ValueError
  else
    let slopes := map2 (fun yj xj => np_median (slopes_of y x yj xj)) y x in
    match all_values slopes with
    | None => inr None
    | Some s =>
        match np_median s with
        | None => inr None
        | Some medslope =>
            match np_median (map2 (fun yk xk => yk - medslope * xk) y x) with
            | None => inr None
            | Some medinter => inr (Some (medslope, medinter))
            end
        end
    end.

(** [linear_diff] for one gather: the values stored in [dst[0]] and [dst[1]]
    at the gather's position, [None] when the fit is not-a-number and both
    values with it.  [raw] is read and not used. *)
Definition linear_diff (time offset : list R) (gx gy sx sy s_elev g_elev : nd)
    : exn + option (R * R) :=
  dx <- broadcast Rminus gx sx ;;
  dy <- broadcast Rminus gy sy ;;
  dz <- broadcast Rminus s_elev g_elev ;;
  dxy <- broadcast Rplus (nd_map sq dx) (nd_map sq dy) ;;
  d2 <- broadcast Rplus dxy (nd_map sq dz) ;;
  let offset_all := nd_map sqrt d2 in
  fit <- siegelslopes time offset ;;
  match fit with
  | Some (slope, intercept) =>
      let fitted := map (fun o => o * slope + intercept) offset in
      v <- broadcast Rminus (Arr fitted) (Arr time) ;;
      let values := nd_map Rabs v in
      od <- broadcast Rminus (Arr offset) offset_all ;;
      let time_for_elev := nd_map (fun x => Rabs (x * slope)) od in
      inr (Some (np_mean values, np_mean time_for_elev))
  | None =>
      _ <- broadcast Rminus (Arr offset) offset_all ;;
      inr None
  end.

End PM.

(** * Reference definitions used in the statements *)

(** The scenario of the specification for [MetricsMap]: three coordinates,
    the second a repetition of the first. *)
Definition scenario_coords : list MetricsMap.coord := [(0, 0); (0, 0); (1, 1)].

Definition scenario_values : list f64 := [Fin 10; Fin 20; Fin 30].

(** The selectors [avo_plot] does not know: an [avg_method] that is neither
    ['mean'] nor a callable, an entry of [stats] that is neither ['std'],
    ['corr'] nor a callable. *)
Definition invalid_avg (a : AvoPlot.avg_sel) : bool :=
  match a with
  | AvoPlot.AvgStr s => negb (String.eqb s "mean")
  | AvoPlot.AvgCallable _ => false
  | AvoPlot.AvgOther => true
  end.

Definition invalid_stat (s : AvoPlot.stat_sel) : bool :=
  match s with
  | AvoPlot.StatStr s => negb (String.eqb s "std") && negb (String.eqb s "corr")
  | AvoPlot.StatCallable _ => false
  | AvoPlot.StatOther => true
  end.

(** The values of bin [i] across the gathers of a distribution. *)
Definition column (i : nat) (results : list (list Q)) : list Q :=
  map (fun r => nth i r 0) results.

(** The rows of one distribution, bin by bin: a bin whose values sum to zero
    gives none, another bin gives its non-zero values at its offset. *)
Definition series_rows_spec (results : list (list Q)) (bin_size : Z) (nm : string)
    : list StdPlot.row :=
  flat_map
    (fun i =>
       if StdPlot.Qnonzero (StdPlot.Qsum (column i results))
       then map (fun v => StdPlot.mk_row v (inject_Z (Z.of_nat i * bin_size)) nm)
                (filter StdPlot.Qnonzero (column i results))
       else [])
    (seq 0 (length (hd [] results))).

(** A two-dimensional array: rows of one length. *)
Definition rectangular {A : Type} (m : list (list A)) : Prop :=
  Forall (fun r => length r = length (hd [] m)) m.

(** The values of one distribution in a table. *)
Definition group_vals (nm : string) (tbl : list StdPlot.row) : list Q :=
  map StdPlot.val (filter (fun r => String.eqb (StdPlot.name r) nm) tbl).

(** The shift of the distribution [nm]: the mean of the whole table less the
    mean of the distribution. *)
Definition shift_of (tbl : list StdPlot.row) (nm : string) : Q :=
  StdPlot.Qmean (map StdPlot.val tbl) - StdPlot.Qmean (group_vals nm tbl).

Definition shift_row (c : string -> Q) (r : StdPlot.row) : StdPlot.row :=
  StdPlot.mk_row (StdPlot.val r + c (StdPlot.name r)) (StdPlot.indices r) (StdPlot.name r).

(** The table with every distribution shifted by its own constant. *)
Definition shifted (tbl : list StdPlot.row) : list StdPlot.row :=
  map (shift_row (shift_of tbl)) tbl.

(** The table while the loop over the groups runs: the distributions named in
    [done] are shifted, the others are as they were. *)
Definition partly_shifted (tbl : list StdPlot.row) (done : list string) (r : StdPlot.row)
    : StdPlot.row :=
  if existsb (String.eqb (StdPlot.name r)) done then shift_row (shift_of tbl) r else r.

(** The shape of a cleaned horizon line: no white space in front, no two
    spaces in a row. *)
Definition head_ok (s : Horizon.str) : Prop :=
  match s with
  | c :: _ => Horizon.is_space c = false
  | [] => True
  end.

Fixpoint no_double (s : Horizon.str) : Prop :=
  match s with
  | c :: t =>
      match t with
      | c' :: _ => ~ (c = Horizon.space /\ c' = Horizon.space)
      | [] => True
      end /\ no_double t
  | [] => True
  end.


(** *** Offset binning without the store

    What one turn of the loop over the bins computes from the amplitudes
    [data] the gather's array shows ([ncols] samples per trace). *)

Definition bin_rows (data : Avo.matrix) (offset : list Q) (stp nxt : Q) : Avo.matrix :=
  select (Avo.bin_mask offset stp nxt) data.

(** The rows of a bin cut to the window [w], exact zeros made not-a-number. *)
Definition bin_masked (ncols : nat) (w : Z * Z) (rows : Avo.matrix) : Avo.matrix :=
  let lo := Avo.slice_bound ncols (fst w) in
  let hi := Nat.max lo (Avo.slice_bound ncols (snd w + 1)) in
  map (map Avo.zero_to_nan) (Avo.window_rows lo hi rows).

Definition bin_value (calc_method : Avo.matrix -> f64) (data : Avo.matrix) (ncols : nat)
    (offset : list Q) (w : Z * Z) (stp nxt : Q) : f64 :=
  let rows := bin_rows data offset stp nxt in
  if Nat.eqb (length rows * ncols) 0 then Fin 0
  else nan_to_num (calc_method (bin_masked ncols w rows)).

Definition bin_step_pure (calc_method : Avo.matrix -> f64) (data : Avo.matrix)
    (ncols : nat) (offset : list Q) (window : option (Z * Z)) (i : nat) (stp nxt : Q)
    (storage : list f64) : exn + list f64 :=
  if Nat.eqb (length (Avo.bin_mask offset stp nxt)) (length data)
  then
    let rows := bin_rows data offset stp nxt in
    if Nat.eqb (length rows * ncols) 0 then Avo.setitem storage i (Fin 0)
    else match window with
         | None => inl TypeError
         | Some w =>
             Avo.setitem storage i (nan_to_num (calc_method (bin_masked ncols w rows)))
         end
  else inl IndexError.

Fixpoint bin_loop_pure (calc_method : Avo.matrix -> f64) (data : Avo.matrix)
    (ncols : nat) (offset : list Q) (window : option (Z * Z)) (i : nat)
    (bins : list (Q * Q)) (storage : list f64) : exn + list f64 :=
  match bins with
  | [] => inr storage
  | (stp, nxt) :: rest =>
      storage' <- bin_step_pure calc_method data ncols offset window i stp nxt storage ;;
      bin_loop_pure calc_method data ncols offset window (S i) rest storage'
  end.

Definition avo_storage_pure (calc_method : Avo.matrix -> f64) (data : Avo.matrix)
    (ncols : nat) (df : list Avo.trace_header) (samples : list Q)
    (bin_size : Avo.bin_spec) (storage_size : nat) (window : option (Z * Z))
    (horizon_window : Q * Q) (horizon : option (list Avo.horizon_row)) : exn + list f64 :=
  let offset := np_sort Qle_bool (map Avo.offset df) in
  t_step <- Avo.t_step_of samples ;;
  window' <- Avo.gather_window horizon horizon_window window samples t_step df ;;
  step_list <- Avo.step_list_of bin_size offset ;;
  bin_loop_pure calc_method data ncols offset window' 0 (Avo.bins_of step_list)
    (repeat (Fin 0) storage_size).

(** An offset lies in the bin [[stp, nxt)]. *)
Definition in_bin (stp nxt o : Q) : Prop := stp <= o /\ o < nxt.

(** Every sample of the array is not-a-number. *)
Definition all_nan (m : Avo.matrix) : Prop := Forall (Forall (fun x => x = NaN)) m.

(** *** The bin grid, cell by cell *)

(** The sample at [(x, y)] lies in the cell whose lower corner is [(rx, ry)]:
    lower bounds included, upper bounds excluded. *)
Definition in_cell (rx ry bin_size x y : Q) : Prop :=
  (rx <= x /\ x < rx + bin_size) /\ (ry <= y /\ y < ry + bin_size).

Definition in_cell_b (rx ry bin_size x y : Q) : bool :=
  Qle_bool rx x && Qlt_bool x (rx + bin_size)
  && Qle_bool ry y && Qlt_bool y (ry + bin_size).

(** What a cell holds: the mean of its values, not-a-number without any. *)
Definition cell_mean (vs : list f64) : f64 :=
  match vs with
  | [] => NaN
  | _ => np_mean vs
  end.

(** The grid has [rows] rows of [cols] cells. *)
Definition grid_dims (rows cols : nat) (g : BinGrid.grid) : Prop :=
  length g = rows /\ Forall (fun r => length r = cols) g.

(** What one turn of the loops writes at [(i, j)], if anything. *)
Definition cell_write (coords_x coords_y : list Q) (metrics : list f64) (bin_size : Q)
    (range_x range_y : list Q) (i j : nat) : option f64 :=
  let mask := BinGrid.cell_mask coords_x coords_y (nth i range_x 0) (nth j range_y 0)
                bin_size in
  if Nat.ltb 0 (BinGrid.mask_sum mask) then Some (np_mean (select mask metrics)) else None.

Definition write_cell (w : nat -> nat -> option f64) (g : BinGrid.grid) (c : nat * nat)
    : BinGrid.grid :=
  match w (fst c) (snd c) with
  | Some v => BinGrid.set_cell (snd c) (fst c) v g
  | None => g
  end.

(** *** The linear fit, trace by trace *)

(** The value a component has for trace [k]: a scalar serves every trace. *)
Definition nd_at (a : PM.nd) (k : nat) : R :=
  match a with
  | PM.Scalar x => x
  | PM.Arr l => nth k l 0%R
  end.

(** A component fits a gather of [n] traces: a scalar, or one value a trace. *)
Definition conforms (n : nat) (a : PM.nd) : Prop :=
  match a with
  | PM.Scalar _ => True
  | PM.Arr l => length l = n
  end.

(** The distance in space between the source and the receiver of trace [k]. *)
Definition distance3 (gx gy sx sy s_elev g_elev : PM.nd) (k : nat) : R :=
  sqrt ((nd_at gx k - nd_at sx k) ^ 2 + (nd_at gy k - nd_at sy k) ^ 2
        + (nd_at s_elev k - nd_at g_elev k) ^ 2)%R.

(** The mean over the traces [0 .. n-1] of a value given trace by trace. *)
Definition mean_over (n : nat) (F : nat -> R) : R :=
  (PM.Rsum (map F (seq 0 n)) / INR n)%R.

(** The number of values of an array other than [a]. *)
Definition others (a : R) (l : list R) : nat :=
  length (filter (fun v => negb (PM.Reqb v a)) l).

(** The slopes of the lines from the point of trace [j] to the points of
    the traces of another offset. *)
Definition pairwise_slopes (time offset : list R) (j : nat) : list R :=
  map (fun k => (nth k time 0 - nth j time 0) / (nth k offset 0 - nth j offset 0))%R
      (filter (fun k => negb (PM.Reqb (nth k offset 0%R) (nth j offset 0%R)))
         (seq 0 (length offset))).

(** The fit by repeated medians: the slope is the median over the traces of
    the median of the pairwise slopes of the trace, the intercept the median
    of [time - slope * offset]. *)
Definition repeated_medians (time offset : list R) (slope intercept : R) : Prop :=
  exists meds,
    length meds = length offset
    /\ (forall j, (j < length offset)%nat ->
          PM.np_median (pairwise_slopes time offset j) = Some (nth j meds 0%R))
    /\ PM.np_median meds = Some slope
    /\ PM.np_median (map (fun k => nth k time 0 - slope * nth k offset 0)%R
                       (seq 0 (length offset))) = Some intercept.

(** The fit by ordinary least squares:
    [slope = sum (x - mx) (y - my) / sum (x - mx)^2] and
    [intercept = my - slope * mx], [mx] and [my] being the means. *)
Definition least_squares (time offset : list R) : R * R :=
  let n := INR (length offset) in
  let mx := (PM.Rsum offset / n)%R in
  let my := (PM.Rsum time / n)%R in
  let slope := (PM.Rsum (map2 (fun x y => (x - mx) * (y - my)) offset time)
                / PM.Rsum (map (fun x => (x - mx) ^ 2) offset))%R in
  (slope, (my - slope * mx)%R).

(** *** First occurrences *)

(** The coordinates of a list, each kept where it first occurs. *)
Fixpoint first_occurrences (l : list MetricsMap.coord) : list MetricsMap.coord :=
  match l with
  | [] => []
  | c :: t => c :: filter (fun c' => negb (MetricsMap.coord_eqb c' c)) (first_occurrences t)
  end.

Section StableOrder.

Context {A : Type} (leb eqb : A -> A -> bool).

(** [x] comes before [y] in a stable sort: by the key, and among equal keys
    by the position. *)
Definition before (x y : nat * A) : Prop :=
  leb (snd x) (snd y) = true /\ (leb (snd y) (snd x) = true -> (fst x < fst y)%nat).

Definition rising (x y : nat * A) : Prop := (fst x < fst y)%nat.

(** The elements of a list that differ from the one before them, [p] being
    before the first. *)
Fixpoint heads_from (p : A) (l : list (nat * A)) : list (nat * A) :=
  match l with
  | [] => []
  | y :: t =>
      if negb (eqb (snd y) p) then y :: heads_from (snd y) t else heads_from (snd y) t
  end.

Definition heads (l : list (nat * A)) : list (nat * A) :=
  match l with
  | [] => []
  | x :: t => x :: heads_from (snd x) t
  end.

Fixpoint mask_from (p : A) (l : list A) : list bool :=
  match l with
  | [] => []
  | y :: t => negb (eqb y p) :: mask_from y t
  end.

(** [(i, c)] is a first occurrence in [l]: [c] stands at [i] and no equal
    element stands before. *)
Definition is_first (l : list A) (y : nat * A) : Prop :=
  nth_error l (fst y) = Some (snd y)
  /\ forall j c, nth_error l j = Some c -> eqb c (snd y) = true -> (fst y <= j)%nat.

(** The first occurrences of [l] with their positions, counted from [k]. *)
Fixpoint first_from (k : nat) (l : list A) : list (nat * A) :=
  match l with
  | [] => []
  | c :: t => (k, c) :: filter (fun y => negb (eqb (snd y) c)) (first_from (S k) t)
  end.

End StableOrder.

(** * Further functions of the same files *)

From Stdlib Require Import DecimalZ DecimalPos.

(** The coordinates of the samples of a map, in order. *)
Definition coords_of (m : MetricsMap.t) : list MetricsMap.coord :=
  map (fun s => (MetricsMap.sx s, MetricsMap.sy s)) (MetricsMap.maps_list m).

(** No two elements of the list are equal as coordinates. *)
Definition distinct_coords (l : list MetricsMap.coord) : Prop :=
  ForallOrdPairs (fun a b => MetricsMap.coord_eqb b a = false) l.

(** The characters that [load_horizon] takes out of a line before it looks
    whether anything is left: letters and colons, and white space. *)
Definition blank_char (c : ascii) : bool :=
  Horizon.is_alpha_colon c || Horizon.is_space c.

(** The row a line adds to the table, if it adds one. *)
Definition row_of_line (line : Horizon.str) : list Avo.horizon_row :=
  match Horizon.horizon_line line with
  | inr (Some row) => [row]
  | _ => []
  end.

(** * Utilities of the quality control ([qc/utils.py]) *)

Module QcUtils.

(** A list comprehension [[f(x) for x in l]] whose [f] may raise: the first
    failure is the one raised. *)
Fixpoint comprehension {A B : Type} (f : A -> exn + B) (l : list A) : exn + list B :=
  match l with
  | [] => inr []
  | x :: t =>
      y <- f x ;;
      ys <- comprehension f t ;;
      inr (y :: ys)
  end.

(** [parse_tuple(str_arg)] *)
Definition parse_tuple (str_arg : Horizon.str) : exn + list Z :=
  let splitted := Horizon.split ","%char str_arg in
  if (length splitted <? 2)%nat then inl ValueError
  else comprehension Horizon.py_int splitted.

End QcUtils.

(** [str(z)] of an integer: its decimal digits, after a minus sign if it is
    negative. *)
Definition py_str_int (z : Z) : Horizon.str :=
  list_ascii_of_string (DecimalString.NilZero.string_of_int (Z.to_int z)).

(** The characters of a printed numeral. *)
Definition digit_chars (d : Decimal.uint) : Horizon.str :=
  list_ascii_of_string (DecimalString.NilEmpty.string_of_uint d).

(** [sep.join(toks)] *)
Fixpoint py_join (sep : ascii) (toks : list Horizon.str) : Horizon.str :=
  match toks with
  | [] => []
  | [t] => t
  | t :: rest => t ++ sep :: py_join sep rest
  end.

(** How many times a character occurs. *)
Definition count_char (c : ascii) (s : Horizon.str) : nat :=
  length (filter (Ascii.eqb c) s).

(** * Semblance metrics ([seismic_metrics.py]) *)

Module SemblanceMetrics.

(** [np.max(a, axis=1)] and [np.min(a, axis=1)] of a two-dimensional array
    of finite values, given by its rows. *)
Definition np_max_axis1 (a : list (list Q)) : exn + list Q :=
  QcUtils.comprehension np_max a.

Definition np_min_axis1 (a : list (list Q)) : exn + list Q :=
  QcUtils.comprehension np_min a.

(** The value [calculate_minmax] stores at the position of a gather. *)
Definition calculate_minmax (semblance : list (list Q)) : exn + Q :=
  maxs <- np_max_axis1 semblance ;;
  mins <- np_min_axis1 semblance ;;
  np_max (map2 Qminus maxs mins).

End SemblanceMetrics.

(** The spread of a row: its largest value less its smallest. *)
Definition spread (row : list Q) : Q :=
  match row with
  | [] => 0
  | x :: t => Qmax_list x t - Qmin_list x t
  end.

(** * The plotters of the quality control ([qc/utils.py]) *)

Module QcPlots.

(** What [plt.subplots] returns for the axes, and what indexing makes of it:
    one [Axes] object, a one-dimensional array of them, or a two-dimensional
    one. *)
Inductive axes : Type :=
| AxScalar
| Ax1 (n : nat)
| Ax2 (r c : nat).

(** [plt.subplots(nrows, ncols)] with its default [squeeze=True]: a single
    [Axes] for one cell, a one-dimensional array for one row or one column,
    a two-dimensional array otherwise.  A grid without rows or columns is
    refused. *)
Definition plt_subplots (nrows ncols : nat) : exn + axes :=
  if ((nrows =? 0) || (ncols =? 0))%nat then inl ValueError
  else if ((nrows =? 1) && (ncols =? 1))%nat then inr AxScalar
  else if (nrows =? 1)%nat then inr (Ax1 ncols)
  else if (ncols =? 1)%nat then inr (Ax1 nrows)
  else inr (Ax2 nrows ncols).

(** [np.atleast_2d(ax)]: axes are added in front. *)
Definition np_atleast_2d (a : axes) : axes :=
  match a with
  | AxScalar => Ax2 1 1
  | Ax1 n => Ax2 1 n
  | Ax2 r c => Ax2 r c
  end.

(** [ax[i]] for [i >= 0]; an [Axes] object cannot be indexed. *)
Definition ax_index (a : axes) (i : nat) : exn + axes :=
  match a with
  | AxScalar => inl TypeError
  | Ax1 n => if (i <? n)%nat then inr AxScalar else inl IndexError
  | Ax2 r c => if (i <? r)%nat then inr (Ax1 c) else inl IndexError
  end.

(** What is done to a cell of the figure: image [n_axis] is shown in it, or
    the cell is removed. *)
Inductive action : Type :=
| Imshow (i j n_axis : nat)
| Delaxes (i j : nat).

Section Drawing.

(** The work on image [n_axis] that does not depend on the cell: taking the
    image, its colour map and its norm before the cell is looked up
    ([prepare]), the labels, the title and the colour bar after
    ([decorate]).  Both can raise. *)
Variable prepare : nat -> exn + unit.
Variable decorate : nat -> exn + unit.

(** The body of the two loops of [plot_metrics]. *)
Definition cell (n cols : nat) (ax : axes) (ij : nat * nat) : exn + action :=
  let '(i, j) := ij in
  let n_axis := (i * cols + j)%nat in
  if (n_axis <? n)%nat
  then
    _ <- prepare n_axis ;;
    row <- ax_index ax i ;;
    _ <- ax_index row j ;;
    _ <- decorate n_axis ;;
    inr (Imshow i j n_axis)
  else
    row <- ax_index ax i ;;
    _ <- ax_index row j ;;
    inr (Delaxes i j).

(** [plot_metrics(imgs, ..., cols, ...)] for [n = imgs.shape[-1]] images, up
    to the title: what is done to the cells, in order. *)
Definition plot_metrics (n cols : nat) : exn + list action :=
  if (cols =? 0)%nat then inl ZeroDivisionError
  else
    let rows := if negb (n mod cols =? 0)%nat then (n / cols + 1)%nat else (n / cols)%nat in
    ax <- plt_subplots rows cols ;;
    let ax := np_atleast_2d ax in
    QcUtils.comprehension (cell n cols ax) (list_prod (seq 0 rows) (seq 0 cols)).

(** [plot_slice(imgs, ...)] for [rows = imgs.shape[-1]] images, up to the
    title. *)
Definition plot_slice (rows : nat) : exn + list action :=
  ax <- plt_subplots rows 1 ;;
  QcUtils.comprehension
    (fun n_axis =>
       _ <- prepare n_axis ;;
       _ <- ax_index ax n_axis ;;
       _ <- decorate n_axis ;;
       inr (Imshow n_axis 0 n_axis))
    (seq 0 rows).

End Drawing.

End QcPlots.

(** The cell of a figure of [cols] columns that is visited as number [k],
    and what [plot_metrics] does to it when there are [n] images. *)
Definition cell_action (n cols k : nat) : QcPlots.action :=
  if (k <? n)%nat then QcPlots.Imshow (k / cols) (k mod cols) k
  else QcPlots.Delaxes (k / cols) (k mod cols).

(** * The colour range of the plots ([qc/utils.py]) *)

Module QcRange.

(** [a < b] on floats: false as soon as one side is not-a-number. *)
Definition f_ltb (a b : f64) : bool :=
  match a, b with
  | NaN, _ => false
  | _, NaN => false
  | NInf, NInf => false
  | NInf, _ => true
  | _, NInf => false
  | PInf, _ => false
  | Fin _, PInf => true
  | Fin x, Fin y => Qlt_bool x y
  end.

(** One step of [np.min(..., axis=0)] and of [np.max(..., axis=0)]:
    not-a-number wins. *)
Definition f_min2 (a b : f64) : f64 :=
  match a, b with
  | NaN, _ => NaN
  | _, NaN => NaN
  | _, _ => if f_ltb b a then b else a
  end.

Definition f_max2 (a b : f64) : f64 :=
  match a, b with
  | NaN, _ => NaN
  | _, NaN => NaN
  | _, _ => if f_ltb a b then b else a
  end.

(** The float written [1e-6]. *)
Definition small : Q := 1 # 1000000.

Section Percentile.

(** A three-dimensional array, the length of its last axis, and
    [np.nanpercentile(arr, q, axis=(0, 1))], which numpy computes: one value
    for each index of the last axis. *)
Variable array3 : Type.
Variable shape_last : array3 -> nat.
Variable np_nanpercentile : array3 -> Q -> list f64.

(** [calc_range(arr)] *)
Definition calc_range (arr : array3) : list f64 * list f64 :=
  let vmins := map2 f_min2 (np_nanpercentile arr 5) (repeat (Fin (- small)) (shape_last arr)) in
  let vmaxs := map2 f_max2 (np_nanpercentile arr 95) (repeat (Fin small) (shape_last arr)) in
  (vmins, vmaxs).

End Percentile.

End QcRange.

(** * Merging SEG-Y files ([file_utils.py]) *)

Module FileUtils.

(** [paths]: one string, or a list of strings. *)
Inductive paths_arg : Type :=
| PathStr (s : string)
| PathList (l : list string).

(** [np.all(samples != other)] on two arrays of sample times.  Arrays of one
    length are compared place by place; an array of one value is compared
    with every value of the other; for other lengths the comparison does not
    broadcast, which ends in the same ValueError as a [True] (raised by numpy
    itself, or by the caller on the scalar [True] older versions return). *)
Definition all_differ (samples other : list Q) : bool :=
  if (length samples =? length other)%nat
  then forallb (fun b => b) (map2 (fun x y => negb (Qeq_bool x y)) samples other)
  else if (length samples =? 1)%nat
       then forallb (fun y => negb (Qeq_bool (hd 0 samples) y)) other
       else if (length other =? 1)%nat
            then forallb (fun x => negb (Qeq_bool x (hd 0 other))) samples
            else true.

Section Segy.

(** The samples of a trace and the header fields other than
    [TRACE_SEQUENCE_FILE], as segyio reads and writes them. *)
Variable trace : Type.
Variable fields : Type.

Record header : Type := mk_hdr { TRACE_SEQUENCE_FILE : Z; others : fields }.

(** An opened file: [f.samples] and the traces with their headers;
    [f.tracecount] is their number. *)
Record segy_file : Type := mk_file { samples : list Q; traces : list (header * trace) }.

Definition tracecount (f : segy_file) : nat := length (traces f).

(** What the output file holds in the end. *)
Record merged : Type :=
  mk_merged { m_samples : option (list Q); m_tracecount : nat;
              m_traces : list (header * trace) }.

(** The file system and segyio: [glob.iglob(path, recursive=True)],
    [segyio.open(fname, strict=False)] and [segyio.create(output_path, spec)]
    for a [spec] with the given trace count and samples.  The files that are
    read are taken not to change during the call. *)
Variable iglob : string -> list string.
Variable segyio_open : string -> exn + segy_file.
Variable segyio_create : nat -> option (list Q) -> exn + unit.

(** The first loop: the samples are compared and the traces counted. *)
Fixpoint check_files (files_list : list string) (samples0 : option (list Q))
    (tracecounts : nat) : exn + (option (list Q) * nat) :=
  match files_list with
  | [] => inr (samples0, tracecounts)
  | fname :: rest =>
      f <- segyio_open fname ;;
      match samples0 with
      | None => check_files rest (Some (samples f)) (tracecounts + tracecount f)
      | Some s =>
          if all_differ s (samples f) then inl ValueError
          else check_files rest (Some s) (tracecounts + tracecount f)
      end
  end.

(** The traces of one source as they are written from place [i] on: trace
    and header are copied, and the header's [TRACE_SEQUENCE_FILE] is set to
    the place plus one. *)
Definition renumber (i : nat) (src : segy_file) : list (header * trace) :=
  map2 (fun j ht => (mk_hdr (Z.of_nat (i + j + 1)) (others (fst ht)), snd ht))
    (seq 0 (tracecount src)) (traces src).

(** The second loop; [dst] holds the places written so far. *)
Fixpoint copy_files (files_list : list string) (i : nat) (dst : list (header * trace))
    : exn + list (header * trace) :=
  match files_list with
  | [] => inr dst
  | index :: rest =>
      src <- segyio_open index ;;
      copy_files rest (i + tracecount src) (dst ++ renumber i src)
  end.

(** [merge_segy_files(paths, output_path, bar)] *)
Definition merge_segy_files (paths : paths_arg) : exn + merged :=
  let paths := match paths with PathStr s => [s] | PathList l => l end in
  if (length paths =? 0)%nat then inl ValueError
  else
    let files_list := flat_map iglob paths in
    r <- check_files files_list None 0 ;;
    let '(samples0, tracecounts) := r in
    _ <- segyio_create tracecounts samples0 ;;
    out <- copy_files files_list 0 [] ;;
    inr (mk_merged samples0 tracecounts out).

End Segy.

End FileUtils.

(** * Properties *)

(** ** Lists as numpy arrays *)

Section ArrayFacts.

Context {A B C : Type}.

Lemma select_length_le (mask : list bool) (a : list A) :
  (length (select mask a) <= length mask)%nat.
Proof.
  revert a. induction mask as [| b m IH]; intros [| x t]; simpl; try lia.
  destruct b; simpl; specialize (IH t); lia.
Qed.

Lemma nonzero_from_seq (f : nat -> bool) (n k : nat) :
  nonzero_from k (map f (seq k n)) = filter f (seq k n).
Proof.
  revert k. induction n as [| n IH]; intros k; simpl.
  - reflexivity.
  - rewrite IH. destruct (f k); reflexivity.
Qed.

Lemma take_nonzero_from (d : A) (flags : list bool) (pre l : list A) :
  length flags = length l ->
  take d (pre ++ l) (nonzero_from (length pre) flags) = select flags l.
Proof.
  revert pre l. induction flags as [| b m IH]; intros pre [| x t] H; simpl in *;
    try discriminate; try reflexivity.
  assert (E : pre ++ x :: t = (pre ++ [x]) ++ t) by (rewrite <- app_assoc; reflexivity).
  assert (L : S (length pre) = length (pre ++ [x])) by (rewrite length_app; simpl; lia).
  destruct b; simpl.
  - rewrite nth_middle. f_equal. rewrite E, L. apply IH. lia.
  - rewrite E, L. apply IH. lia.
Qed.

(** Indexing by the positions of the set flags is indexing by the mask. *)
Lemma take_nonzero (d : A) (flags : list bool) (l : list A) :
  length flags = length l -> take d l (nonzero flags) = select flags l.
Proof. intros H. apply (take_nonzero_from d flags [] l H). Qed.

Lemma select_map_filter (p : A -> bool) (l : list A) :
  select (map p l) l = filter p l.
Proof.
  induction l as [| x t IH]; simpl; [reflexivity|]. destruct (p x); rewrite IH; reflexivity.
Qed.

Lemma select_map2 (f : A -> B -> C) (flags : list bool) (a : list A) (b : list B) :
  map2 f (select flags a) (select flags b) = select flags (map2 f a b).
Proof.
  revert a b. induction flags as [| fl m IH]; intros [| x a] [| y b]; simpl;
    try reflexivity.
  - destruct fl; simpl; [reflexivity | destruct (select m a); reflexivity].
  - destruct fl; simpl; rewrite IH; reflexivity.
Qed.

Lemma map2_app (f : A -> B -> C) (a1 a2 : list A) (b1 b2 : list B) :
  length a1 = length b1 ->
  map2 f (a1 ++ a2) (b1 ++ b2) = map2 f a1 b1 ++ map2 f a2 b2.
Proof.
  revert b1. induction a1 as [| x a1 IH]; intros [| y b1] H; simpl in *;
    try discriminate; [reflexivity|].
  rewrite IH by lia. reflexivity.
Qed.

Lemma map2_repeat (f : A -> B -> C) (a : list A) (y : B) :
  map2 f a (repeat y (length a)) = map (fun x => f x y) a.
Proof. induction a as [| x a IH]; simpl; [reflexivity|]. rewrite IH. reflexivity. Qed.

Lemma select_app (m1 m2 : list bool) (a1 a2 : list A) :
  length m1 = length a1 ->
  select (m1 ++ m2) (a1 ++ a2) = select m1 a1 ++ select m2 a2.
Proof.
  revert a1. induction m1 as [| b m1 IH]; intros [| x a1] H; simpl in *;
    try discriminate; [reflexivity|].
  destruct b; simpl; rewrite IH by lia; reflexivity.
Qed.

Lemma map2_length (f : A -> B -> C) (a : list A) (b : list B) :
  length a = length b -> length (map2 f a b) = length a.
Proof.
  revert b. induction a as [| x a IH]; intros [| y b] H; simpl in *;
    try discriminate; [reflexivity|]. rewrite IH by lia. reflexivity.
Qed.

End ArrayFacts.

Lemma flat_map_filter_seq {A : Type} (q : nat -> bool) (g : nat -> list A) (l : list nat) :
  flat_map g (filter q l) = flat_map (fun i => if q i then g i else []) l.
Proof.
  induction l as [| i l IH]; simpl; [reflexivity|].
  destruct (q i); simpl; rewrite IH; reflexivity.
Qed.

Lemma map_nth_seq {A : Type} (d : A) (l : list A) :
  map (fun i => nth i l d) (seq 0 (length l)) = l.
Proof.
  induction l as [| x l IH]; simpl; [reflexivity|].
  rewrite <- seq_shift, map_map. simpl. rewrite IH. reflexivity.
Qed.

(** ** Writing one element *)

Lemma set_nth_length {A : Type} (k : nat) (v : A) (l : list A) :
  length (BinGrid.set_nth k v l) = length l.
Proof.
  revert k. induction l as [| x l IH]; intros [| k]; simpl; try reflexivity.
  rewrite IH. reflexivity.
Qed.

Lemma set_nth_nth {A : Type} (k j : nat) (v d : A) (l : list A) :
  (k < length l)%nat ->
  nth j (BinGrid.set_nth k v l) d = if Nat.eqb j k then v else nth j l d.
Proof.
  revert k j. induction l as [| x l IH]; intros k j Hk; simpl in Hk; [lia|].
  destruct k as [| k]; destruct j as [| j]; simpl; try reflexivity.
  apply IH. lia.
Qed.

(** ** Sorting *)

Section SortFacts.

Context {A : Type} (leb : A -> A -> bool).

Lemma insert_by_perm (x : nat * A) (l : list (nat * A)) :
  Permutation (insert_by leb x l) (x :: l).
Proof.
  induction l as [| y t IH]; simpl; [apply Permutation_refl|].
  destruct (leb (snd x) (snd y)); [apply Permutation_refl|].
  eapply perm_trans; [apply perm_skip, IH | apply perm_swap].
Qed.

Lemma isort_perm (l : list (nat * A)) : Permutation (isort leb l) l.
Proof.
  induction l as [| x t IH]; simpl; [apply perm_nil|].
  eapply perm_trans; [apply insert_by_perm | apply perm_skip, IH].
Qed.

Lemma enumerate_snd_from (k : nat) (a : list A) :
  map snd (combine (seq k (length a)) a) = a.
Proof.
  revert k. induction a as [| x a IH]; intros k; simpl; [reflexivity|].
  rewrite IH. reflexivity.
Qed.

Lemma np_sort_perm (a : list A) : Permutation (np_sort leb a) a.
Proof.
  unfold np_sort. rewrite <- (enumerate_snd_from 0 a) at 2.
  apply Permutation_map, isort_perm.
Qed.

Lemma np_sort_length (a : list A) : length (np_sort leb a) = length a.
Proof. apply Permutation_length, np_sort_perm. Qed.

End SortFacts.


(** ** Stable sorting and first occurrences *)

Section StableSortFacts.

Context {A : Type} (leb eqb : A -> A -> bool).

Hypothesis leb_total : forall a b, leb a b = true \/ leb b a = true.
Hypothesis leb_trans : forall a b c, leb a b = true -> leb b c = true -> leb a c = true.
Hypothesis eqb_leb : forall a b, eqb a b = true <-> leb a b = true /\ leb b a = true.

Lemma leb_refl (a : A) : leb a a = true.
Proof. destruct (leb_total a a); assumption. Qed.

Lemma insert_by_stable (x : nat * A) (l : list (nat * A)) :
  StronglySorted (before leb) l -> Forall (rising x) l ->
  StronglySorted (before leb) (insert_by leb x l).
Proof.
  intros Hs Hx. induction Hs as [| y t Ht IH Hy]; simpl.
  - repeat constructor.
  - inversion Hx as [| ? ? Hxy Hxt]; subst.
    destruct (leb (snd x) (snd y)) eqn:E.
    + constructor; [constructor; assumption|].
      constructor; [split; [exact E | intros _; exact Hxy]|].
      rewrite Forall_forall in *. intros z Hz. split.
      * apply (leb_trans _ (snd y)); [exact E | apply (Hy z Hz)].
      * intros _. apply (Hxt z Hz).
    + constructor; [apply IH; exact Hxt|].
      apply (Permutation_Forall (Permutation_sym (insert_by_perm leb x t))).
      constructor; [|exact Hy]. split.
      * destruct (leb_total (snd x) (snd y)); congruence.
      * intros H. congruence.
Qed.

Lemma isort_stable (l : list (nat * A)) :
  StronglySorted rising l -> StronglySorted (before leb) (isort leb l).
Proof.
  intros Hs. induction Hs as [| x t Ht IH Hx]; simpl; [constructor|].
  apply insert_by_stable; [exact IH|].
  apply (Permutation_Forall (Permutation_sym (isort_perm leb t))). exact Hx.
Qed.

Lemma enumerate_rising (k : nat) (l : list A) :
  StronglySorted rising (combine (seq k (length l)) l).
Proof.
  revert k. induction l as [| c l IH]; intros k; simpl; [constructor|].
  constructor; [apply IH|]. apply Forall_forall. intros [i a] Hy.
  apply in_combine_l in Hy. apply in_seq in Hy. unfold rising. simpl. lia.
Qed.

Lemma In_enumerate_from (k : nat) (l : list A) (y : nat * A) :
  In y (combine (seq k (length l)) l)
  <-> (k <= fst y)%nat /\ nth_error l (fst y - k) = Some (snd y).
Proof.
  revert k. induction l as [| c l IH]; intros k; simpl.
  - split; [intros [] | intros [_ H]; destruct (fst y - k)%nat; discriminate].
  - rewrite IH. destruct y as [i a]. simpl. split.
    + intros [H | [H1 H2]].
      * inversion H; subst. rewrite Nat.sub_diag. split; [lia | reflexivity].
      * split; [lia|]. replace (i - k)%nat with (S (i - S k)) by lia. exact H2.
    + intros [H1 H2]. destruct (Nat.eq_dec i k) as [-> | Hne].
      * rewrite Nat.sub_diag in H2. simpl in H2. inversion H2. left. reflexivity.
      * right. split; [lia|]. replace (i - k)%nat with (S (i - S k)) in H2 by lia. exact H2.
Qed.

Lemma In_enumerate (l : list A) (y : nat * A) :
  In y (enumerate l) <-> nth_error l (fst y) = Some (snd y).
Proof.
  unfold enumerate. rewrite In_enumerate_from, Nat.sub_0_r. split; [tauto|].
  intros H. split; [lia | exact H].
Qed.

Lemma eqb_sym (a b : A) : eqb a b = eqb b a.
Proof.
  destruct (eqb a b) eqn:E1, (eqb b a) eqn:E2; try reflexivity.
  - apply eqb_leb in E1. assert (H : eqb b a = true) by (apply eqb_leb; tauto). congruence.
  - apply eqb_leb in E2. assert (H : eqb a b = true) by (apply eqb_leb; tauto). congruence.
Qed.

Lemma eqb_trans (a b c : A) : eqb a b = true -> eqb b c = true -> eqb a c = true.
Proof.
  rewrite !eqb_leb. intros [H1 H2] [H3 H4]. split; eapply leb_trans; eassumption.
Qed.

Lemma before_eq_rising (x y : nat * A) :
  before leb x y -> eqb (snd y) (snd x) = true -> (fst x < fst y)%nat.
Proof. intros [_ H] E. apply H. apply eqb_leb in E. tauto. Qed.

Lemma heads_from_spec (l : list (nat * A)) :
  StronglySorted (before leb) l ->
  forall x, Forall (before leb x) l ->
  forall y,
    In y (heads_from eqb (snd x) l)
    <-> In y l /\ eqb (snd y) (snd x) = false
        /\ forall z, In z l -> eqb (snd z) (snd y) = true -> (fst y <= fst z)%nat.
Proof.
  intros Hs. induction Hs as [| y0 t Ht IH Hy0]; intros x Hx y; simpl.
  - tauto.
  - inversion Hx as [| ? ? Hxy0 Hxt]; subst. rewrite Forall_forall in Hy0, Hxt.
    specialize (IH y0 (proj2 (Forall_forall _ _) Hy0) y).
    destruct (eqb (snd y0) (snd x)) eqn:E0; simpl.
    + rewrite IH. split.
      * intros [Hin [Hne Hmin]]. split; [right; exact Hin|]. split.
        -- destruct (eqb (snd y) (snd x)) eqn:E; [|reflexivity].
           rewrite eqb_sym in E0. rewrite (eqb_trans _ _ _ E E0) in Hne. discriminate.
        -- intros z [<- | Hz] Ez; [|apply Hmin; assumption].
           rewrite eqb_sym in Ez. congruence.
      * intros [[<- | Hin] [Hne Hmin]]; [congruence|].
        split; [exact Hin|]. split; [|intros z Hz; apply Hmin; right; exact Hz].
        destruct (eqb (snd y) (snd y0)) eqn:E; [|reflexivity].
        rewrite (eqb_trans _ _ _ E E0) in Hne. discriminate.
    + split.
      * intros [<- | Hin].
        -- split; [left; reflexivity|]. split; [exact E0|].
           intros z [<- | Hz] Ez; [lia|].
           apply Nat.lt_le_incl. apply before_eq_rising; [apply Hy0; exact Hz | exact Ez].
        -- apply IH in Hin. destruct Hin as [Hin [Hne Hmin]].
           split; [right; exact Hin|]. split.
           ++ destruct (eqb (snd y) (snd x)) eqn:E; [|reflexivity].
              assert (H1 : leb (snd y0) (snd x) = true).
              { apply (leb_trans _ (snd y)); [apply (Hy0 y Hin) | apply eqb_leb in E; tauto]. }
              assert (H2 : eqb (snd y0) (snd x) = true)
                by (apply eqb_leb; split; [exact H1 | apply Hxy0]).
              congruence.
           ++ intros z [<- | Hz] Ez; [|apply Hmin; assumption].
              rewrite eqb_sym in Ez. congruence.
      * intros [[<- | Hin] [Hne Hmin]]; [left; reflexivity|].
        right. apply IH. split; [exact Hin|]. split;
          [|intros z Hz; apply Hmin; right; exact Hz].
        destruct (eqb (snd y) (snd y0)) eqn:E; [|reflexivity].
        assert (H1 : (fst y <= fst y0)%nat)
          by (apply Hmin; [left; reflexivity | rewrite eqb_sym; exact E]).
        pose proof (before_eq_rising y0 y (Hy0 y Hin) E). lia.
Qed.

(** In a stably sorted list the elements that differ from the one before are
    those of least position among the elements equal to them. *)
Lemma heads_spec (l : list (nat * A)) :
  StronglySorted (before leb) l ->
  forall y,
    In y (heads eqb l)
    <-> In y l /\ forall z, In z l -> eqb (snd z) (snd y) = true -> (fst y <= fst z)%nat.
Proof.
  intros Hs y. destruct l as [| x t]; simpl; [tauto|].
  inversion Hs as [| ? ? Ht Hx]; subst.
  rewrite (heads_from_spec t Ht x Hx y). rewrite Forall_forall in Hx. split.
  - intros [<- | [Hin [Hne Hmin]]].
    + split; [left; reflexivity|]. intros z [<- | Hz] Ez; [lia|].
      apply Nat.lt_le_incl. apply before_eq_rising; [apply Hx; exact Hz | exact Ez].
    + split; [right; exact Hin|]. intros z [<- | Hz] Ez; [|apply Hmin; assumption].
      rewrite eqb_sym in Ez. congruence.
  - intros [[<- | Hin] Hmin]; [left; reflexivity|]. right.
    split; [exact Hin|]. split; [|intros z Hz; apply Hmin; right; exact Hz].
    destruct (eqb (snd y) (snd x)) eqn:E; [|reflexivity].
    assert (H1 : (fst y <= fst x)%nat)
      by (apply Hmin; [left; reflexivity | rewrite eqb_sym; exact E]).
    pose proof (before_eq_rising x y (Hx y Hin) E). lia.
Qed.

End StableSortFacts.

Section FirstOccurrenceFacts.

Context {A : Type} (leb eqb : A -> A -> bool).

Hypothesis leb_total : forall a b, leb a b = true \/ leb b a = true.
Hypothesis leb_trans : forall a b c, leb a b = true -> leb b c = true -> leb a c = true.
Hypothesis eqb_leb : forall a b, eqb a b = true <-> leb a b = true /\ leb b a = true.

(** The heads of the stably sorted enumeration are the first occurrences. *)
Lemma heads_sorted_first (l : list A) (y : nat * A) :
  In y (heads eqb (isort leb (enumerate l))) <-> is_first eqb l y.
Proof.
  rewrite (heads_spec leb eqb leb_trans eqb_leb)
    by (apply (isort_stable leb leb_total leb_trans), enumerate_rising).
  assert (Hin : forall z, In z (isort leb (enumerate l)) <-> nth_error l (fst z) = Some (snd z)).
  { intros z. rewrite <- In_enumerate. split; apply Permutation_in;
      [apply isort_perm | apply Permutation_sym, isort_perm]. }
  unfold is_first. rewrite Hin. split; intros [H1 H2]; (split; [exact H1|]).
  - intros j c Hj Ec. apply (H2 (j, c)); [apply Hin; exact Hj | exact Ec].
  - intros z Hz Ez. apply (H2 (fst z) (snd z)); [apply Hin; exact Hz | exact Ez].
Qed.

Lemma first_from_spec (l : list A) :
  forall k y,
    In y (first_from eqb k l)
    <-> (k <= fst y)%nat /\ nth_error l (fst y - k) = Some (snd y)
        /\ forall j c, nth_error l j = Some c -> eqb c (snd y) = true ->
                       (fst y <= j + k)%nat.
Proof.
  induction l as [| c t IH]; intros k y; simpl.
  - split; [intros [] | intros [_ [H _]]; destruct (fst y - k)%nat; discriminate].
  - rewrite filter_In, IH. split.
    + intros [<- | [[H1 [H2 H3]] Hne]]; simpl.
      * rewrite Nat.sub_diag. split; [lia|]. split; [reflexivity|]. intros; lia.
      * split; [lia|]. split.
        -- replace (fst y - k)%nat with (S (fst y - S k)) by lia. exact H2.
        -- intros [| j] c' Hj Ec; simpl in Hj.
           ++ inversion Hj; subst c'. rewrite (eqb_sym leb eqb eqb_leb) in Ec.
              rewrite Ec in Hne. discriminate.
           ++ specialize (H3 j c' Hj Ec). lia.
    + intros [H1 [H2 H3]]. destruct (Nat.eq_dec (fst y) k) as [E | E].
      * left. rewrite E, Nat.sub_diag in H2. simpl in H2. inversion H2.
        destruct y; simpl in *; subst; reflexivity.
      * right. replace (fst y - k)%nat with (S (fst y - S k)) in H2 by lia. simpl in H2.
        split; [split; [lia|]; split; [exact H2|]|].
        -- intros j c' Hj Ec. specialize (H3 (S j) c' Hj Ec). lia.
        -- destruct (eqb (snd y) c) eqn:Ec; [|reflexivity].
           rewrite (eqb_sym leb eqb eqb_leb) in Ec.
           specialize (H3 0%nat c eq_refl Ec). lia.
Qed.

Lemma first_from_is_first (l : list A) (y : nat * A) :
  In y (first_from eqb 0 l) <-> is_first eqb l y.
Proof.
  rewrite first_from_spec. unfold is_first. rewrite Nat.sub_0_r. split.
  - intros [_ [H1 H2]]. split; [exact H1|]. intros j c Hj Ec.
    specialize (H2 j c Hj Ec). lia.
  - intros [H1 H2]. split; [lia|]. split; [exact H1|]. intros j c Hj Ec.
    specialize (H2 j c Hj Ec). lia.
Qed.

Lemma StronglySorted_filter {B : Type} (R : B -> B -> Prop) (p : B -> bool) (l : list B) :
  StronglySorted R l -> StronglySorted R (filter p l).
Proof.
  intros H. induction H as [| x t Ht IH Hx]; simpl; [constructor|].
  destruct (p x); [|exact IH]. constructor; [exact IH|].
  rewrite Forall_forall in *. intros z Hz. apply filter_In in Hz. apply Hx, Hz.
Qed.

Lemma first_from_rising (l : list A) (k : nat) :
  StronglySorted rising (first_from eqb k l).
Proof.
  revert k. induction l as [| c t IH]; intros k; simpl; [constructor|].
  constructor; [apply StronglySorted_filter, IH|].
  apply Forall_forall. intros z Hz. apply filter_In in Hz. destruct Hz as [Hz _].
  apply first_from_spec in Hz. unfold rising. simpl. lia.
Qed.

(** Two lists in rising order of position with the same elements are one
    list. *)
Lemma rising_unique (l1 l2 : list (nat * A)) :
  StronglySorted rising l1 -> StronglySorted rising l2 ->
  (forall y, In y l1 <-> In y l2) -> l1 = l2.
Proof.
  intros H1. revert l2. induction H1 as [| a t1 Ht1 IH Ha]; intros l2 H2 Hin.
  - destruct l2 as [| b t2]; [reflexivity|].
    exfalso. apply (Hin b). left. reflexivity.
  - destruct H2 as [| b t2 Ht2 Hb].
    + exfalso. apply (Hin a). left. reflexivity.
    + rewrite Forall_forall in Ha, Hb.
      assert (Eab : a = b).
      { destruct (proj1 (Hin a) (or_introl eq_refl)) as [E | Ea]; [congruence|].
        destruct (proj2 (Hin b) (or_introl eq_refl)) as [E | Eb]; [exact E|].
        pose proof (Hb a Ea). pose proof (Ha b Eb). unfold rising in *. lia. }
      subst b. f_equal. apply IH; [exact Ht2|]. intros y. split; intros Hy.
      * destruct (proj1 (Hin y) (or_intror Hy)) as [E | Hy']; [|exact Hy'].
        subst y. pose proof (Ha a Hy). unfold rising in *. lia.
      * destruct (proj2 (Hin y) (or_intror Hy)) as [E | Hy']; [|exact Hy'].
        subst y. pose proof (Hb a Hy). unfold rising in *. lia.
Qed.

(** *** The mask of [np.unique] picks the heads *)

Lemma map2_shifted (l : list A) (p : A) :
  map2 (fun a b => negb (eqb a b)) l (p :: l) = mask_from eqb p l.
Proof.
  revert p. induction l as [| y t IH]; intros p; simpl; [reflexivity|].
  rewrite IH. reflexivity.
Qed.

Lemma select_mask_from {B : Type} (g : nat * A -> B) (l : list (nat * A)) (p : A) :
  select (mask_from eqb p (map snd l)) (map g l) = map g (heads_from eqb p l).
Proof.
  revert p. induction l as [| y t IH]; intros p; simpl; [reflexivity|].
  destruct (eqb (snd y) p); simpl; rewrite IH; reflexivity.
Qed.

Lemma heads_from_incl (l : list (nat * A)) (p : A) (y : nat * A) :
  In y (heads_from eqb p l) -> In y l.
Proof.
  revert p. induction l as [| x t IH]; intros p; simpl; [tauto|].
  destruct (negb (eqb (snd x) p)); simpl; intros H.
  - destruct H as [H | H]; [left; exact H | right; eapply IH; exact H].
  - right. eapply IH. exact H.
Qed.

Lemma heads_from_NoDup (l : list (nat * A)) (p : A) :
  NoDup (map fst l) -> NoDup (map fst (heads_from eqb p l)).
Proof.
  revert p. induction l as [| x t IH]; intros p H; simpl; [constructor|].
  inversion H as [| ? ? Hx Ht]; subst.
  destruct (negb (eqb (snd x) p)); simpl; [|apply IH; exact Ht].
  constructor; [|apply IH; exact Ht].
  intros Hin. apply Hx. apply in_map_iff in Hin. destruct Hin as [z [Ez Hz]].
  apply in_map_iff. exists z. split; [exact Ez | eapply heads_from_incl; exact Hz].
Qed.

Lemma heads_NoDup (l : list (nat * A)) :
  NoDup (map fst l) -> NoDup (map fst (heads eqb l)).
Proof.
  destruct l as [| x t]; simpl; [constructor|]. intros H.
  inversion H as [| ? ? Hx Ht]; subst. constructor; [|apply heads_from_NoDup; exact Ht].
  intros Hin. apply Hx. apply in_map_iff in Hin. destruct Hin as [z [Ez Hz]].
  apply in_map_iff. exists z. split; [exact Ez | eapply heads_from_incl; exact Hz].
Qed.

End FirstOccurrenceFacts.

(** ** MetricsMap: construction and merging *)

Section CoordOrder.

Import MetricsMap.

Lemma coord_leb_iff (a b : coord) :
  coord_leb a b = true <-> fst a < fst b \/ (fst a == fst b /\ snd a <= snd b).
Proof.
  unfold coord_leb, coord_cmp.
  destruct (fst a ?= fst b) eqn:E1.
  - apply Qeq_alt in E1. destruct (snd a ?= snd b) eqn:E2.
    + apply Qeq_alt in E2. split; [intros _; right; split; [exact E1 | Lqa.lra] | reflexivity].
    + apply Qlt_alt in E2. split; [intros _; right; split; [exact E1 | Lqa.lra] | reflexivity].
    + apply Qgt_alt in E2. split; [discriminate | intros [H | [_ H]]; Lqa.lra].
  - apply Qlt_alt in E1. split; [intros _; left; exact E1 | reflexivity].
  - apply Qgt_alt in E1. split; [discriminate | intros [H | [H _]]; Lqa.lra].
Qed.

Lemma coord_eqb_iff (a b : coord) :
  coord_eqb a b = true <-> fst a == fst b /\ snd a == snd b.
Proof.
  unfold coord_eqb, coord_cmp.
  destruct (fst a ?= fst b) eqn:E1.
  - apply Qeq_alt in E1. destruct (snd a ?= snd b) eqn:E2.
    + apply Qeq_alt in E2. tauto.
    + apply Qlt_alt in E2. split; [discriminate | intros [_ H]; Lqa.lra].
    + apply Qgt_alt in E2. split; [discriminate | intros [_ H]; Lqa.lra].
  - apply Qlt_alt in E1. split; [discriminate | intros [H _]; Lqa.lra].
  - apply Qgt_alt in E1. split; [discriminate | intros [H _]; Lqa.lra].
Qed.

Lemma coord_leb_total (a b : coord) : coord_leb a b = true \/ coord_leb b a = true.
Proof.
  rewrite !coord_leb_iff.
  destruct (Q_dec (fst a) (fst b)) as [[H | H] | H]; [left; left; exact H | right; left; exact H |].
  destruct (Qlt_le_dec (snd b) (snd a)) as [H' | H'].
  - right. right. split; Lqa.lra.
  - left. right. split; assumption.
Qed.

Lemma coord_leb_trans (a b c : coord) :
  coord_leb a b = true -> coord_leb b c = true -> coord_leb a c = true.
Proof.
  rewrite !coord_leb_iff. intros [H1 | [H1 H1']] [H2 | [H2 H2']].
  - left. Lqa.lra.
  - left. Lqa.lra.
  - left. Lqa.lra.
  - right. split; Lqa.lra.
Qed.

Lemma coord_eqb_leb (a b : coord) :
  coord_eqb a b = true <-> coord_leb a b = true /\ coord_leb b a = true.
Proof.
  rewrite coord_eqb_iff, !coord_leb_iff. split.
  - intros [H1 H2]. split; right; split; Lqa.lra.
  - intros [[H1 | [H1 H1']] [H2 | [H2 H2']]]; split; Lqa.lra.
Qed.

End CoordOrder.

Section ArgsortFacts.

Context {B : Type}.

Lemma enumerate_fst_from {A : Type} (k : nat) (l : list A) :
  map fst (combine (seq k (length l)) l) = seq k (length l).
Proof.
  revert k. induction l as [| x l IH]; intros k; simpl; [reflexivity|].
  rewrite IH. reflexivity.
Qed.

Lemma map_fst_combine_seq {A C : Type} (f : nat -> C) (k : nat) (l : list A) :
  map (fun kp => f (fst kp)) (combine (seq k (length l)) l) = map f (seq k (length l)).
Proof.
  rewrite <- (map_map fst f), enumerate_fst_from. reflexivity.
Qed.

Lemma StronglySorted_map_in {X Y : Type} (R : X -> X -> Prop) (R' : Y -> Y -> Prop)
    (g : X -> Y) (l : list X) :
  StronglySorted R l ->
  (forall a b, In a l -> In b l -> R a b -> R' (g a) (g b)) ->
  StronglySorted R' (map g l).
Proof.
  intros H. induction H as [| x t Ht IH Hx]; intros Hg; simpl; [constructor|].
  constructor.
  - apply IH. intros a b Ha Hb. apply Hg; right; assumption.
  - apply Forall_map. rewrite Forall_forall in *. intros z Hz.
    apply Hg; [left; reflexivity | right; exact Hz | apply Hx; exact Hz].
Qed.

Lemma nat_leb_total (a b : nat) : Nat.leb a b = true \/ Nat.leb b a = true.
Proof. destruct (Nat.leb_spec a b); [left; reflexivity | right; apply Nat.leb_le; lia]. Qed.

Lemma nat_leb_trans (a b c : nat) :
  Nat.leb a b = true -> Nat.leb b c = true -> Nat.leb a c = true.
Proof. rewrite !Nat.leb_le. lia. Qed.

(** Indexing by the argsort of distinct positions lists the elements in
    rising order of position. *)
Lemma take_argsort_positions (d : B) (H : list (nat * B)) :
  NoDup (map fst H) ->
  exists P,
    take d (map snd H) (argsort Nat.leb (map fst H)) = map snd P
    /\ Permutation P H /\ StronglySorted rising P.
Proof.
  intros Hnd.
  set (pos := map fst H).
  set (T := isort Nat.leb (enumerate pos)).
  set (g := fun kp : nat * nat => nth (fst kp) H (0%nat, d)).
  assert (HT : forall a, In a T -> nth_error pos (fst a) = Some (snd a)).
  { intros a Ha. apply In_enumerate. eapply Permutation_in; [apply isort_perm | exact Ha]. }
  assert (Hfst : forall a, In a T -> fst (g a) = snd a).
  { intros a Ha. unfold g. rewrite <- (map_nth fst). fold pos.
    apply nth_error_nth. apply HT. exact Ha. }
  exists (map g T). split; [|split].
  - unfold argsort. fold pos T. unfold take. rewrite !map_map. apply map_ext.
    intros kp. unfold g. rewrite <- (map_nth snd). reflexivity.
  - apply (perm_trans (Permutation_map g (isort_perm Nat.leb (enumerate pos)))).
    unfold enumerate, g. rewrite (map_fst_combine_seq (fun i => nth i H (0%nat, d))).
    unfold pos. rewrite length_map, map_nth_seq. apply Permutation_refl.
  - apply (StronglySorted_map_in (before Nat.leb)).
    + apply (isort_stable Nat.leb nat_leb_total nat_leb_trans), enumerate_rising.
    + intros a b Ha Hb [Hle Hst]. unfold rising. rewrite (Hfst a Ha), (Hfst b Hb).
      apply Nat.leb_le in Hle.
      destruct (Nat.eq_dec (snd a) (snd b)) as [E | E]; [|lia]. exfalso.
      assert (Hlt : (fst a < fst b)%nat) by (apply Hst, Nat.leb_le; lia).
      pose proof (HT a Ha) as Ea. pose proof (HT b Hb) as Eb.
      assert (Hi : (fst a < length pos)%nat) by (apply nth_error_Some; congruence).
      pose proof (proj1 (NoDup_nth_error pos) Hnd (fst a) (fst b) Hi) as Hinj.
      rewrite Ea, Eb, E in Hinj. specialize (Hinj eq_refl). lia.
Qed.

End ArgsortFacts.

Section BuildFacts.

Import MetricsMap.

Lemma np_unique_heads (coords : list coord) :
  np_unique coords
  = (map snd (heads coord_eqb (isort coord_leb (enumerate coords))),
     map fst (heads coord_eqb (isort coord_leb (enumerate coords)))).
Proof.
  unfold np_unique. destruct (isort coord_leb (enumerate coords)) as [| x t]; [reflexivity|].
  simpl map. unfold unique_mask. rewrite (map2_shifted coord_eqb). simpl select.
  rewrite <- (select_mask_from coord_eqb snd), <- (select_mask_from coord_eqb fst).
  reflexivity.
Qed.

Lemma first_from_occurrences (k : nat) (l : list coord) :
  map snd (first_from coord_eqb k l) = first_occurrences l.
Proof.
  revert k. induction l as [| c t IH]; intros k; simpl; [reflexivity|].
  f_equal. rewrite <- (IH (S k)).
  generalize (first_from coord_eqb (S k) t) as L. intros L.
  induction L as [| y L IHL]; simpl; [reflexivity|].
  destruct (negb (coord_eqb (snd y) c)); simpl; rewrite IHL; reflexivity.
Qed.

(** The coordinates the constructor keeps are the first occurrences, in
    their order. *)
Lemma unique_coords_first_occurrences (coords : list coord) :
  take (0, 0) (fst (np_unique coords)) (argsort Nat.leb (snd (np_unique coords)))
  = first_occurrences coords.
Proof.
  rewrite np_unique_heads. cbn [fst snd].
  set (H := heads coord_eqb (isort coord_leb (enumerate coords))).
  assert (Hnd : NoDup (map fst H)).
  { apply heads_NoDup.
    apply (Permutation_NoDup
             (Permutation_map fst (Permutation_sym (isort_perm coord_leb (enumerate coords))))).
    unfold enumerate. rewrite enumerate_fst_from. apply seq_NoDup. }
  destruct (take_argsort_positions (0, 0) H Hnd) as [P [HP [Hperm Hsorted]]].
  etransitivity; [exact HP|].
  rewrite <- (first_from_occurrences 0 coords).
  assert (E : P = first_from coord_eqb 0 coords); [|rewrite E; reflexivity].
  apply rising_unique;
    [exact Hsorted | apply (first_from_rising coord_leb coord_eqb coord_eqb_leb) |].
  intros y. rewrite (first_from_is_first coord_leb coord_eqb coord_eqb_leb).
  rewrite <- (heads_sorted_first coord_leb coord_eqb coord_leb_total coord_leb_trans
                coord_eqb_leb).
  fold H. split; apply Permutation_in; [exact Hperm | apply Permutation_sym, Hperm].
Qed.


(** C1 (the code departs from the claim).  The constructor keeps each
    coordinate where it first occurs, in order, and gives the k-th of them
    the k-th value of the input, not the value supplied where the coordinate
    first occurred.  On the coordinates [(0,0), (0,0), (1,1)] with the values
    [10, 20, 30] the two samples carry [10] and [20], not [10] and [30]. *)
Theorem build_pairs_in_order :
  (forall coords values,
      maps_list (build coords values)
      = map (fun cv => mk_sample (fst (fst cv)) (snd (fst cv)) (snd cv))
            (combine (first_occurrences coords) values))
  /\ map (fun s => (sx s, sy s)) (maps_list (build scenario_coords scenario_values))
     = [(0, 0); (1, 1)]
  /\ map svalue (maps_list (build scenario_coords scenario_values)) = [Fin 10; Fin 20].
Proof.
  split; [|split; reflexivity].
  intros coords values. unfold maps_list, build, __init__.
  pose proof (unique_coords_first_occurrences coords) as H.
  destruct (np_unique coords) as [unique_coords position]. simpl in H.
  cbn [_maps_list]. rewrite H. reflexivity.
Qed.

(** C7.  [A.append(B)] leaves in [A] the samples of [A] followed by those of
    [B], nothing removed: the lengths add up, and two maps that each hold a
    coordinate once give a map that holds it twice. *)
Theorem append_concatenates :
  (forall A B : MetricsMap.t,
      maps_list (append A B) = maps_list A ++ maps_list B
      /\ length (maps_list (append A B))
         = (length (maps_list A) + length (maps_list B))%nat)
  /\ (exists A B : MetricsMap.t,
        A = build [(0, 0)] [Fin 1] /\ B = build [(0, 0)] [Fin 2]
        /\ map (fun s => (sx s, sy s)) (maps_list (append A B)) = [(0, 0); (0, 0)]).
Proof.
  split.
  - intros A B. unfold maps_list, append. simpl. split.
    + reflexivity.
    + apply length_app.
  - eexists. eexists. split; [reflexivity|]. split; reflexivity.
Qed.

End BuildFacts.

(** ** The bin grid *)

Section BinGridFacts.

Import BinGrid.

(** *** Cells of a grid *)

Lemma set_nth_other {A : Type} (k j : nat) (v d : A) (l : list A) :
  j <> k -> nth j (set_nth k v l) d = nth j l d.
Proof.
  revert k j. induction l as [| x l IH]; intros [| k] [| j] H; simpl;
    try reflexivity; try congruence.
  apply IH. congruence.
Qed.

Lemma set_cell_dims (rows cols j i : nat) (v : f64) (g : grid) :
  grid_dims rows cols g -> (j < rows)%nat -> grid_dims rows cols (set_cell j i v g).
Proof.
  intros [Hl Hr] Hj. unfold set_cell. split; [rewrite set_nth_length; exact Hl|].
  rewrite Forall_forall in *. intros r Hin.
  apply (In_nth _ _ []) in Hin. destruct Hin as [k [Hk Hr']]. subst r.
  rewrite set_nth_length in Hk.
  destruct (Nat.eq_dec k j) as [-> | Hkj].
  - rewrite set_nth_nth, Nat.eqb_refl by lia. rewrite set_nth_length.
    apply Hr, nth_In. lia.
  - rewrite set_nth_other by exact Hkj. apply Hr, nth_In. exact Hk.
Qed.

Lemma get_set_cell (rows cols j i j' i' : nat) (v : f64) (g : grid) :
  grid_dims rows cols g -> (j < rows)%nat -> (i < cols)%nat ->
  get_cell j' i' (set_cell j i v g)
  = if (Nat.eqb j' j && Nat.eqb i' i)%bool then v else get_cell j' i' g.
Proof.
  intros [Hl Hr] Hj Hi. unfold get_cell, set_cell.
  destruct (Nat.eqb_spec j' j) as [-> | Hjj]; simpl.
  - rewrite set_nth_nth, Nat.eqb_refl by lia.
    rewrite set_nth_nth.
    + reflexivity.
    + rewrite Forall_forall in Hr. rewrite (Hr (nth j g [])) by (apply nth_In; lia).
      exact Hi.
  - rewrite set_nth_other by exact Hjj. reflexivity.
Qed.

Lemma full_nan_dims (rows cols : nat) : grid_dims rows cols (np_full_nan rows cols).
Proof.
  unfold np_full_nan. split; [apply repeat_length|].
  apply Forall_forall. intros r Hr. apply repeat_spec in Hr. subst. apply repeat_length.
Qed.

Lemma get_full_nan (rows cols j i : nat) : get_cell j i (np_full_nan rows cols) = NaN.
Proof.
  unfold get_cell, np_full_nan.
  destruct (Nat.lt_ge_cases j rows) as [Hj | Hj].
  - rewrite nth_repeat_lt by exact Hj.
    destruct (Nat.lt_ge_cases i cols) as [Hi | Hi].
    + apply nth_repeat_lt. exact Hi.
    + apply nth_overflow. rewrite repeat_length. exact Hi.
  - rewrite (nth_overflow (repeat (repeat NaN cols) rows))
      by (rewrite repeat_length; exact Hj).
    destruct i; reflexivity.
Qed.

(** *** The two loops as one pass over the cells *)

Lemma fold_row_pairs {S : Type} (step : nat -> nat -> S -> S) (i : nat) (js : list nat)
    (g : S) :
  fold_left (fun g c => step (fst c) (snd c) g) (map (pair i) js) g
  = fold_left (fun g' j => step i j g') js g.
Proof.
  revert g. induction js as [| j js IH]; intros g; simpl; [reflexivity | apply IH].
Qed.

Lemma nested_fold_flat {S : Type} (step : nat -> nat -> S -> S) (js is_ : list nat) (g : S) :
  fold_left (fun g i => fold_left (fun g' j => step i j g') js g) is_ g
  = fold_left (fun g c => step (fst c) (snd c) g)
      (flat_map (fun i => map (pair i) js) is_) g.
Proof.
  revert g. induction is_ as [| i is_ IH]; intros g; simpl; [reflexivity|].
  rewrite fold_left_app, fold_row_pairs. apply IH.
Qed.

Lemma write_cells_spec (w : nat -> nat -> option f64) (rows cols : nat)
    (cells : list (nat * nat)) :
  (forall c, In c cells -> (fst c < cols)%nat /\ (snd c < rows)%nat) ->
  forall g, grid_dims rows cols g ->
    let g' := fold_left (write_cell w) cells g in
    grid_dims rows cols g'
    /\ forall i j,
         get_cell j i g'
         = match w i j with
           | Some v => if existsb (fun c => Nat.eqb (fst c) i && Nat.eqb (snd c) j) cells
                       then v else get_cell j i g
           | None => get_cell j i g
           end.
Proof.
  induction cells as [| c cells IH]; intros Hin g Hd; simpl.
  - split; [exact Hd|]. intros i j. destruct (w i j); reflexivity.
  - assert (Hc : (fst c < cols)%nat /\ (snd c < rows)%nat) by (apply Hin; left; reflexivity).
    assert (Hd1 : grid_dims rows cols (write_cell w g c)).
    { unfold write_cell. destruct (w (fst c) (snd c)); [|exact Hd].
      apply set_cell_dims; [exact Hd | apply Hc]. }
    destruct (IH (fun c' H => Hin c' (or_intror H)) (write_cell w g c) Hd1) as [Hd' Hget].
    split; [exact Hd'|]. intros i j. rewrite Hget.
    destruct (w i j) as [v |] eqn:Ew.
    + destruct (existsb (fun c0 => Nat.eqb (fst c0) i && Nat.eqb (snd c0) j) cells);
        [rewrite orb_true_r; reflexivity|].
      rewrite orb_false_r. unfold write_cell.
      destruct (Nat.eqb_spec (fst c) i) as [Hi | Hi]; simpl.
      * destruct (Nat.eqb_spec (snd c) j) as [Hj | Hj].
        -- rewrite Hi, Hj, Ew. rewrite (get_set_cell rows cols) by (subst; tauto).
           rewrite !Nat.eqb_refl. reflexivity.
        -- destruct (w (fst c) (snd c)); [|reflexivity].
           rewrite (get_set_cell rows cols) by tauto.
           destruct (Nat.eqb_spec j (snd c)); [congruence | reflexivity].
      * destruct (w (fst c) (snd c)); [|reflexivity].
        rewrite (get_set_cell rows cols) by tauto.
        destruct (Nat.eqb_spec i (fst c)); [congruence|]. rewrite andb_false_r. reflexivity.
    + unfold write_cell. destruct (w (fst c) (snd c)) as [v |] eqn:Ec; [|reflexivity].
      rewrite (get_set_cell rows cols) by tauto.
      destruct (Nat.eqb_spec j (snd c)) as [Hj | Hj]; [|reflexivity].
      destruct (Nat.eqb_spec i (fst c)) as [Hi | Hi]; [|reflexivity].
      subst. congruence.
Qed.

(** *** The mask of a cell *)

Lemma Qlt_bool_iff (a b : Q) : Qlt_bool a b = true <-> a < b.
Proof.
  unfold Qlt_bool. rewrite negb_true_iff. split.
  - intros H. apply Qnot_le_lt. intros Hle. apply Qle_bool_iff in Hle. congruence.
  - intros H. destruct (Qle_bool b a) eqn:E; [|reflexivity].
    apply Qle_bool_iff in E. exfalso. apply (Qlt_not_le _ _ H E).
Qed.

Lemma in_cell_b_iff (rx ry b x y : Q) : in_cell_b rx ry b x y = true <-> in_cell rx ry b x y.
Proof.
  unfold in_cell_b, in_cell. rewrite !andb_true_iff, !Qle_bool_iff, !Qlt_bool_iff. tauto.
Qed.

Lemma cell_mask_length (coords_x coords_y : list Q) (rx ry b : Q) :
  length coords_y = length coords_x ->
  length (cell_mask coords_x coords_y rx ry b) = length coords_x.
Proof.
  unfold cell_mask. revert coords_y.
  induction coords_x as [| x xs IH]; intros [| y ys] H; simpl in *; try discriminate;
    [reflexivity|].
  rewrite IH by lia. reflexivity.
Qed.

Lemma mask_sum_select {A : Type} (mask : list bool) (a : list A) :
  length mask = length a -> mask_sum mask = length (select mask a).
Proof.
  unfold mask_sum. revert a. induction mask as [| b m IH]; intros [| x a] H; simpl in *;
    try discriminate; [reflexivity|].
  destruct b; simpl; rewrite (IH a) by lia; reflexivity.
Qed.

Lemma cell_write_mean (coords_x coords_y : list Q) (metrics : list f64) (b : Q)
    (range_x range_y : list Q) (i j : nat) :
  length coords_y = length coords_x -> length metrics = length coords_x ->
  match cell_write coords_x coords_y metrics b range_x range_y i j with
  | Some v => v
  | None => NaN
  end
  = cell_mean (select (cell_mask coords_x coords_y (nth i range_x 0) (nth j range_y 0) b)
                 metrics).
Proof.
  intros Hy Hm. unfold cell_write.
  rewrite (mask_sum_select _ metrics) by (rewrite cell_mask_length; lia).
  destruct (select _ metrics) as [| v vs]; reflexivity.
Qed.

(** *** The ranges *)

Lemma np_arange_pos (start stop step : Q) :
  0 < step ->
  np_arange start stop step
  = inr (map (arange_elt start step) (seq 0 (arange_len start stop step))).
Proof.
  intros H. unfold np_arange.
  destruct (Qeq_bool step 0) eqn:E; [|reflexivity].
  apply Qeq_bool_iff in E. Lqa.lra.
Qed.

Lemma nth_arange (start step : Q) (n i : nat) :
  (i < n)%nat -> nth i (map (arange_elt start step) (seq 0 n)) 0 = arange_elt start step i.
Proof.
  intros H. rewrite (nth_indep _ 0 (arange_elt start step 0))
    by (rewrite length_map, length_seq; exact H).
  rewrite map_nth, seq_nth by exact H. reflexivity.
Qed.

Lemma arange64_nonzero (start stop step : Q) :
  ~ step == 0 -> exists r, arange64 start stop step = inr r.
Proof.
  intros H. unfold arange64. destruct (Qeq_bool step 0) eqn:E; [|eauto].
  apply Qeq_bool_iff in E. contradiction.
Qed.

Lemma Qmin_list_le (d : Q) (l : list Q) :
  Qmin_list d l <= d /\ forall x, In x l -> Qmin_list d l <= x.
Proof.
  revert d. induction l as [| y l IH]; intros d; simpl.
  - split; [Lqa.lra | intros x []].
  - destruct (Qlt_bool y d) eqn:E.
    + apply Qlt_bool_iff in E. destruct (IH y) as [H1 H2]. split; [Lqa.lra|].
      intros x [-> | Hx]; [exact H1 | apply H2, Hx].
    + assert (Hd : d <= y).
      { destruct (Qlt_le_dec y d) as [H | H]; [|exact H].
        apply Qlt_bool_iff in H. congruence. }
      destruct (IH d) as [H1 H2]. split; [exact H1|].
      intros x [<- | Hx]; [Lqa.lra | apply H2, Hx].
Qed.

Lemma Qmax_list_ge (d : Q) (l : list Q) :
  d <= Qmax_list d l /\ forall x, In x l -> x <= Qmax_list d l.
Proof.
  revert d. induction l as [| y l IH]; intros d; simpl.
  - split; [Lqa.lra | intros x []].
  - destruct (Qlt_bool d y) eqn:E.
    + apply Qlt_bool_iff in E. destruct (IH y) as [H1 H2]. split; [Lqa.lra|].
      intros x [-> | Hx]; [exact H1 | apply H2, Hx].
    + assert (Hd : y <= d).
      { destruct (Qlt_le_dec d y) as [H | H]; [|exact H].
        apply Qlt_bool_iff in H. congruence. }
      destruct (IH d) as [H1 H2]. split; [exact H1|].
      intros x [<- | Hx]; [Lqa.lra | apply H2, Hx].
Qed.

Lemma np_min_max_bounds (a : list Q) :
  a <> [] ->
  exists lo hi, np_min a = inr lo /\ np_max a = inr hi
                /\ forall x, In x a -> lo <= x /\ x <= hi.
Proof.
  intros H. destruct a as [| x0 t]; [congruence|].
  exists (Qmin_list x0 t), (Qmax_list x0 t). split; [reflexivity|]. split; [reflexivity|].
  destruct (Qmin_list_le x0 t) as [H1 H2]. destruct (Qmax_list_ge x0 t) as [H3 H4].
  intros x [<- | Hx]; split; auto.
Qed.

(** *** The cells the loops visit *)

Lemma fold_left_ext_in {S C : Type} (f f' : S -> C -> S) (l : list C) (g : S) :
  (forall c, In c l -> forall g0, f g0 c = f' g0 c) ->
  fold_left f l g = fold_left f' l g.
Proof.
  revert g. induction l as [| c l IH]; intros g H; simpl; [reflexivity|].
  rewrite (H c) by (left; reflexivity). apply IH. intros c' Hc'. apply H. right. exact Hc'.
Qed.

Lemma nth_map2 {A B C : Type} (f : A -> B -> C) (a : list A) (b : list B)
    (da : A) (db : B) (dc : C) (k : nat) :
  (k < length a)%nat -> (k < length b)%nat ->
  nth k (map2 f a b) dc = f (nth k a da) (nth k b db).
Proof.
  revert b k. induction a as [| x a IH]; intros [| y b] [| k] Ha Hb; simpl in *;
    try lia; [reflexivity|]. apply IH; lia.
Qed.

Lemma in_cells (nx ny i j : nat) :
  (i < nx)%nat -> (j < ny)%nat ->
  existsb (fun c => Nat.eqb (fst c) i && Nat.eqb (snd c) j)
    (flat_map (fun i0 => map (pair i0) (seq 0 ny)) (seq 0 nx)) = true.
Proof.
  intros Hi Hj. apply existsb_exists. exists (i, j). simpl.
  rewrite !Nat.eqb_refl. split; [|reflexivity].
  apply in_flat_map. exists i. split; [apply in_seq; lia|].
  apply in_map, in_seq. lia.
Qed.

Lemma cells_in_range (nx ny : nat) (c : nat * nat) :
  In c (flat_map (fun i0 => map (pair i0) (seq 0 ny)) (seq 0 nx)) ->
  (fst c < nx)%nat /\ (snd c < ny)%nat.
Proof.
  intros H. apply in_flat_map in H. destruct H as [i [Hi Hc]].
  apply in_map_iff in Hc. destruct Hc as [j [<- Hj]].
  apply in_seq in Hi. apply in_seq in Hj. simpl. lia.
Qed.

(** What the two loops leave in the grid: every cell holds the mean of the
    values at which its mask holds, not-a-number when the mask holds
    nowhere. *)
Lemma construct_metrics_map_grid (coords_x coords_y : list Q) (metrics : list f64)
    (bin_size : Q) :
  ~ bin_size == 0 -> coords_x <> [] ->
  length coords_y = length coords_x -> length metrics = length coords_x ->
  exists xmin xmax ymin ymax range_x range_y grid,
    np_min coords_x = inr xmin /\ np_max coords_x = inr xmax
    /\ np_min coords_y = inr ymin /\ np_max coords_y = inr ymax
    /\ arange64 xmin (f64_add xmax bin_size) bin_size = inr range_x
    /\ arange64 ymin (f64_add ymax bin_size) bin_size = inr range_y
    /\ construct_metrics_map coords_x coords_y metrics bin_size = inr grid
    /\ grid_dims (length range_y) (length range_x) grid
    /\ forall i j, (i < length range_x)%nat -> (j < length range_y)%nat ->
         get_cell j i grid
         = cell_mean (select (cell_mask coords_x coords_y (nth i range_x 0)
                                (nth j range_y 0) bin_size) metrics).
Proof.
  intros Hb Hne Hy Hm.
  assert (Hney : coords_y <> []) by (destruct coords_y, coords_x; simpl in *; congruence).
  destruct (np_min_max_bounds coords_x Hne) as [xmin [xmax [Hxmin [Hxmax _]]]].
  destruct (np_min_max_bounds coords_y Hney) as [ymin [ymax [Hymin [Hymax _]]]].
  destruct (arange64_nonzero xmin (f64_add xmax bin_size) bin_size Hb) as [range_x Hrx].
  destruct (arange64_nonzero ymin (f64_add ymax bin_size) bin_size Hb) as [range_y Hry].
  exists xmin, xmax, ymin, ymax, range_x, range_y.
  set (nx := length range_x). set (ny := length range_y).
  set (w := cell_write coords_x coords_y metrics bin_size range_x range_y).
  set (cells := flat_map (fun i0 => map (pair i0) (seq 0 ny)) (seq 0 nx)).
  exists (fold_left (write_cell w) cells (np_full_nan ny nx)).
  split; [exact Hxmin|]. split; [exact Hxmax|]. split; [exact Hymin|]. split; [exact Hymax|].
  split; [exact Hrx|]. split; [exact Hry|].
  destruct (write_cells_spec w ny nx cells (cells_in_range nx ny)
              (np_full_nan ny nx) (full_nan_dims ny nx)) as [Hd Hget].
  split; [|split; [exact Hd|]].
  - unfold construct_metrics_map. rewrite Hxmin, Hxmax, Hymin, Hymax. cbn [bind].
    rewrite Hrx. cbn [bind]. rewrite Hry. cbn [bind]. fold nx ny. f_equal.
    rewrite (nested_fold_flat
               (fun i j g => cell_step coords_x coords_y metrics bin_size range_x range_y i j g)).
    fold cells. apply fold_left_ext_in. intros c Hc g0.
    unfold cell_step, write_cell, w, cell_write.
    destruct (Nat.ltb 0 _); reflexivity.
  - intros i j Hi Hj. rewrite Hget. unfold cells. rewrite in_cells by assumption.
    rewrite get_full_nan. unfold w.
    rewrite <- (cell_write_mean coords_x coords_y metrics bin_size range_x range_y i j Hy Hm).
    destruct (cell_write _ _ _ _ _ _ i j); reflexivity.
Qed.

Lemma cell_mask_pointwise (coords_x coords_y : list Q) (rx ry b : Q) :
  length coords_y = length coords_x ->
  cell_mask coords_x coords_y rx ry b
  = map2 (fun x y => Qle_bool 0 (f64_sub x rx) && Qlt_bool (f64_sub x rx) b
                     && Qle_bool 0 (f64_sub y ry) && Qlt_bool (f64_sub y ry) b)
      coords_x coords_y.
Proof.
  unfold cell_mask. revert coords_y.
  induction coords_x as [| x xs IH]; intros [| y ys] H; simpl in *; try discriminate;
    [reflexivity|].
  rewrite IH by lia. reflexivity.
Qed.

(** C2 (the code departs from the claim).  The grid has one row per step of
    the y range and one column per step of the x range, and a cell holds the
    mean of the values at which its mask holds, not-a-number when it holds
    nowhere.  But the steps of the ranges and the differences the mask tests
    are rounded, so the cells are not the intervals
    [[range[i], range[i] + bin_size)] side by side:
    - with the x coordinates [0, 0.4] and [bin_size = 0.1] the steps are
      [0, 0.1, 0.2, 0.30000000000000004, 0.4]; the sample at [0.4] lies in
      the intervals of the cells 3 and 4 and is counted in both;
    - with the x coordinates [0.6, 1.7, 2.0] and [bin_size = 1.1] the sample
      at [1.7] lies in the interval of cell 0 and the mask holds for it in no
      cell: its value is in no mean. *)
Theorem construct_metrics_map_cells :
  (forall (coords_x coords_y : list Q) (metrics : list f64) (bin_size : Q),
      0 < bin_size -> coords_x <> [] ->
      length coords_y = length coords_x -> length metrics = length coords_x ->
      exists xmin xmax ymin ymax range_x range_y grid,
        np_min coords_x = inr xmin /\ np_max coords_x = inr xmax
        /\ np_min coords_y = inr ymin /\ np_max coords_y = inr ymax
        /\ arange64 xmin (f64_add xmax bin_size) bin_size = inr range_x
        /\ arange64 ymin (f64_add ymax bin_size) bin_size = inr range_y
        /\ construct_metrics_map coords_x coords_y metrics bin_size = inr grid
        /\ grid_dims (length range_y) (length range_x) grid
        /\ forall i j, (i < length range_x)%nat -> (j < length range_y)%nat ->
             let mask := cell_mask coords_x coords_y (nth i range_x 0) (nth j range_y 0)
                           bin_size in
             (forall k, (k < length coords_x)%nat ->
                nth k mask false = true
                <-> (0 <= f64_sub (nth k coords_x 0) (nth i range_x 0)
                     /\ f64_sub (nth k coords_x 0) (nth i range_x 0) < bin_size)
                    /\ (0 <= f64_sub (nth k coords_y 0) (nth j range_y 0)
                        /\ f64_sub (nth k coords_y 0) (nth j range_y 0) < bin_size))
             /\ get_cell j i grid = cell_mean (select mask metrics))
  /\ (let x := fl (4 # 10) in
      let b := fl (1 # 10) in
      let range_x := [0; b; fl (2 # 10); f64_mul 3 b; x] in
      arange64 0 (f64_add x b) b = inr range_x
      /\ construct_metrics_map [0; x] [0; 0] [Fin 1; Fin 2] b
         = inr [[Fin 1; NaN; NaN; Fin 2; Fin 2]]
      /\ in_cell (nth 3 range_x 0) 0 b x 0
      /\ in_cell (nth 4 range_x 0) 0 b x 0)
  /\ (let x := fl (17 # 10) in
      let b := fl (11 # 10) in
      let range_x := [fl (6 # 10); f64_add (fl (6 # 10)) b;
                      f64_add (fl (6 # 10)) (f64_mul 2 b)] in
      arange64 (fl (6 # 10)) (f64_add 2 b) b = inr range_x
      /\ construct_metrics_map [fl (6 # 10); x; 2] [0; 0; 0] [Fin 1; Fin 2; Fin 3] b
         = inr [[Fin 1; Fin 3; NaN]]
      /\ in_cell (nth 0 range_x 0) 0 b x 0
      /\ forall i, (i < 3)%nat ->
           nth 1 (cell_mask [fl (6 # 10); x; 2] [0; 0; 0] (nth i range_x 0) 0 b) false
           = false).
Proof.
  split; [|split].
  - intros coords_x coords_y metrics bin_size Hb Hne Hy Hm.
    assert (Hb0 : ~ bin_size == 0) by (intros E; rewrite E in Hb; discriminate).
    destruct (construct_metrics_map_grid coords_x coords_y metrics bin_size Hb0 Hne Hy Hm)
      as [xmin [xmax [ymin [ymax [range_x [range_y [grid
           [H1 [H2 [H3 [H4 [H5 [H6 [H7 [H8 H9]]]]]]]]]]]]]]].
    exists xmin, xmax, ymin, ymax, range_x, range_y, grid.
    repeat (split; [assumption|]).
    intros i j Hi Hj mask. split; [|apply H9; assumption].
    intros k Hk. unfold mask. rewrite cell_mask_pointwise by exact Hy.
    rewrite (nth_map2 _ _ _ 0 0) by lia.
    rewrite !andb_true_iff, !Qle_bool_iff, !Qlt_bool_iff. tauto.
  - cbv zeta. split; [vm_compute; reflexivity|]. split; [vm_compute; reflexivity|].
    split; apply in_cell_b_iff; vm_compute; reflexivity.
  - cbv zeta. split; [vm_compute; reflexivity|]. split; [vm_compute; reflexivity|].
    split; [apply in_cell_b_iff; vm_compute; reflexivity|].
    intros i Hi. destruct i as [| [| [| i]]]; try lia; vm_compute; reflexivity.
Qed.

End BinGridFacts.

(** The scenario of the specification: two samples on the diagonal of a
    two-by-two grid. *)
Example construct_map_scenario :
  BinGrid.construct_map (MetricsMap.mk [MetricsMap.mk_sample 0 0 (Fin 10);
                                        MetricsMap.mk_sample 1 1 (Fin 30)]) 1
  = inr [[Fin 10; NaN]; [NaN; Fin 30]].
Proof. vm_compute. reflexivity. Qed.

(** The columns are cast to [float32] before the grid is built: two
    coordinates that one float32 stands for share their cell. *)
Example construct_map_float32 :
  BinGrid.construct_map (MetricsMap.mk [MetricsMap.mk_sample 16777216 0 (Fin 1);
                                        MetricsMap.mk_sample 16777217 0 (Fin 2)]) 1
  = inr [[Fin (3 # 2)]].
Proof. vm_compute. reflexivity. Qed.

Lemma construct_metrics_map_cells_witness :
  exists grid,
    BinGrid.construct_metrics_map [0; 1.5; 0.1] [0; 1; 0.2] [Fin 10; Fin 30; Fin 5] 1
    = inr grid
    /\ grid_dims 2 3 grid.
Proof.
  destruct construct_metrics_map_cells as [H _].
  destruct (H [0; 1.5; 0.1] [0; 1; 0.2] [Fin 10; Fin 30; Fin 5] 1)
    as [xmin [xmax [ymin [ymax [range_x [range_y [grid
         [H1 [H2 [H3 [H4 [H5 [H6 [H7 [H8 H9]]]]]]]]]]]]]]];
    [ reflexivity | discriminate | reflexivity | reflexivity | ].
  exists grid. split; [exact H7|].
  vm_compute in H1. vm_compute in H2. vm_compute in H3. vm_compute in H4.
  inversion H1; inversion H2; inversion H3; inversion H4; subst.
  vm_compute in H5. vm_compute in H6. inversion H5; inversion H6; subst.
  exact H8.
Defined.

(** ** The AVO summary: what an unknown selector does *)

Section AvoPlotFacts.

Import Avo AvoPlot.

Variable np_polyfit : list Q -> list f64 -> Z -> exn + list f64.
Variable np_polyval : list f64 -> list Q -> list f64.
Variable np_corrcoef01 : list f64 -> list f64 -> f64.
Variable np_mean_nanstd : matrix -> f64.

Let run := avo_plot np_polyfit np_polyval np_corrcoef01 np_mean_nanstd.

(** An [avg_method] that is neither ['mean'] nor a callable raises. *)
Lemma avo_plot_invalid_avg_raises :
  forall data bin_size approx_degree stats avg_method,
    invalid_avg avg_method = true ->
    run data bin_size avg_method approx_degree stats = inl ValueError.
Proof.
  intros data bin_size deg stats avg H. unfold run, avo_plot.
  destruct avg as [s | f |]; simpl in *.
  - destruct (String.eqb s "mean"); [discriminate | reflexivity].
  - discriminate.
  - reflexivity.
Qed.

Lemma stat_step_invalid :
  forall nan_rows av ap acc stat,
    invalid_stat stat = true ->
    stat_step np_corrcoef01 np_mean_nanstd nan_rows av ap acc stat = acc.
Proof.
  intros nan_rows av ap [vals names] stat H. destruct stat as [s | f |]; simpl in *.
  - destruct (String.eqb s "std"); [discriminate|].
    destruct (String.eqb s "corr"); [discriminate | reflexivity].
  - discriminate.
  - reflexivity.
Qed.

Lemma fold_stat_step_filter :
  forall nan_rows av ap l acc,
    fold_left (stat_step np_corrcoef01 np_mean_nanstd nan_rows av ap) l acc
    = fold_left (stat_step np_corrcoef01 np_mean_nanstd nan_rows av ap)
        (filter (fun s => negb (invalid_stat s)) l) acc.
Proof.
  intros nan_rows av ap l. induction l as [| s l IH]; intros acc; simpl.
  - reflexivity.
  - destruct (invalid_stat s) eqn:E; simpl.
    + rewrite stat_step_invalid by assumption. apply IH.
    + apply IH.
Qed.

(** C8 (the code departs from the claim).  An [avg_method] that is neither
    ['mean'] nor a callable raises [ValueError].  An entry of [stats] that is
    neither ['std'], ['corr'] nor a callable raises nothing: the call gives
    what it gives with the entry removed from the list, and with the one
    entry [stats = [object]] what it gives with the empty list, a summary
    without statistics whenever the fit succeeds. *)
Theorem avo_plot_invalid_stat_ignored :
  forall data bin_size approx_degree,
    (forall avg_method stats,
        invalid_avg avg_method = true ->
        run data bin_size avg_method approx_degree stats = inl ValueError)
    /\ (forall avg_method l,
          run data bin_size avg_method approx_degree (StatsList l)
          = run data bin_size avg_method approx_degree
              (StatsList (filter (fun s => negb (invalid_stat s)) l)))
    /\ (forall avg_method,
          run data bin_size avg_method approx_degree (StatsList [StatOther])
          = run data bin_size avg_method approx_degree (StatsList []))
    /\ (forall avg_method s,
          run data bin_size avg_method approx_degree (StatsList [StatOther]) = inr s ->
          stats_val s = [] /\ stats_names s = []).
Proof.
  intros data bin_size deg.
  assert (Hgen : forall avg l,
             run data bin_size avg deg (StatsList l)
             = run data bin_size avg deg
                 (StatsList (filter (fun s => negb (invalid_stat s)) l))).
  { intros avg l. unfold run, avo_plot.
    destruct (resolve_avg avg) as [e | f]; simpl; [reflexivity|].
    destruct bin_size as [| b | x]; simpl;
      try (destruct (Nat.eqb (length x) 1); simpl; [|reflexivity]);
      (match goal with |- context [np_polyfit ?a ?b ?c] => destruct (np_polyfit a b c) end;
       simpl; [reflexivity|]);
      rewrite fold_stat_step_filter; reflexivity. }
  split; [intros avg stats H; apply avo_plot_invalid_avg_raises; exact H|].
  split; [exact Hgen|]. split.
  - intros avg. apply (Hgen avg [StatOther]).
  - intros avg s Hs. unfold run, avo_plot in Hs.
    destruct (resolve_avg avg) as [e | f]; simpl in Hs; [discriminate|].
    destruct bin_size as [| b | x]; simpl in Hs;
      try (destruct (Nat.eqb (length x) 1); simpl in Hs; [|discriminate]);
      (match type of Hs with context [np_polyfit ?a ?b ?c] => destruct (np_polyfit a b c) end;
       simpl in Hs; [discriminate|]);
      inversion Hs; simpl; split; reflexivity.
Qed.

End AvoPlotFacts.

(** ** The comparison table of [std_plot] *)

Section StdPlotFacts.

Import StdPlot.

Lemma map2_cons_map {A : Type} (f : nat -> A) (h : nat -> list A) (ix : list nat) :
  map2 cons (map f ix) (map h ix) = map (fun i => f i :: h i) ix.
Proof. induction ix as [| i ix IH]; simpl; [reflexivity|]. rewrite IH. reflexivity. Qed.

Lemma transpose_columns (m : list (list Q)) :
  m <> [] -> rectangular m ->
  AvoPlot.transpose m = map (fun i => column i m) (seq 0 (length (hd [] m))).
Proof.
  intros Hne Hrect. unfold rectangular in Hrect.
  remember (length (hd [] m)) as n eqn:Hn. clear Hn.
  induction m as [| r t IH]; [congruence|].
  inversion Hrect as [| ? ? Hr Ht]; subst.
  destruct t as [| r' t'].
  - simpl. unfold column. simpl.
    rewrite <- (map_nth_seq 0 r) at 1.
    rewrite map_map. reflexivity.
  - change (AvoPlot.transpose (r :: r' :: t')) with (map2 cons r (AvoPlot.transpose (r' :: t'))).
    rewrite IH by (assumption || discriminate).
    rewrite <- (map_nth_seq 0 r) at 1.
    rewrite map2_cons_map. reflexivity.
Qed.

Lemma map2_concat_repeat {A B C : Type} (g : A -> B -> C) (f : nat -> list A)
    (off : nat -> B) (k : nat) (ix : list nat) :
  (forall i, In i ix -> length (f i) = k) ->
  map2 g (concat (map f ix)) (np_repeat (map off ix) k)
  = flat_map (fun i => map (fun v => g v (off i)) (f i)) ix.
Proof.
  intros H. induction ix as [| i ix IH]; simpl; [reflexivity|].
  rewrite map2_app.
  - rewrite IH by (intros; apply H; right; assumption).
    rewrite <- (H i (or_introl eq_refl)). rewrite map2_repeat. reflexivity.
  - rewrite repeat_length. apply H. left. reflexivity.
Qed.

Lemma take_map_seq {A : Type} (d : A) (f : nat -> A) (n : nat) (ix : list nat) :
  (forall i, In i ix -> (i < n)%nat) ->
  take d (map f (seq 0 n)) ix = map f ix.
Proof.
  intros H. unfold take. apply map_ext_in. intros i Hi.
  rewrite (nth_indep _ d (f 0%nat)) by (rewrite length_map, length_seq; auto).
  rewrite map_nth. rewrite seq_nth by auto. reflexivity.
Qed.

Lemma select_map_map {A B : Type} (p : A -> bool) (h : A -> B) (l : list A) :
  select (map p l) (map h l) = map h (filter p l).
Proof.
  induction l as [| x l IH]; simpl; [reflexivity|].
  destruct (p x); simpl; rewrite IH; reflexivity.
Qed.

Lemma select_concat_flat_map {A B : Type} (p : A -> bool) (f : nat -> list A)
    (h : nat -> A -> B) (ix : list nat) :
  select (map p (concat (map f ix))) (flat_map (fun i => map (h i) (f i)) ix)
  = flat_map (fun i => map (h i) (filter p (f i))) ix.
Proof.
  induction ix as [| i ix IH]; simpl; [reflexivity|].
  rewrite map_app, select_app by (rewrite !length_map; reflexivity).
  rewrite IH, select_map_map. reflexivity.
Qed.

Lemma length_concat_const {A : Type} (f : nat -> list A) (k : nat) (ix : list nat) :
  (forall i, In i ix -> length (f i) = k) ->
  length (concat (map f ix)) = (length ix * k)%nat.
Proof.
  intros H. induction ix as [| i ix IH]; simpl; [reflexivity|].
  rewrite length_app, IH by (intros; apply H; right; assumption).
  rewrite (H i) by (left; reflexivity). reflexivity.
Qed.

Lemma length_np_repeat {A : Type} (a : list A) (k : nat) :
  length (np_repeat a k) = (length a * k)%nat.
Proof.
  unfold np_repeat. induction a as [| x a IH]; simpl; [reflexivity|].
  rewrite length_app, repeat_length, IH. reflexivity.
Qed.

Lemma series_rows_refines (results : list (list Q)) (bin_size : Z) (nm : string) :
  rectangular results ->
  series_rows results bin_size nm = series_rows_spec results bin_size nm.
Proof.
  intros Hrect. destruct results as [| r0 rest] eqn:E; [reflexivity|]. rewrite <- E in *.
  assert (Hne : results <> []) by (subst; discriminate).
  unfold series_rows, series_rows_spec.
  rewrite (transpose_columns results Hne Hrect).
  set (n := length (hd [] results)).
  set (col := fun i => column i results).
  set (p := fun i => Qnonzero (Qsum (col i))).
  set (off := fun i => inject_Z (Z.of_nat i * bin_size)).
  rewrite map_map.
  unfold nonzero. rewrite (nonzero_from_seq p).
  set (ix := filter p (seq 0 n)).
  assert (Hix : forall i, In i ix -> (i < n)%nat).
  { intros i Hi. apply filter_In in Hi. destruct Hi as [Hi _].
    apply in_seq in Hi. lia. }
  rewrite (take_map_seq [] col n ix Hix).
  set (k := length (hd [] (map col (seq 0 n)))).
  assert (Hk : forall i, In i ix -> length (col i) = k).
  { intros i Hi. specialize (Hix i Hi). unfold k. destruct n as [| n']; [lia|].
    simpl. unfold col, column. rewrite !length_map. reflexivity. }
  fold (nonzero (map Qnonzero (concat (map col ix)))).
  rewrite !take_nonzero.
  - rewrite select_map2. rewrite (map2_concat_repeat _ col off k ix Hk).
    rewrite (select_concat_flat_map Qnonzero col
               (fun i v => {| val := v; indices := off i; name := nm |}) ix).
    unfold ix. rewrite flat_map_filter_seq. reflexivity.
  - rewrite length_map, length_np_repeat, length_map.
    apply length_concat_const. assumption.
  - rewrite length_map. reflexivity.
Qed.

(** C10.  The rows a distribution adds to the table are, bin by bin in
    increasing order: nothing for a bin whose values over the gathers sum to
    zero, and for any other bin its non-zero values at the bin's offset.  So
    a bin whose non-zero values cancel is left out whole (here [1] and [-1]),
    and a kept bin loses its zero cells. *)
Theorem series_rows_retention (avo_results : list (list (list Q))) (bin_size : Z)
    (names : option (list string)) :
  Forall rectangular avo_results ->
  (forall results nm, In results avo_results ->
      series_rows results bin_size nm = series_rows_spec results bin_size nm)
  /\ build_table avo_results bin_size names
     = concat (map2 (fun results nm => series_rows_spec results bin_size nm)
                    avo_results
                    (match names with
                     | None => default_names (length avo_results)
                     | Some l => l
                     end))
  /\ series_rows [[1; 2; 0]; [-1; 3; 0]] bin_size "0"
     = [mk_row 2 (inject_Z (1 * bin_size)) "0"; mk_row 3 (inject_Z (1 * bin_size)) "0"].
Proof.
  intros Hrect. split; [|split].
  - intros results nm Hin. apply series_rows_refines.
    rewrite Forall_forall in Hrect. apply Hrect, Hin.
  - unfold build_table. f_equal.
    generalize (match names with
                | None => default_names (length avo_results)
                | Some l => l
                end) as nms.
    induction Hrect as [| results rest Hr Hrest IH]; intros nms; [reflexivity|].
    destruct nms as [| nm nms]; simpl; [reflexivity|].
    rewrite series_rows_refines by assumption. rewrite IH. reflexivity.
  - rewrite series_rows_refines by (repeat constructor).
    unfold series_rows_spec. simpl. reflexivity.
Qed.

Lemma series_rows_retention_witness :
  let avo := [[[1; 2; 0]; [-1; 3; 0]]; [[5; 5; 5]; [7; 0; 9]]] in
  (forall results nm, In results avo ->
      series_rows results 10 nm = series_rows_spec results 10 nm)
  /\ build_table avo 10 None
     = concat (map2 (fun results nm => series_rows_spec results 10 nm)
                    avo (default_names (length avo)))
  /\ series_rows [[1; 2; 0]; [-1; 3; 0]] 10 "0"
     = [mk_row 2 (inject_Z (1 * 10)) "0"; mk_row 3 (inject_Z (1 * 10)) "0"].
Proof.
  apply (series_rows_retention [[[1; 2; 0]; [-1; 3; 0]]; [[5; 5; 5]; [7; 0; 9]]] 10 None).
  repeat constructor.
Defined.

Lemma Qsum_app (a b : list Q) : Qsum (a ++ b) == Qsum a + Qsum b.
Proof.
  induction a as [| x a IH]; simpl; [ring|]. rewrite IH. ring.
Qed.

Lemma Qsum_map_ext {A : Type} (f g : A -> Q) (l : list A) :
  (forall x, In x l -> f x == g x) -> Qsum (map f l) == Qsum (map g l).
Proof.
  intros H. induction l as [| x l IH]; simpl; [reflexivity|].
  rewrite (H x) by (left; reflexivity). rewrite IH by (intros; apply H; right; assumption).
  reflexivity.
Qed.

Lemma Qsum_map_plus {A : Type} (f g : A -> Q) (l : list A) :
  Qsum (map (fun x => f x + g x) l) == Qsum (map f l) + Qsum (map g l).
Proof.
  induction l as [| x l IH]; simpl; [ring|]. rewrite IH. ring.
Qed.

Lemma Qsum_map_opp {A : Type} (f : A -> Q) (l : list A) :
  Qsum (map (fun x => - f x) l) == - Qsum (map f l).
Proof.
  induction l as [| x l IH]; simpl; [ring|]. rewrite IH. ring.
Qed.

Lemma Qsum_map_const {A : Type} (c : Q) (l : list A) :
  Qsum (map (fun _ => c) l) == inject_Z (Z.of_nat (length l)) * c.
Proof.
  induction l as [| x l IH]; [simpl; ring|].
  change (Qsum (map (fun _ => c) (x :: l))) with (c + Qsum (map (fun _ => c) l)).
  rewrite IH. change (length (x :: l)) with (S (length l)).
  rewrite Nat2Z.inj_succ. unfold Z.succ. rewrite inject_Z_plus. ring.
Qed.

Lemma length_pos_Q {A : Type} (l : list A) :
  l <> [] -> 0 < inject_Z (Z.of_nat (length l)).
Proof.
  intros H. destruct l as [| x l]; [congruence|].
  change 0 with (inject_Z 0). rewrite <- Zlt_Qlt. simpl. lia.
Qed.

(** The mean of values all shifted by [c] is the mean shifted by [c]. *)
Lemma Qmean_shift (c : Q) (l : list Q) :
  l <> [] -> Qmean (map (fun v => v + c) l) == Qmean l + c.
Proof.
  intros H. unfold Qmean. rewrite length_map.
  rewrite <- (map_id l) at 1. rewrite map_map.
  rewrite (Qsum_map_plus (fun v => v) (fun _ => c)), Qsum_map_const, map_id.
  pose proof (length_pos_Q l H) as Hp. field. Lqa.lra.
Qed.

(** Summing by groups: the keys [ks] are distinct and every row has one. *)
Lemma Qsum_indicator (c : Q) (k : string) (ks : list string) :
  NoDup ks -> In k ks ->
  Qsum (map (fun k' => if String.eqb k k' then c else 0) ks) == c.
Proof.
  intros Hnd Hin. induction ks as [| k0 ks IH]; [contradiction|].
  inversion Hnd as [| ? ? Hnot Hnd']; subst. simpl.
  destruct (String.eqb k k0) eqn:E.
  - apply String.eqb_eq in E. subst k0.
    rewrite (Qsum_map_ext _ (fun _ => 0)).
    + rewrite Qsum_map_const. ring.
    + intros k' Hk'. destruct (String.eqb k k') eqn:E'; [|reflexivity].
      apply String.eqb_eq in E'. subst. contradiction.
  - apply String.eqb_neq in E. destruct Hin as [Hin | Hin]; [congruence|].
    rewrite IH by assumption. ring.
Qed.

Lemma Qsum_by_groups (g : row -> Q) (ks : list string) (l : list row) :
  NoDup ks -> (forall r, In r l -> In (name r) ks) ->
  Qsum (map g l)
  == Qsum (map (fun k => Qsum (map g (filter (fun r => String.eqb (name r) k) l))) ks).
Proof.
  intros Hnd. induction l as [| r l IH]; intros Hcov.
  - simpl. rewrite (Qsum_map_const 0). ring.
  - simpl.
    rewrite (Qsum_map_ext _
               (fun k => (if String.eqb (name r) k then g r else 0)
                         + Qsum (map g (filter (fun r0 => String.eqb (name r0) k) l)))).
    + rewrite Qsum_map_plus, Qsum_indicator by (auto; apply Hcov; left; reflexivity).
      rewrite <- IH by (intros; apply Hcov; right; assumption). reflexivity.
    + intros k _. destruct (String.eqb (name r) k); simpl; ring.
Qed.

(** *** The alignment loop *)

Lemma loc_assign_map (mask : row -> bool) (g : Q -> Q) (F : row -> row) (l : list row) :
  (forall r, mask (F r) = mask r) ->
  (forall r, indices (F r) = indices r /\ name (F r) = name r) ->
  loc_assign mask (map g (map val (filter mask l))) (map F l)
  = map (fun r => if mask r then mk_row (g (val r)) (indices r) (name r) else F r) l.
Proof.
  intros Hmask Hkeep. induction l as [| r l IH]; simpl; [reflexivity|].
  rewrite Hmask. destruct (mask r) eqn:E; simpl.
  - destruct (Hkeep r) as [-> ->]. rewrite IH. reflexivity.
  - rewrite IH. reflexivity.
Qed.

Lemma partly_shifted_keeps (tbl : list row) (done : list string) (r : row) :
  indices (partly_shifted tbl done r) = indices r
  /\ name (partly_shifted tbl done r) = name r.
Proof.
  unfold partly_shifted. destruct (existsb _ done); simpl; split; reflexivity.
Qed.

Lemma align_step_partly (tbl : list row) (done : list string) (nm : string) :
  ~ In nm done ->
  align_step (Qmean (map val tbl)) tbl (map (partly_shifted tbl done) tbl) nm
  = map (partly_shifted tbl (done ++ [nm])) tbl.
Proof.
  intros Hnot. unfold align_step.
  rewrite (loc_assign_map (fun r => String.eqb (name r) nm)
             (fun v => v + (Qmean (map val tbl)
                            - Qmean (map val (filter (fun r => String.eqb (name r) nm) tbl))))
             (partly_shifted tbl done) tbl).
  - apply map_ext. intros r. unfold partly_shifted.
    rewrite existsb_app. simpl. rewrite orb_false_r.
    destruct (String.eqb (name r) nm) eqn:E.
    + rewrite orb_true_r. apply String.eqb_eq in E.
      unfold shift_row, shift_of, group_vals. rewrite E. reflexivity.
    + rewrite orb_false_r. reflexivity.
  - intros r. destruct (partly_shifted_keeps tbl done r) as [_ ->]. reflexivity.
  - intros r. apply partly_shifted_keeps.
Qed.

Lemma align_fold (tbl : list row) (ks done : list string) :
  NoDup (done ++ ks) ->
  fold_left (align_step (Qmean (map val tbl)) tbl) ks (map (partly_shifted tbl done) tbl)
  = map (partly_shifted tbl (done ++ ks)) tbl.
Proof.
  revert done. induction ks as [| k ks IH]; intros done Hnd; simpl.
  - rewrite app_nil_r. reflexivity.
  - rewrite align_step_partly.
    + replace (done ++ k :: ks) with ((done ++ [k]) ++ ks)
        by (rewrite <- app_assoc; reflexivity).
      apply IH. rewrite <- app_assoc. exact Hnd.
    + apply NoDup_remove_2 in Hnd. intros Hin. apply Hnd. apply in_or_app. left. exact Hin.
Qed.

Lemma group_keys_perm (tbl : list row) :
  Permutation (group_keys tbl) (nodup string_dec (map name tbl)).
Proof. apply np_sort_perm. Qed.

Lemma group_keys_NoDup (tbl : list row) : NoDup (group_keys tbl).
Proof.
  eapply Permutation_NoDup; [apply Permutation_sym, group_keys_perm | apply NoDup_nodup].
Qed.

Lemma group_keys_In (tbl : list row) (nm : string) :
  In nm (group_keys tbl) <-> In nm (map name tbl).
Proof.
  rewrite <- (nodup_In string_dec (map name tbl)). split; apply Permutation_in.
  - apply group_keys_perm.
  - apply Permutation_sym, group_keys_perm.
Qed.

(** The loop shifts every distribution by its own constant. *)
Lemma align_is_shifted (tbl : list row) : align tbl = shifted tbl.
Proof.
  unfold align.
  assert (E : map (partly_shifted tbl []) tbl = tbl)
    by (unfold partly_shifted; simpl; apply map_id).
  transitivity (fold_left (align_step (Qmean (map val tbl)) tbl) (group_keys tbl)
                  (map (partly_shifted tbl []) tbl)).
  { rewrite E. reflexivity. }
  rewrite align_fold by (simpl; apply group_keys_NoDup).
  unfold shifted. apply map_ext_in. intros r Hr. unfold partly_shifted. simpl.
  assert (H : existsb (String.eqb (name r)) (group_keys tbl) = true).
  { apply existsb_exists. exists (name r). split; [|apply String.eqb_refl].
    apply group_keys_In. apply in_map. exact Hr. }
  rewrite H. reflexivity.
Qed.

Lemma group_vals_shifted (c : string -> Q) (nm : string) (tbl : list row) :
  group_vals nm (map (shift_row c) tbl) = map (fun v => v + c nm) (group_vals nm tbl).
Proof.
  unfold group_vals. induction tbl as [| r tbl IH]; simpl; [reflexivity|].
  destruct (String.eqb (name r) nm) eqn:E; simpl; rewrite IH; [|reflexivity].
  apply String.eqb_eq in E. rewrite E. reflexivity.
Qed.

Lemma group_vals_nonempty (nm : string) (tbl : list row) :
  In nm (map name tbl) -> group_vals nm tbl <> [].
Proof.
  intros Hin. apply in_map_iff in Hin. destruct Hin as [r [Hn Hr]].
  unfold group_vals. intros Hnil. apply map_eq_nil in Hnil.
  assert (Hin : In r (filter (fun r0 => String.eqb (name r0) nm) tbl)).
  { apply filter_In. split; [assumption|]. apply String.eqb_eq. assumption. }
  rewrite Hnil in Hin. contradiction.
Qed.

(** The shifts of all the rows cancel. *)
Lemma shifts_cancel (tbl : list row) :
  tbl <> [] -> Qsum (map (fun r => shift_of tbl (name r)) tbl) == 0.
Proof.
  intros Hne.
  assert (Hgrp : Qsum (map (fun r => Qmean (group_vals (name r) tbl)) tbl)
                 == Qsum (map val tbl)).
  { rewrite (Qsum_by_groups _ (group_keys tbl) tbl (group_keys_NoDup tbl)),
            (Qsum_by_groups val (group_keys tbl) tbl (group_keys_NoDup tbl));
      try (intros r Hr; apply group_keys_In, in_map, Hr).
    apply Qsum_map_ext. intros k Hk.
    rewrite (Qsum_map_ext _ (fun _ => Qmean (group_vals k tbl))).
    - rewrite Qsum_map_const. unfold Qmean, group_vals. rewrite length_map.
      apply group_keys_In in Hk. apply group_vals_nonempty in Hk.
      unfold group_vals in Hk.
      assert (Hne' : filter (fun r => String.eqb (name r) k) tbl <> [])
        by (intros H0; apply Hk; rewrite H0; reflexivity).
      pose proof (length_pos_Q _ Hne') as Hp. field. Lqa.lra.
    - intros r Hr. apply filter_In in Hr. destruct Hr as [_ Hr].
      apply String.eqb_eq in Hr. rewrite Hr. reflexivity. }
  unfold shift_of.
  rewrite (Qsum_map_ext _ (fun r => Qmean (map val tbl)
                                    + - Qmean (group_vals (name r) tbl)))
    by (intros; ring).
  rewrite (Qsum_map_plus (fun _ => Qmean (map val tbl))
                         (fun r => - Qmean (group_vals (name r) tbl))).
  rewrite Qsum_map_const.
  assert (Hneg : Qsum (map (fun r => - Qmean (group_vals (name r) tbl)) tbl)
                 == - Qsum (map val tbl)).
  { rewrite <- Hgrp. apply Qsum_map_opp. }
  rewrite Hneg. unfold Qmean. rewrite length_map.
  pose proof (length_pos_Q tbl Hne) as Hp. field. Lqa.lra.
Qed.

(** C5.  With [align_mean] set, every distribution of the table is shifted by
    a constant of its own; afterwards the mean of each distribution is the
    mean of the whole table before the alignment, and so is the mean of the
    whole aligned table (exact arithmetic). *)
Theorem align_mean_preserved (avo_results : list (list (list Q))) (bin_size : Z)
    (names : option (list string)) :
  let tbl := build_table avo_results bin_size names in
  tbl <> [] ->
  std_plot avo_results bin_size names true = shifted tbl
  /\ (forall nm, In nm (map name tbl) ->
        Qmean (group_vals nm (std_plot avo_results bin_size names true))
        == Qmean (map val tbl))
  /\ Qmean (map val (std_plot avo_results bin_size names true)) == Qmean (map val tbl).
Proof.
  intros tbl Hne. unfold std_plot. fold tbl. simpl.
  rewrite align_is_shifted. split; [reflexivity|]. split.
  - intros nm Hin. unfold shifted. rewrite group_vals_shifted.
    rewrite Qmean_shift by (apply group_vals_nonempty; assumption).
    unfold shift_of. ring.
  - unfold shifted, Qmean. rewrite !length_map. rewrite map_map.
    unfold shift_row at 1. simpl.
    rewrite (Qsum_map_plus val (fun r => shift_of tbl (name r))).
    rewrite shifts_cancel by assumption.
    pose proof (length_pos_Q tbl Hne) as Hp. field. Lqa.lra.
Qed.

Lemma align_mean_preserved_witness :
  let avo := [[[1; 2; 0]; [-1; 3; 0]]; [[5; 5; 5]; [7; 0; 9]]] in
  let tbl := build_table avo 10 None in
  std_plot avo 10 None true = shifted tbl
  /\ (forall nm, In nm (map name tbl) ->
        Qmean (group_vals nm (std_plot avo 10 None true)) == Qmean (map val tbl))
  /\ Qmean (map val (std_plot avo 10 None true)) == Qmean (map val tbl).
Proof.
  apply (align_mean_preserved [[[1; 2; 0]; [-1; 3; 0]]; [[5; 5; 5]; [7; 0; 9]]] 10 None).
  vm_compute. discriminate.
Defined.

End StdPlotFacts.

(** ** Horizon files *)

Section HorizonFacts.

Import Horizon.

Lemma space_is_space : is_space space = true.
Proof. reflexivity. Qed.

Lemma eqb_space_is_space (c : ascii) : Ascii.eqb c space = true -> is_space c = true.
Proof. intros H. apply Ascii.eqb_eq in H. subst. reflexivity. Qed.

(** *** No token of [split] holds the separator *)

Lemma split_not_nil (sep : ascii) (s : str) : split sep s <> [].
Proof.
  destruct s as [| c t]; simpl; [discriminate|].
  destruct (Ascii.eqb c sep); [discriminate|]. destruct (split sep t); discriminate.
Qed.

Lemma split_sep_free (sep : ascii) (s : str) :
  Forall (fun t => ~ In sep t) (split sep s).
Proof.
  induction s as [| c t IH]; simpl.
  - constructor; [intros []|constructor].
  - destruct (Ascii.eqb c sep) eqn:E.
    + constructor; [intros []|exact IH].
    + destruct (split sep t) as [| w ws]; [repeat constructor; intros [H|[]]; subst;
        rewrite Ascii.eqb_refl in E; discriminate|].
      inversion IH as [| ? ? Hw Hws]; subst. constructor; [|assumption].
      intros [H | H]; [subst; rewrite Ascii.eqb_refl in E; discriminate | auto].
Qed.

(** *** Shapes of the cleaned line *)

Lemma lstrip_head (s : str) : head_ok (lstrip s).
Proof.
  induction s as [| c t IH]; simpl; [exact I|].
  destruct (is_space c) eqn:E; [exact IH | simpl; exact E].
Qed.

Lemma lstrip_snoc (a : str) (c : ascii) :
  is_space c = false -> lstrip (a ++ [c]) = lstrip a ++ [c].
Proof.
  intros Hc. induction a as [| x a IH]; simpl.
  - rewrite Hc. reflexivity.
  - destruct (is_space x); [exact IH | reflexivity].
Qed.

Lemma strip_head (s : str) : head_ok (strip s).
Proof.
  unfold strip. pose proof (lstrip_head s) as H.
  destruct (lstrip s) as [| h t]; [exact I|]. simpl in H. simpl.
  rewrite lstrip_snoc by assumption. rewrite rev_app_distr. simpl. exact H.
Qed.

Lemma strip_last (s : str) (d : ascii) :
  strip s <> [] -> is_space (last (strip s) d) = false.
Proof.
  unfold strip. pose proof (lstrip_head (rev (lstrip s))) as H.
  destruct (lstrip (rev (lstrip s))) as [| h t]; [intros E; exfalso; apply E; reflexivity|].
  intros _. simpl. rewrite last_last. exact H.
Qed.

Lemma sub_spaces_head (s : str) : head_ok s -> s <> [] -> exists c t,
  s = c :: t /\ sub_spaces s = c :: sub_spaces t /\ is_space c = false.
Proof.
  intros H Hne. destruct s as [| c t]; [congruence|]. simpl in H.
  exists c, t. split; [reflexivity|]. split; [|exact H]. simpl.
  destruct (Ascii.eqb c space) eqn:E; [|reflexivity].
  apply eqb_space_is_space in E. congruence.
Qed.

Lemma sub_spaces_nil (s : str) : sub_spaces s = [] -> s = [].
Proof.
  induction s as [| c t IH]; [reflexivity|]. simpl.
  destruct (Ascii.eqb c space); [|discriminate].
  destruct t as [| c' t']; [discriminate|].
  destruct (Ascii.eqb c' space); [|discriminate]. intros H. apply IH in H. discriminate.
Qed.

Lemma sub_spaces_last (s : str) (d : ascii) : last (sub_spaces s) d = last s d.
Proof.
  induction s as [| c t IH]; [reflexivity|].
  destruct t as [| c' t'].
  - simpl. destruct (Ascii.eqb c space); reflexivity.
  - change (last (c :: c' :: t') d) with (last (c' :: t') d). rewrite <- IH.
    assert (Hne : sub_spaces (c' :: t') <> []) by (intros H; apply sub_spaces_nil in H; discriminate).
    assert (Hl : forall x, last (x :: sub_spaces (c' :: t')) d = last (sub_spaces (c' :: t')) d).
    { intros x. destruct (sub_spaces (c' :: t')); [congruence | reflexivity]. }
    change (sub_spaces (c :: c' :: t'))
      with (if Ascii.eqb c space
            then if Ascii.eqb c' space then sub_spaces (c' :: t') else c :: sub_spaces (c' :: t')
            else c :: sub_spaces (c' :: t')).
    destruct (Ascii.eqb c space); [destruct (Ascii.eqb c' space)|]; auto.
Qed.

Lemma sub_spaces_hd_space (s : str) (c : ascii) (t : str) :
  sub_spaces s = c :: t -> c = space -> exists t', s = space :: t'.
Proof.
  intros H Hc. subst c. destruct s as [| x s']; [discriminate|]. simpl in H.
  destruct (Ascii.eqb x space) eqn:E.
  - apply Ascii.eqb_eq in E. subst. eauto.
  - inversion H; subst. rewrite Ascii.eqb_refl in E. discriminate.
Qed.

Lemma sub_spaces_no_double (s : str) : no_double (sub_spaces s).
Proof.
  induction s as [| c t IH]; [exact I|].
  destruct t as [| c' t'].
  - simpl. destruct (Ascii.eqb c space); simpl; auto.
  - change (sub_spaces (c :: c' :: t'))
      with (if Ascii.eqb c space
            then if Ascii.eqb c' space then sub_spaces (c' :: t') else c :: sub_spaces (c' :: t')
            else c :: sub_spaces (c' :: t')).
    destruct (Ascii.eqb c space) eqn:E; [destruct (Ascii.eqb c' space) eqn:E'|].
    + exact IH.
    + split; [|exact IH]. destruct (sub_spaces (c' :: t')) as [| y u] eqn:Es; [exact I|].
      intros [_ Hy]. destruct (sub_spaces_hd_space _ _ _ Es Hy) as [u' Hu].
      inversion Hu; subst. rewrite Ascii.eqb_refl in E'. discriminate.
    + split; [|exact IH]. destruct (sub_spaces (c' :: t')); [exact I|].
      intros [Hc _]. subst. rewrite Ascii.eqb_refl in E. discriminate.
Qed.

(** *** The tokens of a cleaned line *)

Lemma split_tail_nonempty (s : str) :
  no_double s -> (s <> [] -> last s space <> space) ->
  forall w ws, split space s = w :: ws ->
    Forall (fun t => t <> []) ws
    /\ (w = [] -> s = [] \/ exists t, s = space :: t).
Proof.
  induction s as [| c t IH]; intros Hnd Hlast w ws Hs.
  - simpl in Hs. inversion Hs; subst. split; [constructor | auto].
  - simpl in Hs. destruct Hnd as [Hc Hnd].
    assert (Hlast' : t <> [] -> last t space <> space).
    { intros Hne. destruct t as [| c' t']; [congruence|]. apply Hlast. discriminate. }
    destruct (Ascii.eqb c space) eqn:E.
    + apply Ascii.eqb_eq in E. subst c.
      assert (Ews : ws = split space t) by (inversion Hs; reflexivity).
      split; [|intros _; right; eauto]. rewrite Ews.
      destruct (split space t) as [| w' ws'] eqn:Et; [constructor|].
      destruct (IH Hnd Hlast' w' ws' eq_refl) as [Hws Hw]. constructor; [|exact Hws].
      intros Hnil. destruct (Hw Hnil) as [Ht | [t' Ht]]; subst.
      * apply Hlast; [discriminate | reflexivity].
      * apply Hc. split; reflexivity.
    + destruct (split space t) as [| w' ws'] eqn:Et.
      * inversion Hs; subst. split; [constructor | discriminate].
      * destruct (IH Hnd Hlast' w' ws' eq_refl) as [Hws _].
        inversion Hs; subst. split; [exact Hws | discriminate].
Qed.

Lemma clean_tokens (line : str) :
  clean line <> [] ->
  Forall (fun t => t <> [] /\ ~ In space t) (split space (clean line)).
Proof.
  intros Hne. unfold clean in *. set (u := strip (sub_alpha line)) in *.
  assert (Hu : u <> []) by (intros H; apply Hne; rewrite H; reflexivity).
  destruct (sub_spaces_head u (strip_head _) Hu) as [c [t [Eu [Es Hc]]]].
  assert (Hlast : last (sub_spaces u) space <> space).
  { rewrite sub_spaces_last. intros H.
    pose proof (strip_last (sub_alpha line) space Hu) as Hl. fold u in Hl.
    rewrite H in Hl. discriminate. }
  pose proof (sub_spaces_no_double u) as Hnd.
  pose proof (split_sep_free space (sub_spaces u)) as Hfree.
  destruct (split space (sub_spaces u)) as [| w ws] eqn:Esp;
    [exfalso; eapply split_not_nil; exact Esp|].
  destruct (split_tail_nonempty (sub_spaces u) Hnd (fun _ => Hlast) w ws Esp) as [Hws Hw].
  assert (Hwne : w <> []).
  { intros Hnil. destruct (Hw Hnil) as [H0 | [t' Ht']]; [congruence|].
    rewrite Es in Ht'. inversion Ht'; subst. discriminate. }
  inversion Hfree as [| ? ? Hf1 Hf2]; subst. constructor; [split; assumption|].
  clear - Hws Hf2. induction ws as [| x ws IH]; [constructor|].
  inversion Hws; inversion Hf2; subst. constructor; [split; assumption | auto].
Qed.


Lemma nth_error_pred_last {A : Type} (l : list A) (d : A) :
  l <> [] -> nth_error l (length l - 1) = Some (last l d).
Proof.
  induction l as [| x l IH]; [congruence|]. intros _.
  destruct l as [| y l']; [reflexivity|].
  replace (length (x :: y :: l') - 1)%nat with (S (length (y :: l') - 1))
    by (simpl; lia).
  change (last (x :: y :: l') d) with (last (y :: l') d).
  change (nth_error (x :: y :: l') (S (length (y :: l') - 1)))
    with (nth_error (y :: l') (length (y :: l') - 1)).
  apply IH. discriminate.
Qed.

Lemma py_index_last {A : Type} (l : list A) (d : A) :
  l <> [] -> py_index l (-1) = inr (last l d).
Proof.
  intros Hne. unfold py_index.
  assert (Hlen : (0 < length l)%nat) by (destruct l; [congruence | simpl; lia]).
  change (-1 <? 0)%Z with true. cbv iota.
  replace ((0 <=? -1 + Z.of_nat (length l)) && (-1 + Z.of_nat (length l) <? Z.of_nat (length l)))%Z
    with true by (symmetry; apply andb_true_iff; split; [apply Z.leb_le | apply Z.ltb_lt]; lia).
  replace (Z.to_nat (-1 + Z.of_nat (length l))) with (length l - 1)%nat by lia.
  rewrite (nth_error_pred_last l d Hne). reflexivity.
Qed.

Lemma py_index_nat {A : Type} (l : list A) (k : nat) (x : A) :
  nth_error l k = Some x -> py_index l (Z.of_nat k) = inr x.
Proof.
  intros H. unfold py_index.
  assert (Hk : (k < length l)%nat) by (apply nth_error_Some; congruence).
  replace (Z.of_nat k <? 0)%Z with false by (symmetry; apply Z.ltb_ge; lia).
  replace ((0 <=? Z.of_nat k) && (Z.of_nat k <? Z.of_nat (length l)))%Z
    with true by (symmetry; apply andb_true_iff; split; [apply Z.leb_le | apply Z.ltb_lt]; lia).
  rewrite Nat2Z.id, H. reflexivity.
Qed.

(** C4 (as amended).  A line whose cleaned form is empty is skipped.
    Otherwise the cleaned line splits at its spaces into tokens that are not
    empty and hold no space; with two tokens or more the first is read as the
    integer inline, the second as the integer crossline and the last as the
    float time, the tokens in between being ignored, so that with exactly two
    tokens the second one is read twice; with one token the line fails. *)
Theorem horizon_line_tokens (line : str) :
  let toks := split space (clean line) in
  (clean line = [] -> horizon_line line = inr None)
  /\ (clean line <> [] ->
      Forall (fun t => t <> [] /\ ~ In space t) toks
      /\ match toks with
         | [] => False
         | [t0] =>
             horizon_line line = (i <- py_int t0 ;; inl IndexError)
             /\ exists e, horizon_line line = inl e
         | t0 :: t1 :: rest =>
             horizon_line line
             = (i <- py_int t0 ;;
                c <- py_int t1 ;;
                t <- py_float (last rest t1) ;;
                inr (Some (Avo.mk_hrow i c t)))
         end).
Proof.
  intros toks. split.
  - intros H. unfold horizon_line. rewrite H. reflexivity.
  - intros Hne. split; [apply clean_tokens; exact Hne|].
    unfold horizon_line. fold toks.
    destruct (clean line) as [| c0 cl] eqn:Ec; [congruence|].
    destruct toks as [| t0 [| t1 rest]] eqn:Et.
    + eapply split_not_nil. exact Et.
    + split; simpl; destruct (py_int t0); simpl; eauto.
    + rewrite (py_index_last (t0 :: t1 :: rest) t1) by discriminate.
      change (last (t0 :: t1 :: rest) t1) with (last (t1 :: rest) t1).
      replace (last (t1 :: rest) t1) with (last rest t1)
        by (destruct rest; reflexivity).
      pose proof (py_index_nat (t0 :: t1 :: rest) 0 t0 eq_refl) as H0.
      pose proof (py_index_nat (t0 :: t1 :: rest) 1 t1 eq_refl) as H1.
      change (Z.of_nat 0) with 0%Z in H0. change (Z.of_nat 1) with 1%Z in H1.
      rewrite H0, H1. reflexivity.
Qed.

(** A line that fails makes the whole load fail; a load that succeeds has
    read every line. *)
Lemma horizon_lines_fail (lines : list str) (acc : list Avo.horizon_row)
    (l : str) (e : exn) :
  In l lines -> horizon_line l = inl e -> exists e', horizon_lines lines acc = inl e'.
Proof.
  revert acc. induction lines as [| x lines IH]; intros acc Hin He; [contradiction|].
  simpl. destruct Hin as [-> | Hin].
  - rewrite He. simpl. eauto.
  - destruct (horizon_line x) as [e0 | r]; simpl; [eauto|]. apply IH; assumption.
Qed.

(** C4 (counterexample).  The line ["12 34"] has two tokens and is read
    without error, the second token giving the crossline and the time. *)
Lemma two_token_line_accepted :
  let line := list_ascii_of_string "12 34" in
  length (split space (clean line)) = 2%nat
  /\ horizon_line line = inr (Some (Avo.mk_hrow 12 34 34))
  /\ load_horizon "12 34" = inr [Avo.mk_hrow 12 34 34]
  /\ ~ (exists e, load_horizon "12 34" = inl e).
Proof.
  split; [reflexivity|]. split; [reflexivity|]. split; [reflexivity|].
  intros [e H]. discriminate.
Qed.

End HorizonFacts.

(** ** Offset binning *)

Section AvoFacts.

Import Avo.

Variable calc_method : matrix -> f64.

(** *** The store only grows *)

Lemma view_app (a : ndarray) (h extra : heap) :
  (base a < length h)%nat -> view a (h ++ extra) = view a h.
Proof. intros H. unfold view. rewrite app_nth1 by exact H. reflexivity. Qed.

Lemma nd_rows_app (a : ndarray) (h extra : heap) :
  (base a < length h)%nat -> nd_rows a (h ++ extra) = nd_rows a h.
Proof. intros H. unfold nd_rows. rewrite app_nth1 by exact H. reflexivity. Qed.

Lemma nd_rows_view (a : ndarray) (h : heap) : nd_rows a h = length (view a h).
Proof. unfold nd_rows, view, window_rows. rewrite length_map. reflexivity. Qed.

Lemma update_nth_app_last {A : Type} (f : A -> A) (l : list A) (x : A) :
  update_nth (length l) f (l ++ [x]) = l ++ [f x].
Proof. induction l as [| y l IH]; simpl; [reflexivity|]. rewrite IH. reflexivity. Qed.

Lemma window_map_window {A : Type} (f : A -> A) (lo hi : nat) (r : list A) :
  firstn (hi - lo) (skipn lo (map_window f lo hi r))
  = map f (firstn (hi - lo) (skipn lo r)).
Proof.
  unfold map_window. set (k := (hi - lo)%nat).
  assert (Hs : skipn lo (firstn lo r ++ map f (firstn k (skipn lo r)) ++ skipn k (skipn lo r))
               = map f (firstn k (skipn lo r)) ++ skipn k (skipn lo r)).
  { destruct (Nat.le_gt_cases lo (length r)) as [Hle | Hgt].
    - rewrite skipn_app. rewrite length_firstn, Nat.min_l by exact Hle.
      rewrite Nat.sub_diag. simpl.
      rewrite (skipn_all2 (firstn lo r)) by (rewrite length_firstn; lia). reflexivity.
    - rewrite (skipn_all2 r) by lia. rewrite firstn_nil, skipn_nil. simpl.
      rewrite app_nil_r. apply skipn_all2. rewrite length_firstn. lia. }
  rewrite Hs. set (u := skipn lo r).
  destruct (Nat.le_gt_cases k (length u)) as [Hle | Hgt].
  - rewrite firstn_app. rewrite length_map, length_firstn, Nat.min_l by exact Hle.
    rewrite Nat.sub_diag. simpl. rewrite app_nil_r.
    apply firstn_all2. rewrite length_map, length_firstn. lia.
  - rewrite (skipn_all2 u) by lia. rewrite app_nil_r.
    apply firstn_all2. rewrite length_map, length_firstn. lia.
Qed.

Lemma view_after_setitem (lo hi : nat) (nb : matrix) (h : heap) :
  window_rows lo hi (map (map_window zero_to_nan lo hi) nb)
  = map (map zero_to_nan) (window_rows lo hi nb).
Proof.
  unfold window_rows. rewrite !map_map. apply map_ext. intros r.
  apply window_map_window.
Qed.

(** One turn of the loop: its value is that of the store-free turn, and the
    store has one more buffer at its end. *)
Lemma bin_step_run (fld : ndarray) (offset : list Q) (window : option (Z * Z))
    (i : nat) (stp nxt : Q) (storage : list f64) (h : heap) :
  (base fld < length h)%nat ->
  fst (bin_step calc_method fld offset window i stp nxt storage h)
  = bin_step_pure calc_method (view fld h) (nd_cols fld) offset window i stp nxt storage
  /\ exists extra, snd (bin_step calc_method fld offset window i stp nxt storage h)
                   = h ++ extra.
Proof.
  intros Hb. unfold bin_step, bin_step_pure, mbind, bool_index, nd_size, lift.
  rewrite nd_rows_view.
  destruct (Nat.eqb (length (bin_mask offset stp nxt)) (length (view fld h))) eqn:Em;
    [|split; [reflexivity | exists []; rewrite app_nil_r; reflexivity]].
  set (sub := {| base := length h; c_lo := 0; c_hi := nd_cols fld |}).
  assert (Hcols : nd_cols sub = nd_cols fld) by (unfold sub, nd_cols at 1; cbn [c_hi c_lo]; apply Nat.sub_0_r).
  unfold nd_rows. rewrite Hcols. cbn [base sub]. rewrite nth_middle.
  fold (bin_rows (view fld h) offset stp nxt).
  destruct (Nat.eqb (length (bin_rows (view fld h) offset stp nxt) * nd_cols fld) 0) eqn:Es.
  - split; [reflexivity | eexists; reflexivity].
  - destruct window as [w |]; [|split; [reflexivity | eexists; reflexivity]].
    unfold setitem_zero_nan, nd_read, slice_cols, view. rewrite Hcols.
    cbn [base c_lo c_hi fst snd sub]. rewrite !Nat.add_0_l.
    rewrite update_nth_app_last, nth_middle.
    rewrite view_after_setitem by exact h.
    split; [reflexivity | eexists; reflexivity].
Qed.

Lemma bin_loop_run (fld : ndarray) (offset : list Q) (window : option (Z * Z))
    (bins : list (Q * Q)) :
  forall (i : nat) (storage : list f64) (h : heap),
    (base fld < length h)%nat ->
    fst (bin_loop calc_method fld offset window i bins storage h)
    = bin_loop_pure calc_method (view fld h) (nd_cols fld) offset window i bins storage
    /\ exists extra, snd (bin_loop calc_method fld offset window i bins storage h)
                     = h ++ extra.
Proof.
  induction bins as [| [stp nxt] rest IH]; intros i storage h Hb.
  - simpl. split; [reflexivity | exists []; rewrite app_nil_r; reflexivity].
  - simpl. unfold mbind.
    destruct (bin_step_run fld offset window i stp nxt storage h Hb) as [Hv [extra Hh]].
    destruct (bin_step calc_method fld offset window i stp nxt storage h) as [r h'].
    simpl in Hv, Hh. subst h'. rewrite <- Hv.
    destruct r as [e | storage']; simpl.
    + split; [reflexivity | eexists; reflexivity].
    + assert (Hb' : (base fld < length (h ++ extra))%nat) by (rewrite length_app; lia).
      destruct (IH (S i) storage' (h ++ extra) Hb') as [Hv' [extra' Hh']].
      rewrite Hv', Hh', view_app by exact Hb. split; [reflexivity|].
      exists (extra ++ extra'). rewrite app_assoc. reflexivity.
Qed.

(** The storage vector of a gather depends on the store only through the
    amplitudes the gather's array shows, and the store only grows. *)
Lemma avo_storage_run (g : gather) (samples : list Q) (bin_size : bin_spec)
    (storage_size : nat) (window : option (Z * Z)) (horizon_window : Q * Q)
    (horizon : option (list horizon_row)) (h : heap) :
  (base (field g) < length h)%nat ->
  fst (avo_storage calc_method g samples bin_size storage_size window horizon_window
         horizon h)
  = avo_storage_pure calc_method (view (field g) h) (nd_cols (field g)) (batch_df g)
      samples bin_size storage_size window horizon_window horizon
  /\ exists extra,
       snd (avo_storage calc_method g samples bin_size storage_size window
              horizon_window horizon h) = h ++ extra.
Proof.
  intros Hb. unfold avo_storage, avo_storage_pure, mbind, lift.
  destruct (t_step_of samples) as [e | ts]; simpl;
    [split; [reflexivity | exists []; rewrite app_nil_r; reflexivity]|].
  destruct (gather_window horizon horizon_window window samples ts (batch_df g))
    as [e | w]; simpl;
    [split; [reflexivity | exists []; rewrite app_nil_r; reflexivity]|].
  destruct (step_list_of bin_size (np_sort Qle_bool (map offset (batch_df g))))
    as [e | sl]; simpl;
    [split; [reflexivity | exists []; rewrite app_nil_r; reflexivity]|].
  apply bin_loop_run. exact Hb.
Qed.

Lemma update_avo_params_grows (batch : list gather) (samples : list Q)
    (bin_size : bin_spec) (storage_size : nat) (window : option (Z * Z))
    (horizon_window : Q * Q) (horizon : option (list horizon_row)) :
  forall (params : option matrix) (h : heap),
    Forall (fun g => (base (field g) < length h)%nat) batch ->
    exists extra,
      snd (update_avo_params calc_method params batch samples bin_size storage_size
             window horizon_window horizon h) = h ++ extra.
Proof.
  induction batch as [| g rest IH]; intros params h Hall.
  - exists []. simpl. rewrite app_nil_r. reflexivity.
  - inversion Hall as [| ? ? Hg Hrest]; subst. simpl. unfold mbind.
    destruct (avo_storage_run g samples bin_size storage_size window horizon_window
                horizon h Hg) as [_ [extra Hh]].
    destruct (avo_storage calc_method g samples bin_size storage_size window
                horizon_window horizon h) as [r h'].
    simpl in Hh. subst h'. destruct r as [e | storage]; [eexists; reflexivity|].
    unfold lift. destruct (append_row params storage) as [e | params'];
      [eexists; reflexivity|].
    destruct (IH params' (h ++ extra)) as [extra' Hh'].
    { eapply Forall_impl; [|exact Hrest]. intros g' Hg'. simpl in Hg'.
      rewrite length_app. lia. }
    rewrite Hh'. exists (extra ++ extra'). rewrite app_assoc. reflexivity.
Qed.

(** C9.  Binning a gather leaves every buffer of the store as it was, the
    gather's amplitude array among them: the not-a-number marks go to the
    buffer that indexing by the mask has allocated.  Binning the gather again
    with the same parameters reads the same amplitudes and gives the same
    vector. *)
Theorem update_avo_params_keeps_field (g : gather) (samples : list Q)
    (bin_size : bin_spec) (storage_size : nat) (window : option (Z * Z))
    (horizon_window : Q * Q) (horizon : option (list horizon_row)) (h : heap) :
  (base (field g) < length h)%nat ->
  let run := avo_storage calc_method g samples bin_size storage_size window
               horizon_window horizon in
  (forall k, (k < length h)%nat -> nth k (snd (run h)) [] = nth k h [])
  /\ nth (base (field g)) (snd (run h)) [] = nth (base (field g)) h []
  /\ view (field g) (snd (run h)) = view (field g) h
  /\ fst (run (snd (run h))) = fst (run h)
  /\ (forall params batch,
        In g batch ->
        Forall (fun g' => (base (field g') < length h)%nat) batch ->
        view (field g)
          (snd (update_avo_params calc_method params batch samples bin_size
                  storage_size window horizon_window horizon h))
        = view (field g) h).
Proof.
  intros Hb run.
  assert (Hbatch : forall params batch,
             In g batch ->
             Forall (fun g' => (base (field g') < length h)%nat) batch ->
             view (field g)
               (snd (update_avo_params calc_method params batch samples bin_size
                       storage_size window horizon_window horizon h))
             = view (field g) h).
  { intros params batch _ Hall.
    destruct (update_avo_params_grows batch samples bin_size storage_size window
                horizon_window horizon params h Hall) as [extra ->].
    apply view_app. exact Hb. }
  destruct (avo_storage_run g samples bin_size storage_size window horizon_window
              horizon h Hb) as [Hv [extra Hh]].
  fold run in Hv, Hh.
  assert (Hframe : forall k, (k < length h)%nat -> nth k (snd (run h)) [] = nth k h []).
  { intros k Hk. rewrite Hh. apply app_nth1. exact Hk. }
  split; [exact Hframe|]. split; [apply Hframe; exact Hb|].
  split; [rewrite Hh; apply view_app; exact Hb|].
  split; [|exact Hbatch].
  assert (Hb' : (base (field g) < length (snd (run h)))%nat)
    by (rewrite Hh, length_app; lia).
  destruct (avo_storage_run g samples bin_size storage_size window horizon_window
              horizon (snd (run h)) Hb') as [Hv' _].
  fold run in Hv'. rewrite Hv', Hv, Hh, view_app by exact Hb. reflexivity.
Qed.

(** *** The values the loop stores *)

Lemma bin_mask_map (offset : list Q) (stp nxt : Q) :
  bin_mask offset stp nxt = map (fun o => Qle_bool stp o && Qlt_bool o nxt) offset.
Proof.
  unfold bin_mask. induction offset as [| o l IH]; simpl; [reflexivity|].
  rewrite IH. reflexivity.
Qed.

Lemma in_bin_dec_iff (stp nxt o : Q) :
  Qle_bool stp o && Qlt_bool o nxt = true <-> in_bin stp nxt o.
Proof.
  unfold in_bin, Qlt_bool. rewrite andb_true_iff, negb_true_iff, Qle_bool_iff.
  split; intros [H1 H2]; split; try assumption.
  - apply Qnot_le_lt. intros H. apply Qle_bool_iff in H. congruence.
  - destruct (Qle_bool nxt o) eqn:E; [|reflexivity].
    apply Qle_bool_iff in E. exfalso. apply (Qlt_not_le _ _ H2 E).
Qed.

Lemma select_none {A : Type} (mask : list bool) (a : list A) :
  Forall (fun b => b = false) mask -> select mask a = [].
Proof.
  intros H. revert a. induction H as [| b m Hb Hm IH]; intros [| x a]; simpl;
    try reflexivity. subst b. apply IH.
Qed.

Lemma select_some {A : Type} (mask : list bool) (a : list A) :
  length mask = length a -> In true mask -> select mask a <> [].
Proof.
  revert a. induction mask as [| b m IH]; intros [| x a] Hl Hin; simpl in *;
    try contradiction; try discriminate.
  destruct b; [discriminate|]. destruct Hin as [Hin | Hin]; [discriminate|].
  apply IH; [lia | exact Hin].
Qed.

(** With a window and one offset per trace the loop does not raise while the
    bins fit the storage; it writes the value of bin [j - i] at [j]. *)
Lemma bin_loop_pure_values (data : matrix) (ncols : nat) (offset : list Q) (w : Z * Z)
    (bins : list (Q * Q)) :
  length offset = length data ->
  forall (i : nat) (storage : list f64),
    (i + length bins <= length storage)%nat ->
    exists storage',
      bin_loop_pure calc_method data ncols offset (Some w) i bins storage = inr storage'
      /\ length storage' = length storage
      /\ forall j,
           nth j storage' NaN
           = if (Nat.leb i j && Nat.ltb j (i + length bins))%bool
             then bin_value calc_method data ncols offset w
                    (fst (nth (j - i) bins (0, 0))) (snd (nth (j - i) bins (0, 0)))
             else nth j storage NaN.
Proof.
  intros Hlen. induction bins as [| [stp nxt] rest IH]; intros i storage Hfit.
  - exists storage. split; [reflexivity|]. split; [reflexivity|]. intros j. simpl.
    replace (Nat.ltb j (i + 0)) with (negb (Nat.leb i j))
      by (rewrite Nat.add_0_r; destruct (Nat.leb_spec i j), (Nat.ltb_spec j i); simpl; lia).
    destruct (Nat.leb i j); reflexivity.
  - simpl in Hfit. simpl bin_loop_pure. unfold bin_step_pure.
    rewrite bin_mask_map, length_map, Hlen, Nat.eqb_refl.
    assert (Hset : forall v, setitem storage i v = inr (BinGrid.set_nth i v storage)).
    { intros v. unfold setitem.
      replace (Nat.ltb i (length storage)) with true
        by (symmetry; apply Nat.ltb_lt; lia). reflexivity. }
    set (v := bin_value calc_method data ncols offset w stp nxt).
    assert (Hstep : (if Nat.eqb (length (bin_rows data offset stp nxt) * ncols) 0
                     then setitem storage i (Fin 0)
                     else setitem storage i
                            (nan_to_num (calc_method
                               (bin_masked ncols w (bin_rows data offset stp nxt)))))
                    = inr (BinGrid.set_nth i v storage)).
    { unfold v, bin_value.
      destruct (Nat.eqb (length (bin_rows data offset stp nxt) * ncols) 0); apply Hset. }
    rewrite Hstep. simpl bind.
    destruct (IH (S i) (BinGrid.set_nth i v storage)) as [st' [Hrun [Hl Hval]]].
    { rewrite set_nth_length. lia. }
    exists st'. split; [exact Hrun|]. split; [rewrite Hl; apply set_nth_length|].
    intros j. rewrite Hval. rewrite set_nth_nth by lia.
    destruct (Nat.leb_spec (S i) j) as [H1 | H1];
      destruct (Nat.ltb_spec j (S i + length rest)) as [H2 | H2];
      destruct (Nat.leb_spec i j) as [H3 | H3];
      destruct (Nat.ltb_spec j (i + length ((stp, nxt) :: rest))) as [H4 | H4];
      simpl in H4 |- *; try lia;
      try (destruct (Nat.eqb_spec j i) as [H5 | H5]; try lia).
    all: try reflexivity.
    all: try (subst j; rewrite Nat.sub_diag; reflexivity).
    all: replace (j - i)%nat with (S (j - S i)) by lia; reflexivity.
Qed.

Lemma In_firstn {A : Type} (n : nat) (l : list A) (x : A) : In x (firstn n l) -> In x l.
Proof. intros H. rewrite <- (firstn_skipn n l). apply in_or_app. left. exact H. Qed.

Lemma In_skipn {A : Type} (n : nat) (l : list A) (x : A) : In x (skipn n l) -> In x l.
Proof. intros H. rewrite <- (firstn_skipn n l). apply in_or_app. right. exact H. Qed.

Lemma all_zero_masked (ncols : nat) (w : Z * Z) (rows : matrix) :
  Forall (Forall (fun x => f_is_zero x = true)) rows -> all_nan (bin_masked ncols w rows).
Proof.
  intros H. unfold all_nan, bin_masked, window_rows. rewrite map_map.
  apply Forall_map. eapply Forall_impl; [|exact H]. intros r Hr. simpl.
  apply Forall_map.
  assert (Hsub : Forall (fun x => f_is_zero x = true)
                   (firstn
                      (Nat.max (slice_bound ncols (fst w)) (slice_bound ncols (snd w + 1))
                       - slice_bound ncols (fst w))
                      (skipn (slice_bound ncols (fst w)) r))).
  { apply Forall_forall. intros x Hx. rewrite Forall_forall in Hr. apply Hr.
    apply In_firstn, In_skipn in Hx. exact Hx. }
  eapply Forall_impl; [|exact Hsub]. intros x Hx. unfold zero_to_nan. rewrite Hx.
  reflexivity.
Qed.

(** The values of the bins, the rows of a bin being those at the places
    where the mask over the sorted offsets holds. *)
Lemma bin_values_by_position (g : gather) (samples : list Q) (bin_size : bin_spec)
    (storage_size : nat) (window : option (Z * Z)) (horizon_window : Q * Q)
    (horizon : option (list horizon_row)) (h : heap) (ts : Q) (w : Z * Z) (sl : list Q) :
  let sorted := np_sort Qle_bool (map offset (batch_df g)) in
  let data := view (field g) h in
  let ncols := nd_cols (field g) in
  (base (field g) < length h)%nat ->
  length (batch_df g) = length data ->
  t_step_of samples = inr ts ->
  gather_window horizon horizon_window window samples ts (batch_df g) = inr (Some w) ->
  step_list_of bin_size sorted = inr sl ->
  (length (bins_of sl) <= storage_size)%nat ->
  exists storage,
    fst (avo_storage calc_method g samples bin_size storage_size window horizon_window
           horizon h) = inr storage
    /\ length storage = storage_size
    /\ forall i stp nxt,
         nth_error (bins_of sl) i = Some (stp, nxt) ->
         let rows := bin_rows data sorted stp nxt in
         let aggregate := calc_method (bin_masked ncols w rows) in
         ((forall tr, In tr (batch_df g) -> ~ in_bin stp nxt (offset tr)) ->
          nth i storage NaN = Fin 0)
         /\ ((exists tr, In tr (batch_df g) /\ in_bin stp nxt (offset tr)) ->
             (0 < ncols)%nat ->
             nth i storage NaN = nan_to_num aggregate
             /\ (aggregate = NaN -> nth i storage NaN = Fin 0)
             /\ (aggregate = PInf -> nth i storage NaN = Fin float_max)
             /\ (aggregate = NInf -> nth i storage NaN = Fin (- float_max))
             /\ (forall q, aggregate = Fin q -> nth i storage NaN = Fin q))
         /\ ((forall m, all_nan m -> calc_method m = NaN) ->
             Forall (Forall (fun x => f_is_zero x = true)) rows ->
             nth i storage NaN = Fin 0).
Proof.
  intros sorted data ncols Hb Hlen Hts Hw Hsl Hfit.
  destruct (avo_storage_run g samples bin_size storage_size window horizon_window
              horizon h Hb) as [Hrun _].
  rewrite Hrun. unfold avo_storage_pure. fold sorted. rewrite Hts. simpl bind.
  rewrite Hw. simpl bind. rewrite Hsl. simpl bind. fold data ncols.
  assert (Hlen' : length sorted = length data).
  { unfold sorted. rewrite np_sort_length, length_map. exact Hlen. }
  destruct (bin_loop_pure_values data ncols sorted w (bins_of sl) Hlen' 0
              (repeat (Fin 0) storage_size)) as [storage [Hloop [Hl Hval]]].
  { rewrite repeat_length. simpl. exact Hfit. }
  exists storage. split; [exact Hloop|]. split; [rewrite Hl; apply repeat_length|].
  intros i stp nxt Hi.
  set (rows := bin_rows data sorted stp nxt).
  set (aggregate := calc_method (bin_masked ncols w rows)).
  assert (Hi' : (i < length (bins_of sl))%nat) by (apply nth_error_Some; congruence).
  assert (Hnth : nth i (bins_of sl) (0, 0) = (stp, nxt)) by (apply nth_error_nth; exact Hi).
  assert (Hv : nth i storage NaN = bin_value calc_method data ncols sorted w stp nxt).
  { rewrite Hval. simpl. rewrite Nat.sub_0_r, Hnth.
    replace (Nat.ltb i (length (bins_of sl))) with true
      by (symmetry; apply Nat.ltb_lt; exact Hi'). reflexivity. }
  unfold bin_value in Hv. fold rows in Hv. fold aggregate in Hv.
  assert (Hin : forall o, In o sorted <-> In o (map offset (batch_df g))).
  { intros o. split; apply Permutation_in;
      [apply np_sort_perm | apply Permutation_sym, np_sort_perm]. }
  split; [|split].
  - intros Hnone. rewrite Hv.
    assert (Hrows : rows = []).
    { unfold rows, bin_rows. apply select_none. rewrite bin_mask_map.
      apply Forall_map, Forall_forall. intros o Ho.
      destruct (Qle_bool stp o && Qlt_bool o nxt) eqn:E; [|reflexivity].
      apply in_bin_dec_iff in E. apply Hin, in_map_iff in Ho.
      destruct Ho as [tr [Heq Htr]]. subst o. exfalso. exact (Hnone tr Htr E). }
    rewrite Hrows. reflexivity.
  - intros [tr [Htr Hbin]] Hcols.
    assert (Hrows : rows <> []).
    { unfold rows, bin_rows. apply select_some.
      - rewrite bin_mask_map, length_map. exact Hlen'.
      - rewrite bin_mask_map. apply in_map_iff. exists (offset tr).
        split; [apply in_bin_dec_iff; exact Hbin|]. apply Hin, in_map. exact Htr. }
    assert (Hsz : Nat.eqb (length rows * ncols) 0 = false).
    { apply Nat.eqb_neq. destruct rows; [congruence|]. simpl. lia. }
    rewrite Hsz in Hv. rewrite Hv.
    split; [reflexivity|]. repeat split; intros; subst; try rewrite H; reflexivity.
  - intros Hcalc Hzero. rewrite Hv.
    destruct (Nat.eqb (length rows * ncols) 0); [reflexivity|].
    unfold aggregate. rewrite Hcalc by (apply all_zero_masked; exact Hzero). reflexivity.
Qed.

(** Sorting offsets that are in order leaves them as they are. *)
Lemma isort_sorted (l : list (nat * Q)) :
  StronglySorted (fun a b => snd a <= snd b) l -> isort Qle_bool l = l.
Proof.
  intros H. induction H as [| x t Ht IH Hx]; [reflexivity|].
  simpl. rewrite IH. destruct t as [| y t']; [reflexivity|].
  simpl. inversion Hx as [| ? ? Hy _]; subst.
  apply Qle_bool_iff in Hy. rewrite Hy. reflexivity.
Qed.

Lemma combine_seq_sorted (l : list Q) :
  StronglySorted Qle l ->
  forall k, StronglySorted (fun a b : nat * Q => snd a <= snd b)
              (combine (seq k (length l)) l).
Proof.
  intros H. induction H as [| x t Ht IH Hx]; intros k; [constructor|].
  simpl. constructor; [apply IH|].
  apply Forall_forall. intros [i y] Hy. simpl.
  apply in_combine_r in Hy. rewrite Forall_forall in Hx. apply Hx. exact Hy.
Qed.

Lemma np_sort_sorted (l : list Q) : StronglySorted Qle l -> np_sort Qle_bool l = l.
Proof.
  intros H. unfold np_sort, enumerate.
  rewrite (isort_sorted _ (combine_seq_sorted l H 0%nat)).
  apply (enumerate_snd_from 0 l).
Qed.

(** C3 (as amended).  For a gather whose traces are stored by increasing
    offset and whose array has one column per sample, when the call has its
    inputs (two samples at least, a window, a step list, one offset per
    trace, storage for every bin), it returns a vector of [storage_size]
    values, and for every bin [[stp, nxt)] of the step list:
    - with no trace offset in the bin the value is exactly [0];
    - with some offset in the bin the value is [nan_to_num] of the aggregate
      of the traces whose offset is in the bin, cut to the window, exact
      zeros made not-a-number: a not-a-number aggregate gives [0], an
      infinite one the largest finite float of its sign, a finite one itself;
    - when all samples of the traces of the bin are zero and the aggregator
      gives not-a-number on an array of not-a-numbers, the value is [0]. *)
Theorem offset_bin_values (g : gather) (samples : list Q) (bin_size : bin_spec)
    (storage_size : nat) (window : option (Z * Z)) (horizon_window : Q * Q)
    (horizon : option (list horizon_row)) (h : heap) (ts : Q) (w : Z * Z) (sl : list Q) :
  let offsets := map offset (batch_df g) in
  let data := view (field g) h in
  let ncols := nd_cols (field g) in
  StronglySorted Qle offsets ->
  ncols = length samples ->
  (base (field g) < length h)%nat ->
  length (batch_df g) = length data ->
  t_step_of samples = inr ts ->
  gather_window horizon horizon_window window samples ts (batch_df g) = inr (Some w) ->
  step_list_of bin_size offsets = inr sl ->
  (length (bins_of sl) <= storage_size)%nat ->
  exists storage,
    fst (avo_storage calc_method g samples bin_size storage_size window horizon_window
           horizon h) = inr storage
    /\ length storage = storage_size
    /\ forall i stp nxt,
         nth_error (bins_of sl) i = Some (stp, nxt) ->
         let rows := bin_rows data offsets stp nxt in
         let aggregate := calc_method (bin_masked ncols w rows) in
         ((forall tr, In tr (batch_df g) -> ~ in_bin stp nxt (offset tr)) ->
          nth i storage NaN = Fin 0)
         /\ ((exists tr, In tr (batch_df g) /\ in_bin stp nxt (offset tr)) ->
             nth i storage NaN = nan_to_num aggregate
             /\ (aggregate = NaN -> nth i storage NaN = Fin 0)
             /\ (aggregate = PInf -> nth i storage NaN = Fin float_max)
             /\ (aggregate = NInf -> nth i storage NaN = Fin (- float_max))
             /\ (forall q, aggregate = Fin q -> nth i storage NaN = Fin q))
         /\ ((forall m, all_nan m -> calc_method m = NaN) ->
             Forall (Forall (fun x => f_is_zero x = true)) rows ->
             nth i storage NaN = Fin 0).
Proof.
  intros offsets data ncols Hsorted Hcols Hb Hlen Hts Hw Hsl Hfit.
  assert (Hpos : (0 < ncols)%nat).
  { rewrite Hcols. destruct samples as [| s0 [| s1 rest]]; try discriminate. simpl. lia. }
  pose proof (np_sort_sorted offsets Hsorted) as Hid.
  pose proof (bin_values_by_position g samples bin_size storage_size window horizon_window
                horizon h ts w sl) as H.
  cbv zeta in H. fold offsets data ncols in H. rewrite Hid in H.
  destruct (H Hb Hlen Hts Hw Hsl Hfit) as [storage [H1 [H2 H3]]].
  exists storage. split; [exact H1|]. split; [exact H2|].
  intros i stp nxt Hi rows aggregate.
  destruct (H3 i stp nxt Hi) as [Ha [Hb' Hc]].
  split; [exact Ha|]. split; [|exact Hc].
  intros Hex. exact (Hb' Hex Hpos).
Qed.

End AvoFacts.

(** The mask is taken over the sorted offsets and applied to the rows as they
    stand: with traces of offsets [30, 5, 12] in this order the bin
    [[0, 10)] takes the first row, that of the trace of offset [30]. *)
Example rows_selected_by_position :
  let data := [[Fin 1]; [Fin 2]; [Fin 3]] in
  bin_rows data (np_sort Qle_bool [30; 5; 12]) 0 10 = [[Fin 1]]
  /\ bin_rows data [30; 5; 12] 0 10 = [[Fin 2]].
Proof. split; reflexivity. Qed.

(** C3 (counterexample).  Three gathers of two samples on which the claim
    fails, the window being the two samples and the bins [10] wide:
    - one trace of offset [5] with the samples [+inf, 1], the mean as
      aggregator: the aggregate is infinite and the value of the bin is the
      largest finite float, not [0];
    - one trace of offset [5] with the samples [0, 0], the number of traces
      as aggregator: the traces of the bin [[0, 10)] are all zero and its
      value is [1], not [0];
    - two traces stored with the offsets [30] and [5], of samples [1, 1] and
      [2, 2], the sum as aggregator: the only trace whose offset is in
      [[0, 10)] holds the samples [2, 2], of aggregate [4], and the value of
      the bin is [2], the aggregate of the other trace. *)
Lemma offset_bin_departures :
  let mean := fun m : Avo.matrix => np_mean (concat m) in
  let sum := fun m : Avo.matrix => f_sum (concat m) in
  let count := fun m : Avo.matrix => f_of_nat (length m) in
  let one := Avo.mk_gather (Avo.mk_nd 0 0 2) [Avo.mk_header 5 1 1] in
  let two := Avo.mk_gather (Avo.mk_nd 0 0 2) [Avo.mk_header 30 1 1; Avo.mk_header 5 1 1] in
  let run := fun calc g n h =>
               fst (Avo.avo_storage calc g [0; 2] (Avo.BinInt 10) n (Some (0, 1)%Z) (0, 0)
                      None h) in
  (mean (bin_masked 2 (0, 1)%Z (bin_rows [[PInf; Fin 1]] [5] 0 10)) = PInf
   /\ run mean one 1%nat [[[PInf; Fin 1]]] = inr [Fin float_max]
   /\ Fin float_max <> Fin 0)
  /\ (Forall (Forall (fun x => f_is_zero x = true)) (bin_rows [[Fin 0; Fin 0]] [5] 0 10)
      /\ run count one 1%nat [[[Fin 0; Fin 0]]] = inr [Fin 1]
      /\ Fin 1 <> Fin 0)
  /\ (bin_rows [[Fin 1; Fin 1]; [Fin 2; Fin 2]] [30; 5] 0 10 = [[Fin 2; Fin 2]]
      /\ sum (bin_masked 2 (0, 1)%Z [[Fin 2; Fin 2]]) = Fin 4
      /\ run sum two 3%nat [[[Fin 1; Fin 1]; [Fin 2; Fin 2]]] = inr [Fin 2; Fin 0; Fin 0]
      /\ Fin 2 <> Fin 4).
Proof.
  repeat split; try (vm_compute; reflexivity); try discriminate;
    try (repeat constructor).
Qed.

Lemma offset_bin_values_witness :
  let calc := fun m => np_nanmean (concat m) in
  let h := [[[Fin 0; Fin 0; Fin 0]; [Fin 5; PInf; Fin 7]; [Fin 1; Fin 0; Fin 3]]] in
  let g := Avo.mk_gather (Avo.mk_nd 0 0 3)
             [Avo.mk_header 5 1 1; Avo.mk_header 12 1 1; Avo.mk_header 30 1 1] in
  exists storage,
    fst (Avo.avo_storage calc g [0; 2; 4] (Avo.BinInt 10) 5 (Some (0, 1)%Z) (0, 0) None h)
    = inr storage
    /\ length storage = 5%nat.
Proof.
  intros calc h g.
  destruct (offset_bin_values calc g [0; 2; 4] (Avo.BinInt 10) 5 (Some (0, 1)%Z) (0, 0)
              None h 2 (0, 1)%Z [0; 10; 20; 30])
    as [storage [H1 [H2 _]]];
    [ repeat constructor; discriminate | reflexivity | simpl; lia | reflexivity
    | reflexivity | reflexivity | reflexivity | simpl; lia | ].
  exists storage. split; assumption.
Defined.

Lemma update_avo_params_keeps_field_witness :
  let calc := fun m => np_nanmean (concat m) in
  let h := [[[Fin 1; Fin 0; Fin 3]; [Fin 0; Fin 0; Fin 0]; [Fin 5; PInf; Fin 7]]] in
  let g := Avo.mk_gather (Avo.mk_nd 0 0 3)
             [Avo.mk_header 30 1 1; Avo.mk_header 5 1 1; Avo.mk_header 12 1 1] in
  let run := Avo.avo_storage calc g [0; 2; 4] (Avo.BinInt 10) 5 (Some (0, 1)%Z) (0, 0) None in
  Avo.view (Avo.field g) (snd (run h)) = Avo.view (Avo.field g) h
  /\ fst (run (snd (run h))) = fst (run h).
Proof.
  intros calc h g run.
  destruct (update_avo_params_keeps_field calc g [0; 2; 4] (Avo.BinInt 10) 5
              (Some (0, 1)%Z) (0, 0) None h) as [_ [_ [H3 [H4 _]]]];
    [ simpl; lia | ].
  split; assumption.
Defined.

(** ** The linear fit of the picking *)

Section MedianFacts.

Import PM.

Local Open Scope R_scope.

Lemma Rleb_le (x y : R) : Rleb x y = true <-> x <= y.
Proof. unfold Rleb. destruct (Rle_dec x y); split; intros; try discriminate; tauto. Qed.

Lemma Reqb_eq (x y : R) : Reqb x y = true <-> x = y.
Proof. unfold Reqb. destruct (Req_dec_T x y); split; intros; try discriminate; tauto. Qed.

Lemma Rleb_total (x y : R) : Rleb x y = true \/ Rleb y x = true.
Proof. rewrite !Rleb_le. lra. Qed.

Lemma Rleb_trans (x y z : R) : Rleb x y = true -> Rleb y z = true -> Rleb x z = true.
Proof. rewrite !Rleb_le. lra. Qed.

(** The sorted array is in increasing order. *)
Lemma np_sort_Rle (l : list R) : StronglySorted Rle (np_sort Rleb l).
Proof.
  unfold np_sort.
  pose proof (isort_stable Rleb Rleb_total Rleb_trans (enumerate l)
                (enumerate_rising 0 l)) as H.
  induction H as [| x t Ht IH Hx]; simpl; constructor; [exact IH|].
  apply Forall_forall. intros v Hv. apply in_map_iff in Hv. destruct Hv as [y [<- Hy]].
  rewrite Forall_forall in Hx. apply Rleb_le. apply (Hx y Hy).
Qed.

Lemma sorted_around (l1 l2 : list R) (x : R) :
  StronglySorted Rle (l1 ++ x :: l2) ->
  Forall (fun v => v <= x) l1 /\ Forall (fun v => x <= v) l2.
Proof.
  induction l1 as [| v l1 IH]; simpl; intros H; inversion H as [| ? ? Hs Hf]; subst.
  - split; [constructor | exact Hf].
  - destruct (IH Hs) as [H1 H2]. split; [|exact H2]. constructor; [|exact H1].
    rewrite Forall_forall in Hf. apply Hf. apply in_elt.
Qed.

Lemma others_app (a : R) (l1 l2 : list R) :
  others a (l1 ++ l2) = (others a l1 + others a l2)%nat.
Proof. unfold others. rewrite filter_app, length_app. reflexivity. Qed.

Lemma others_all (a : R) (l : list R) :
  Forall (fun v => v <> a) l -> others a l = length l.
Proof.
  unfold others. induction 1 as [| v l Hv Hl IH]; simpl; [reflexivity|].
  destruct (Reqb v a) eqn:E; [apply Reqb_eq in E; contradiction|].
  simpl. rewrite IH. reflexivity.
Qed.

Lemma others_perm (a : R) (l l' : list R) : Permutation l l' -> others a l = others a l'.
Proof.
  intros H. unfold others. apply Permutation_length.
  induction H; simpl.
  - constructor.
  - destruct (negb (Reqb x a)); [constructor|]; assumption.
  - destruct (negb (Reqb x a)), (negb (Reqb y a)); try apply Permutation_refl.
    apply perm_swap.
  - eapply Permutation_trans; eassumption.
Qed.

(** In a sorted array a place with no more than [p] other values before it
    and after it holds [a]. *)
Lemma sorted_middle (s : list R) (a : R) (p : nat) :
  StronglySorted Rle s -> (p < length s)%nat ->
  (others a s <= p)%nat -> (others a s <= length s - 1 - p)%nat ->
  nth p s 0 = a.
Proof.
  intros Hs Hp H1 H2.
  destruct (nth_split s 0 Hp) as [l1 [l2 [Hsplit Hl1]]].
  set (x := nth p s 0) in *.
  assert (Hlen : length s = (p + S (length l2))%nat).
  { rewrite Hsplit at 1. rewrite length_app. simpl. lia. }
  rewrite Hsplit in Hs. destruct (sorted_around l1 l2 x Hs) as [Hlow Hhigh].
  assert (Hcount : others a s = (others a l1 + others a (x :: l2))%nat).
  { rewrite Hsplit at 1. apply others_app. }
  destruct (Rtotal_order x a) as [Hlt | [Heq | Hgt]]; [|exact Heq|]; exfalso.
  - assert (Hall : others a l1 = length l1).
    { apply others_all. eapply Forall_impl; [|exact Hlow]. simpl. intros v Hv. lra. }
    assert (Hx : (1 <= others a (x :: l2))%nat).
    { unfold others. simpl. destruct (Reqb x a) eqn:E; [apply Reqb_eq in E; lra|].
      simpl. lia. }
    lia.
  - assert (Hall : others a (x :: l2) = length (x :: l2)).
    { apply others_all. constructor; [lra|].
      eapply Forall_impl; [|exact Hhigh]. simpl. intros v Hv. lra. }
    simpl in Hall. lia.
Qed.

(** The median of an array most of whose values are [a] is [a]. *)
Lemma np_median_most (l : list R) (a : R) :
  l <> [] -> (others a l <= (length l - 1) / 2)%nat -> np_median l = Some a.
Proof.
  intros Hne Hc. unfold np_median.
  pose proof (np_sort_Rle l) as Hs.
  pose proof (np_sort_length Rleb l) as Hl.
  rewrite (others_perm a _ _ (Permutation_sym (np_sort_perm Rleb l))) in Hc.
  assert (Hn : (0 < length l)%nat) by (destruct l; [contradiction | simpl; lia]).
  remember (np_sort Rleb l) as s eqn:Es. remember (length l) as n eqn:En.
  clear Es En Hne l.
  destruct (Nat.eqb n 0) eqn:E0; [apply Nat.eqb_eq in E0; lia|].
  destruct (Nat.even n) eqn:Ev.
  - apply Nat.even_spec in Ev. destruct Ev as [m ->].
    assert (Hh : ((2 * m) / 2 = m)%nat)
      by (symmetry; apply (Nat.div_unique _ 2 _ 0); lia).
    assert (Hc' : ((2 * m - 1) / 2 = m - 1)%nat)
      by (symmetry; apply (Nat.div_unique _ 2 _ 1); lia).
    rewrite Hh. rewrite Hc' in Hc.
    rewrite (sorted_middle s a (m - 1) Hs) by lia.
    rewrite (sorted_middle s a m Hs) by lia.
    f_equal. lra.
  - assert (Hodd : Nat.odd n = true) by (unfold Nat.odd; rewrite Ev; reflexivity).
    apply Nat.odd_spec in Hodd. destruct Hodd as [m ->].
    assert (Hh : ((2 * m + 1) / 2 = m)%nat)
      by (symmetry; apply (Nat.div_unique _ 2 _ 1); lia).
    assert (Hc' : ((2 * m + 1 - 1) / 2 = m)%nat)
      by (symmetry; apply (Nat.div_unique _ 2 _ 0); lia).
    rewrite Hh. rewrite Hc' in Hc.
    rewrite (sorted_middle s a m Hs) by lia. reflexivity.
Qed.

End MedianFacts.

Section SiegelFacts.

Import PM.

Local Open Scope R_scope.

Lemma list_pointwise (l : list R) (n : nat) (F : nat -> R) :
  length l = n -> (forall k, (k < n)%nat -> nth k l 0 = F k) -> l = map F (seq 0 n).
Proof.
  intros Hl HF. apply (nth_ext _ _ 0 (F 0%nat)).
  - rewrite length_map, length_seq. exact Hl.
  - intros k Hk. rewrite Hl in Hk. rewrite HF by exact Hk.
    rewrite map_nth, seq_nth by exact Hk. reflexivity.
Qed.

Lemma list_by_index (l : list R) : l = map (fun k => nth k l 0) (seq 0 (length l)).
Proof. apply list_pointwise; [reflexivity | intros; reflexivity]. Qed.

Lemma map2_map_same {A B C D : Type} (f : B -> C -> D) (g : A -> B) (h : A -> C)
    (l : list A) :
  map2 f (map g l) (map h l) = map (fun k => f (g k) (h k)) l.
Proof. induction l as [| x l IH]; simpl; [reflexivity|]. rewrite IH. reflexivity. Qed.

Lemma map2_by_index (f : R -> R -> R) (a b : list R) :
  length b = length a ->
  map2 f a b = map (fun k => f (nth k a 0) (nth k b 0)) (seq 0 (length a)).
Proof.
  intros H. rewrite <- map2_map_same. f_equal; [apply list_by_index|].
  rewrite <- H. apply list_by_index.
Qed.

(** The slopes at a point, by the index of the other point. *)
Lemma slopes_of_index (X Y : nat -> R) (idx : list nat) (yj xj : R) :
  slopes_of (map Y idx) (map X idx) yj xj
  = map (fun k => (yj - Y k) / (xj - X k))
        (filter (fun k => negb (Reqb (xj - X k) 0)) idx).
Proof.
  unfold slopes_of. rewrite !map_map, select_map2, map2_map_same, select_map_map.
  reflexivity.
Qed.

Lemma filter_map_length {A B : Type} (p : B -> bool) (g : A -> B) (l : list A) :
  length (filter p (map g l)) = length (filter (fun x => p (g x)) l).
Proof.
  induction l as [| x l IH]; simpl; [reflexivity|].
  destruct (p (g x)); simpl; rewrite IH; reflexivity.
Qed.

(** The values other than [a] come from the places in [bad]. *)
Lemma others_index (g : nat -> R) (idx bad : list nat) (a : R) :
  NoDup idx -> (forall k, In k idx -> ~ In k bad -> g k = a) ->
  (others a (map g idx) <= length bad)%nat.
Proof.
  intros Hnd Hg. unfold others. rewrite filter_map_length.
  apply NoDup_incl_length; [apply NoDup_filter; exact Hnd|].
  intros k Hk. apply filter_In in Hk. destruct Hk as [Hin Hne].
  destruct (in_dec Nat.eq_dec k bad) as [Hb | Hb]; [exact Hb|].
  rewrite (Hg k Hin Hb) in Hne.
  assert (E : Reqb a a = true) by (apply Reqb_eq; reflexivity).
  rewrite E in Hne. discriminate.
Qed.

Lemma all_values_map (F : nat -> option R) (G : nat -> R) (idx : list nat) :
  (forall k, In k idx -> F k = Some (G k)) -> all_values (map F idx) = Some (map G idx).
Proof.
  induction idx as [| k idx IH]; simpl; intros H; [reflexivity|].
  rewrite (H k) by (left; reflexivity). rewrite IH by (intros; apply H; right; assumption).
  reflexivity.
Qed.

Lemma all_values_nth (l : list (option R)) (s : list R) :
  all_values l = Some s ->
  length s = length l /\ forall j, (j < length l)%nat -> nth j l None = Some (nth j s 0).
Proof.
  revert s. induction l as [| [v |] l IH]; simpl; intros s H; try discriminate.
  - inversion H; subst. split; [reflexivity|]. intros j Hj. lia.
  - destruct (all_values l) as [t |]; simpl in H; [|discriminate].
    inversion H; subst. destruct (IH t eq_refl) as [Hl Hn]. split; [simpl; lia|].
    intros [| j] Hj; simpl; [reflexivity|]. apply Hn. lia.
Qed.

Lemma np_median_some (l : list R) : l <> [] -> exists v, np_median l = Some v.
Proof.
  intros H. unfold np_median. destruct l as [| x l]; [contradiction|]. simpl length.
  destruct (Nat.eqb (S (length l)) 0) eqn:E; [apply Nat.eqb_eq in E; lia|].
  destruct (Nat.even (S (length l))); eauto.
Qed.

(** All the indices of [seq 0 n] but [j] at most pass a test that only [j]
    may fail. *)
Lemma filter_but_one (p : nat -> bool) (n j : nat) :
  (forall k, (k < n)%nat -> k <> j -> p k = true) ->
  (n <= length (filter p (seq 0 n)) + 1)%nat.
Proof.
  intros H. pose proof (filter_length p (seq 0 n)) as Hl. rewrite length_seq in Hl.
  assert (Hone : (length (filter (fun x => negb (p x)) (seq 0 n)) <= length [j])%nat).
  { apply NoDup_incl_length; [apply NoDup_filter, seq_NoDup|].
    intros k Hk. apply filter_In in Hk. destruct Hk as [Hin Hp].
    apply in_seq in Hin. destruct (Nat.eq_dec k j) as [-> | Hkj]; [left; reflexivity|].
    rewrite (H k) in Hp by (lia || assumption). discriminate. }
  simpl in Hone. lia.
Qed.

(** When all the points but those of [bad] lie on the line
    [y = a * x + b], the abscissas differ and the points of [bad] are fewer
    than half of the others, the fit is the line. *)
Lemma siegelslopes_index (X Y : nat -> R) (n : nat) (a b : R) (bad : list nat) :
  (forall j k, (j < n)%nat -> (k < n)%nat -> X j = X k -> j = k) ->
  (forall k, (k < n)%nat -> ~ In k bad -> Y k = a * X k + b) ->
  (2 * length bad + 2 <= n)%nat ->
  siegelslopes (map Y (seq 0 n)) (map X (seq 0 n)) = inr (Some (a, b)).
Proof.
  intros Hinj Hline Hn. unfold siegelslopes.
  rewrite !length_map, Nat.eqb_refl. cbn [negb].
  rewrite map2_map_same.
  set (S := fun j => map (fun k => (Y j - Y k) / (X j - X k))
                       (filter (fun k => negb (Reqb (X j - X k) 0)) (seq 0 n))).
  rewrite (map_ext _ (fun j => np_median (S j)))
    by (intros j; rewrite slopes_of_index; reflexivity).
  set (G := fun j => match np_median (S j) with Some v => v | None => 0 end).
  assert (Hpass : forall j k, (j < n)%nat -> (k < n)%nat -> k <> j ->
                    negb (Reqb (X j - X k) 0) = true).
  { intros j k Hj Hk Hkj. destruct (Reqb (X j - X k) 0) eqn:E; [|reflexivity].
    apply Reqb_eq in E. exfalso. apply Hkj. symmetry. apply Hinj; [assumption..|lra]. }
  assert (Hlen : forall j, (j < n)%nat -> (n <= length (S j) + 1)%nat).
  { intros j Hj. unfold S. rewrite length_map. apply (filter_but_one _ n j).
    intros k Hk Hkj. apply Hpass; assumption. }
  assert (Hsome : forall j, In j (seq 0 n) -> np_median (S j) = Some (G j)).
  { intros j Hj. apply in_seq in Hj.
    destruct (np_median_some (S j)) as [v Hv].
    - intros E. specialize (Hlen j ltac:(lia)). rewrite E in Hlen. simpl in Hlen. lia.
    - unfold G. rewrite Hv. reflexivity. }
  rewrite (all_values_map _ G _ Hsome).
  assert (Hhalf : forall m, (n <= m + 1)%nat -> (length bad <= (m - 1) / 2)%nat).
  { intros m Hm. apply Nat.div_le_lower_bound; lia. }
  assert (Hgood : forall j, In j (seq 0 n) -> ~ In j bad -> G j = a).
  { intros j Hj Hjb. apply in_seq in Hj.
    assert (Hmed : np_median (S j) = Some a).
    { apply np_median_most.
      - intros E. specialize (Hlen j ltac:(lia)). rewrite E in Hlen. simpl in Hlen. lia.
      - apply Nat.le_trans with (length bad); [|apply Hhalf, Hlen; lia].
        unfold S. apply others_index; [apply NoDup_filter, seq_NoDup|].
        intros k Hk Hkb. apply filter_In in Hk. destruct Hk as [Hk Hne].
        apply in_seq in Hk. rewrite (Hline j), (Hline k) by (lia || assumption).
        destruct (Reqb (X j - X k) 0) eqn:E; [discriminate|].
        assert (X j - X k <> 0) by (intros H0; apply Reqb_eq in H0; congruence).
        field. assumption. }
    unfold G. rewrite Hmed. reflexivity. }
  rewrite (np_median_most (map G (seq 0 n)) a).
  - rewrite map2_map_same.
    rewrite (np_median_most (map (fun k => Y k - a * X k) (seq 0 n)) b); [reflexivity | |].
    + destruct n as [| n']; [lia | simpl; discriminate].
    + rewrite length_map, length_seq.
      apply Nat.le_trans with (length bad); [|apply Hhalf; lia].
      apply others_index; [apply seq_NoDup|].
      intros k Hk Hkb. apply in_seq in Hk. rewrite (Hline k) by (lia || assumption). lra.
  - destruct n as [| n']; [lia | simpl; discriminate].
  - rewrite length_map, length_seq.
    apply Nat.le_trans with (length bad); [|apply Hhalf; lia].
    apply others_index; [apply seq_NoDup | exact Hgood].
Qed.

(** The fit is robust: traces off the line, fewer than half of the others,
    do not move it. *)
Lemma siegelslopes_robust (time offset : list R) (a b : R) (bad : list nat) :
  length offset = length time -> NoDup offset ->
  (forall k, (k < length time)%nat -> ~ In k bad ->
     nth k time 0 = a * nth k offset 0 + b) ->
  (2 * length bad + 2 <= length time)%nat ->
  siegelslopes time offset = inr (Some (a, b)).
Proof.
  intros Hl Hnd Hline Hn.
  rewrite (list_by_index time), (list_by_index offset), Hl.
  apply (siegelslopes_index (fun k => nth k offset 0) (fun k => nth k time 0)
           (length time) a b bad); [|exact Hline | exact Hn].
  intros j k Hj Hk E. rewrite <- Hl in Hj, Hk.
  exact (proj1 (NoDup_nth offset 0) Hnd j k Hj Hk E).
Qed.

Lemma slopes_of_pairwise (time offset : list R) (j : nat) :
  length offset = length time ->
  slopes_of time offset (nth j time 0) (nth j offset 0) = pairwise_slopes time offset j.
Proof.
  intros Hl.
  transitivity (slopes_of (map (fun k => nth k time 0) (seq 0 (length offset)))
                  (map (fun k => nth k offset 0) (seq 0 (length offset)))
                  (nth j time 0) (nth j offset 0)).
  - f_equal; [rewrite Hl|]; apply list_by_index.
  - rewrite slopes_of_index. unfold pairwise_slopes.
    rewrite (filter_ext _ (fun k => negb (Reqb (nth k offset 0) (nth j offset 0)))).
    + apply map_ext_in. intros k Hk. apply filter_In in Hk. destruct Hk as [_ Hk].
      destruct (Reqb (nth k offset 0) (nth j offset 0)) eqn:E; [discriminate|].
      assert (nth k offset 0 <> nth j offset 0)
        by (intros H0; apply Reqb_eq in H0; congruence).
      field. split; lra.
    + intros k. f_equal.
      destruct (Reqb (nth j offset 0 - nth k offset 0) 0) eqn:E1;
        destruct (Reqb (nth k offset 0) (nth j offset 0)) eqn:E2; try reflexivity.
      * apply Reqb_eq in E1. assert (E : nth k offset 0 = nth j offset 0) by lra.
        apply Reqb_eq in E. congruence.
      * apply Reqb_eq in E2. assert (E : nth j offset 0 - nth k offset 0 = 0) by lra.
        apply Reqb_eq in E. congruence.
Qed.

(** What [siegelslopes] returns is the fit by repeated medians. *)
Lemma siegelslopes_repeated_medians (time offset : list R) (slope intercept : R) :
  siegelslopes time offset = inr (Some (slope, intercept)) ->
  length offset = length time /\ repeated_medians time offset slope intercept.
Proof.
  unfold siegelslopes. intros H.
  destruct (Nat.eqb (length offset) (length time)) eqn:El; [|discriminate].
  apply Nat.eqb_eq in El. cbn [negb] in H. split; [exact El|].
  destruct (all_values _) as [s |] eqn:Es; [|discriminate].
  destruct (np_median s) as [medslope |] eqn:Em; [|discriminate].
  destruct (np_median (map2 _ time offset)) as [medinter |] eqn:Ei; [|discriminate].
  inversion H; subst medslope medinter. clear H.
  apply all_values_nth in Es. destruct Es as [Hs Hnth].
  rewrite map2_length in Hs, Hnth by (symmetry; exact El).
  exists s. split; [lia|]. split; [|split; [exact Em|]].
  - intros j Hj. rewrite <- slopes_of_pairwise by exact El.
    rewrite <- Hnth by lia.
    rewrite (nth_map2 (fun yj xj => np_median (slopes_of time offset yj xj)) time offset
               0 0 None j) by lia.
    reflexivity.
  - rewrite map2_by_index in Ei by exact El. rewrite El. exact Ei.
Qed.

End SiegelFacts.

Section LinearDiffFacts.

Import PM.

Local Open Scope R_scope.

Lemma conforms_map (n : nat) (f : R -> R) (a : nd) :
  conforms n a -> conforms n (nd_map f a) /\ forall k, (k < n)%nat -> nd_at (nd_map f a) k = f (nd_at a k).
Proof.
  destruct a as [x | l]; simpl; intros H.
  - split; [exact I | reflexivity].
  - split; [rewrite length_map; exact H|]. intros k Hk.
    rewrite (nth_indep _ 0 (f 0)) by (rewrite length_map; lia). apply map_nth.
Qed.

Lemma nth_map_R (f : R -> R) (l : list R) (k : nat) :
  (k < length l)%nat -> nth k (map f l) 0 = f (nth k l 0).
Proof.
  intros H. rewrite (nth_indep _ 0 (f 0)) by (rewrite length_map; exact H). apply map_nth.
Qed.

(** Broadcasting two components that fit the gather is the operation trace
    by trace. *)
Lemma broadcast_conforms (n : nat) (f : R -> R -> R) (a b : nd) :
  conforms n a -> conforms n b ->
  exists c, broadcast f a b = inr c /\ conforms n c
            /\ ((exists l, a = Arr l) -> exists l', c = Arr l')
            /\ forall k, (k < n)%nat -> nd_at c k = f (nd_at a k) (nd_at b k).
Proof.
  destruct a as [x | l1]; destruct b as [y | l2]; simpl; intros Ha Hb.
  - exists (Scalar (f x y)). repeat split; auto. intros [l Hl]. discriminate.
  - exists (Arr (map (f x) l2)). split; [reflexivity|]. split; [simpl; rewrite length_map; exact Hb|].
    split; [eauto|]. intros k Hk. simpl. apply nth_map_R. lia.
  - exists (Arr (map (fun x0 => f x0 y) l1)). split; [reflexivity|].
    split; [simpl; rewrite length_map; exact Ha|]. split; [eauto|].
    intros k Hk. simpl. apply (nth_map_R (fun x0 => f x0 y)). lia.
  - rewrite Ha, Hb, Nat.eqb_refl. exists (Arr (map2 f l1 l2)). split; [reflexivity|].
    split; [simpl; rewrite map2_length by lia; exact Ha|]. split; [eauto|].
    intros k Hk. simpl. apply nth_map2; lia.
Qed.

Lemma np_mean_arr (n : nat) (c : nd) (F : nat -> R) :
  (exists l, c = Arr l) -> conforms n c ->
  (forall k, (k < n)%nat -> nd_at c k = F k) ->
  np_mean c = mean_over n F.
Proof.
  intros [l ->] Hc HF. simpl in *. unfold mean_over.
  rewrite (list_pointwise l n F Hc HF) at 1. rewrite Hc. reflexivity.
Qed.

Lemma distance3_spec (gx gy sx sy s_elev g_elev : nd) (k : nat) :
  0 <= distance3 gx gy sx sy s_elev g_elev k
  /\ distance3 gx gy sx sy s_elev g_elev k ^ 2
     = (nd_at gx k - nd_at sx k) ^ 2 + (nd_at gy k - nd_at sy k) ^ 2
       + (nd_at s_elev k - nd_at g_elev k) ^ 2.
Proof.
  unfold distance3. split; [apply sqrt_pos|].
  rewrite <- Rsqr_pow2. apply Rsqr_sqrt.
  pose proof (pow2_ge_0 (nd_at gx k - nd_at sx k)).
  pose proof (pow2_ge_0 (nd_at gy k - nd_at sy k)).
  pose proof (pow2_ge_0 (nd_at s_elev k - nd_at g_elev k)). lra.
Qed.

(** Least squares on four traces, three of them on the line
    [time = offset]. *)
Lemma least_squares_pulled :
  least_squares [0; 1; 2; 30] [0; 1; 2; 3] = (91 / 10, - (27 / 5)).
Proof. unfold least_squares. simpl. f_equal; field. Qed.

(** C6.  For a gather of [n >= 1] traces whose geometry components are
    scalars or arrays of [n] values, with [(slope, intercept)] what
    [siegelslopes(time, offset)] returns:
    - the two outputs are the mean over the traces of
      [|offset * slope + intercept - time|] and the mean over the traces of
      [|(offset - d) * slope|], [d] being the distance in space of source and
      receiver: [d >= 0] and
      [d^2 = (gx - sx)^2 + (gy - sy)^2 + (s_elev - g_elev)^2];
    - the fit is the one by repeated medians: the slope is the median over
      the traces of the median of the pairwise slopes of the trace, the
      intercept the median of [time - slope * offset];
    - the fit is robust: when the offsets differ and all the traces but some,
      fewer than half of the others, lie on a line [time = a * offset + b],
      the fit is that line;
    - the fit is not the one by least squares: for the offsets [0, 1, 2, 3]
      and the times [0, 1, 2, 30] it is the line [time = offset] of the first
      three traces, and least squares give the slope [9.1] and the intercept
      [-5.4]. *)
Theorem linear_diff_outputs (time offset : list R) (gx gy sx sy s_elev g_elev : nd)
    (slope intercept : R) :
  let n := length time in
  let d := distance3 gx gy sx sy s_elev g_elev in
  (0 < n)%nat -> length offset = n ->
  conforms n gx -> conforms n gy -> conforms n sx -> conforms n sy ->
  conforms n s_elev -> conforms n g_elev ->
  siegelslopes time offset = inr (Some (slope, intercept)) ->
  linear_diff time offset gx gy sx sy s_elev g_elev
  = inr (Some (mean_over n (fun k => Rabs (nth k offset 0 * slope + intercept
                                           - nth k time 0)),
               mean_over n (fun k => Rabs ((nth k offset 0 - d k) * slope))))
  /\ (forall k,
        0 <= d k
        /\ d k ^ 2 = (nd_at gx k - nd_at sx k) ^ 2 + (nd_at gy k - nd_at sy k) ^ 2
                     + (nd_at s_elev k - nd_at g_elev k) ^ 2)
  /\ repeated_medians time offset slope intercept
  /\ (forall (a b : R) (bad : list nat),
        NoDup offset ->
        (forall k, (k < n)%nat -> ~ In k bad -> nth k time 0 = a * nth k offset 0 + b) ->
        (2 * length bad + 2 <= n)%nat ->
        slope = a /\ intercept = b)
  /\ (siegelslopes [0; 1; 2; 30] [0; 1; 2; 3] = inr (Some (1, 0))
      /\ least_squares [0; 1; 2; 30] [0; 1; 2; 3] = (91 / 10, - (27 / 5))).
Proof.
  intros n d Hn Ho Hgx Hgy Hsx Hsy Hse Hge Hfit.
  split; [|split; [intros k; apply distance3_spec|split; [|split; [|split]]]].
  - unfold linear_diff.
    destruct (broadcast_conforms n Rminus gx sx Hgx Hsx) as [dx [-> [Hdx [_ Pdx]]]].
    destruct (broadcast_conforms n Rminus gy sy Hgy Hsy) as [dy [-> [Hdy [_ Pdy]]]].
    destruct (broadcast_conforms n Rminus s_elev g_elev Hse Hge) as [dz [-> [Hdz [_ Pdz]]]].
    cbn [bind].
    destruct (conforms_map n sq dx Hdx) as [Hdx2 Pdx2].
    destruct (conforms_map n sq dy Hdy) as [Hdy2 Pdy2].
    destruct (conforms_map n sq dz Hdz) as [Hdz2 Pdz2].
    destruct (broadcast_conforms n Rplus _ _ Hdx2 Hdy2) as [dxy [-> [Hdxy [_ Pdxy]]]].
    cbn [bind].
    destruct (broadcast_conforms n Rplus _ _ Hdxy Hdz2) as [d2 [-> [Hd2 [_ Pd2]]]].
    cbn [bind]. rewrite Hfit. cbn [bind].
    destruct (conforms_map n sqrt d2 Hd2) as [Hall Pall].
    assert (Hfitted : conforms n (Arr (map (fun o => o * slope + intercept) offset)))
      by (simpl; rewrite length_map; exact Ho).
    assert (Htime : conforms n (Arr time)) by reflexivity.
    destruct (broadcast_conforms n Rminus _ _ Hfitted Htime) as [v [-> [Hv [Av Pv]]]].
    cbn [bind].
    assert (Hoff : conforms n (Arr offset)) by exact Ho.
    destruct (broadcast_conforms n Rminus _ _ Hoff Hall) as [od [-> [Hod [Aod Pod]]]].
    cbn [bind].
    destruct (conforms_map n Rabs v Hv) as [Hva Pva].
    destruct (conforms_map n (fun x => Rabs (x * slope)) od Hod) as [Hoa Poa].
    f_equal. f_equal. f_equal.
    + apply np_mean_arr; [|exact Hva|].
      * destruct Av as [l ->]; [eauto|]. simpl. eauto.
      * intros k Hk. rewrite Pva, Pv by exact Hk. simpl.
        rewrite (nth_map_R (fun o => o * slope + intercept)) by lia. reflexivity.
    + apply np_mean_arr; [|exact Hoa|].
      * destruct Aod as [l ->]; [eauto|]. simpl. eauto.
      * intros k Hk. rewrite Poa, Pod, Pall, Pd2, Pdxy, Pdx2, Pdy2, Pdz2, Pdx, Pdy, Pdz
          by exact Hk. reflexivity.
  - apply (siegelslopes_repeated_medians time offset slope intercept Hfit).
  - intros a b bad Hnd Hline Hbad.
    pose proof (siegelslopes_robust time offset a b bad Ho Hnd Hline Hbad) as H.
    rewrite Hfit in H. inversion H. split; reflexivity.
  - apply (siegelslopes_robust [0; 1; 2; 30] [0; 1; 2; 3] 1 0 [3%nat]).
    + reflexivity.
    + repeat constructor; simpl; intros H; intuition lra.
    + intros k Hk Hb. simpl in Hk.
      destruct k as [| [| [| [| k]]]]; simpl; try lra; try lia.
      exfalso. apply Hb. left. reflexivity.
    + simpl. lia.
  - apply least_squares_pulled.
Qed.

End LinearDiffFacts.

(** Two traces, [time = [3, 5]] against [offset = [1, 2]]: the line through
    the two points has the slope [2] and the intercept [1]. *)
Lemma linear_diff_outputs_witness :
  PM.linear_diff [3%R; 5%R] [1%R; 2%R] (PM.Arr [0%R; 3%R]) (PM.Scalar 0%R)
    (PM.Scalar 0%R) (PM.Scalar 0%R) (PM.Scalar 4%R) (PM.Scalar 0%R)
  = inr (Some
      (mean_over 2 (fun k => Rabs (nth k [1%R; 2%R] 0%R * 2 + 1 - nth k [3%R; 5%R] 0%R)),
       mean_over 2
         (fun k => Rabs ((nth k [1%R; 2%R] 0%R
                          - distance3 (PM.Arr [0%R; 3%R]) (PM.Scalar 0%R) (PM.Scalar 0%R)
                              (PM.Scalar 0%R) (PM.Scalar 4%R) (PM.Scalar 0%R) k) * 2))))%R.
Proof.
  destruct (linear_diff_outputs [3%R; 5%R] [1%R; 2%R] (PM.Arr [0%R; 3%R]) (PM.Scalar 0%R)
              (PM.Scalar 0%R) (PM.Scalar 0%R) (PM.Scalar 4%R) (PM.Scalar 0%R) 2%R 1%R)
    as [H _].
  - simpl; lia.
  - reflexivity.
  - reflexivity.
  - exact I.
  - exact I.
  - exact I.
  - exact I.
  - exact I.
  - apply (siegelslopes_robust [3%R; 5%R] [1%R; 2%R] 2%R 1%R []).
    + reflexivity.
    + repeat constructor; simpl; intros H; intuition lra.
    + intros k Hk _. simpl in Hk. destruct k as [| [| k]]; simpl; try lra; lia.
    + simpl; lia.
  - exact H.
Defined.

(** * Further properties *)

(** ** The samples a map is built with *)

Section BuildInvariants.

Import MetricsMap.

Lemma build_maps_list (coords : list coord) (values : list f64) :
  maps_list (build coords values)
  = map (fun cv => mk_sample (fst (fst cv)) (snd (fst cv)) (snd cv))
        (combine (first_occurrences coords) values).
Proof.
  unfold maps_list, build, __init__.
  pose proof (unique_coords_first_occurrences coords) as H.
  destruct (np_unique coords) as [unique_coords position]. simpl in H.
  cbn [_maps_list]. rewrite H. reflexivity.
Qed.

Lemma coords_of_build (coords : list coord) (values : list f64) :
  coords_of (build coords values)
  = firstn (length values) (first_occurrences coords).
Proof.
  unfold coords_of. rewrite build_maps_list, map_map. simpl.
  generalize (first_occurrences coords) as l. intros l. revert values.
  induction l as [| [x y] l IH]; intros [| v values]; simpl; try reflexivity.
  rewrite IH. reflexivity.
Qed.

Lemma coord_eqb_refl (a : coord) : coord_eqb a a = true.
Proof. apply coord_eqb_leb. split; apply (leb_refl coord_leb coord_leb_total). Qed.

Lemma coord_eqb_sym (a b : coord) : coord_eqb a b = coord_eqb b a.
Proof. apply (eqb_sym coord_leb coord_eqb coord_eqb_leb). Qed.

Lemma coord_eqb_trans (a b c : coord) :
  coord_eqb a b = true -> coord_eqb b c = true -> coord_eqb a c = true.
Proof. apply (eqb_trans coord_leb coord_eqb coord_leb_trans coord_eqb_leb). Qed.

Lemma ForallOrdPairs_filter {A : Type} (R : A -> A -> Prop) (p : A -> bool) (l : list A) :
  ForallOrdPairs R l -> ForallOrdPairs R (filter p l).
Proof.
  intros H. induction H as [| a l Ha Hl IH]; simpl; [constructor|].
  destruct (p a); [|exact IH]. constructor; [|exact IH].
  rewrite Forall_forall in *. intros x Hx. apply filter_In in Hx. apply Ha, Hx.
Qed.

Lemma ForallOrdPairs_firstn {A : Type} (R : A -> A -> Prop) (n : nat) (l : list A) :
  ForallOrdPairs R l -> ForallOrdPairs R (firstn n l).
Proof.
  intros H. revert n. induction H as [| a l Ha Hl IH]; intros [| n]; simpl;
    try constructor; [|apply IH].
  rewrite Forall_forall in *. intros x Hx. apply Ha.
  rewrite <- (firstn_skipn n l). apply in_or_app. left. exact Hx.
Qed.

Lemma first_occurrences_distinct (l : list coord) : distinct_coords (first_occurrences l).
Proof.
  unfold distinct_coords. induction l as [| c t IH]; simpl; [constructor|].
  constructor; [|apply ForallOrdPairs_filter, IH].
  apply Forall_forall. intros x Hx. apply filter_In in Hx. destruct Hx as [_ Hx].
  apply negb_true_iff in Hx. exact Hx.
Qed.

Lemma first_occurrences_incl (l : list coord) (c : coord) :
  In c (first_occurrences l) -> In c l.
Proof.
  induction l as [| c0 t IH]; simpl; [tauto|]. intros [H | H]; [left; exact H|].
  apply filter_In in H. right. apply IH, H.
Qed.

Lemma first_occurrences_cover (l : list coord) (c : coord) :
  In c l -> exists c', In c' (first_occurrences l) /\ coord_eqb c c' = true.
Proof.
  induction l as [| c0 t IH]; simpl; [tauto|]. intros [-> | H].
  - exists c. split; [left; reflexivity | apply coord_eqb_refl].
  - destruct (IH H) as [c' [Hin He]].
    destruct (coord_eqb c' c0) eqn:E.
    + exists c0. split; [left; reflexivity | apply (coord_eqb_trans _ c'); assumption].
    + exists c'. split; [|exact He]. right. apply filter_In. split; [exact Hin|].
      rewrite E. reflexivity.
Qed.

Lemma first_occurrences_id (l : list coord) :
  distinct_coords l -> first_occurrences l = l.
Proof.
  unfold distinct_coords. intros H. induction H as [| c t Hc Ht IH]; simpl; [reflexivity|].
  rewrite IH. f_equal. rewrite Forall_forall in Hc.
  clear IH Ht. induction t as [| x t IHt]; simpl; [reflexivity|].
  rewrite (Hc x (or_introl eq_refl)). simpl. f_equal.
  apply IHt. intros y Hy. apply Hc. right. exact Hy.
Qed.

(** X1.  The constructor never keeps one coordinate twice; every coordinate
    it keeps is one of the input; it keeps as many samples as there are
    values or distinct coordinates, whichever is fewer, without an error for
    a mismatch; and with values enough every input coordinate is there. *)
Theorem build_keeps_distinct (coords : list coord) (values : list f64) :
  distinct_coords (coords_of (build coords values))
  /\ (forall c, In c (coords_of (build coords values)) -> In c coords)
  /\ length (maps_list (build coords values))
     = Nat.min (length values) (length (first_occurrences coords))
  /\ ((length (first_occurrences coords) <= length values)%nat ->
      forall c, In c coords ->
        exists c', In c' (coords_of (build coords values)) /\ coord_eqb c c' = true).
Proof.
  rewrite coords_of_build. split; [|split; [|split]].
  - apply ForallOrdPairs_firstn, first_occurrences_distinct.
  - intros c Hc. apply first_occurrences_incl.
    rewrite <- (firstn_skipn (length values) (first_occurrences coords)).
    apply in_or_app. left. exact Hc.
  - pose proof (coords_of_build coords values) as H. unfold coords_of in H.
    apply (f_equal (@length coord)) in H. rewrite length_map, length_firstn in H. exact H.
  - intros Hlen c Hc. rewrite firstn_all2 by exact Hlen.
    apply first_occurrences_cover. exact Hc.
Qed.

(** X2.  When no coordinate repeats the constructor pairs the coordinates
    with the values as they come. *)
Theorem build_without_repeats (coords : list coord) (values : list f64) :
  distinct_coords coords ->
  maps_list (build coords values)
  = map (fun cv => mk_sample (fst (fst cv)) (snd (fst cv)) (snd cv)) (combine coords values).
Proof.
  intros H. rewrite build_maps_list, first_occurrences_id by exact H. reflexivity.
Qed.

End BuildInvariants.

Lemma build_without_repeats_witness :
  MetricsMap.maps_list (MetricsMap.build [(3, 1); (0, 0); (3, 2)] [Fin 7; Fin 8; Fin 9])
  = [MetricsMap.mk_sample 3 1 (Fin 7); MetricsMap.mk_sample 0 0 (Fin 8);
     MetricsMap.mk_sample 3 2 (Fin 9)].
Proof.
  apply (build_without_repeats [(3, 1); (0, 0); (3, 2)] [Fin 7; Fin 8; Fin 9]).
  repeat constructor.
Defined.

(** ** The grid at its edges *)

Section GridEdges.

Import BinGrid.

Lemma mask_sum_neg (coords_x coords_y : list Q) (rx ry b : Q) :
  length coords_y = length coords_x -> b <= 0 ->
  mask_sum (cell_mask coords_x coords_y rx ry b) = 0%nat.
Proof.
  intros Hlen Hb. rewrite cell_mask_pointwise by exact Hlen. clear Hlen.
  unfold mask_sum. revert coords_y.
  induction coords_x as [| x xs IH]; intros [| y ys]; simpl; try reflexivity.
  destruct (Qle_bool 0 (f64_sub x rx)) eqn:E1; simpl; [|apply IH].
  destruct (Qlt_bool (f64_sub x rx) b) eqn:E2; simpl; [|apply IH].
  apply Qle_bool_iff in E1. apply Qlt_bool_iff in E2. exfalso. Lqa.lra.
Qed.

Lemma fold_left_id {S C : Type} (f : S -> C -> S) (l : list C) (g : S) :
  (forall c g0, In c l -> f g0 c = g0) -> fold_left f l g = g.
Proof.
  intros H. induction l as [| c l IH]; simpl; [reflexivity|].
  rewrite H by (left; reflexivity). apply IH. intros c' g0 Hc. apply H. right. exact Hc.
Qed.

(** X3.  The grid of no samples cannot be built ([ValueError]); with a zero
    [bin_size] the call fails, no grid is returned; with a negative
    [bin_size] no sample is in any cell and every cell of the grid is
    not-a-number. *)
Theorem construct_metrics_map_edges (coords_x coords_y : list Q) (metrics : list f64)
    (bin_size : Q) :
  (coords_x = [] -> construct_metrics_map coords_x coords_y metrics bin_size = inl ValueError)
  /\ (coords_x <> [] -> bin_size == 0 ->
      exists e, construct_metrics_map coords_x coords_y metrics bin_size = inl e)
  /\ (coords_x <> [] -> length coords_y = length coords_x -> bin_size < 0 ->
      exists grid,
        construct_metrics_map coords_x coords_y metrics bin_size = inr grid
        /\ forall j i, get_cell j i grid = NaN).
Proof.
  split; [|split].
  - intros ->. reflexivity.
  - intros Hx Hb. unfold construct_metrics_map.
    destruct (np_min_max_bounds coords_x Hx) as [xmin [xmax [-> [-> _]]]].
    cbn [bind]. unfold arange64.
    apply Qeq_bool_iff in Hb. rewrite Hb. eexists. reflexivity.
  - intros Hx Hlen Hb.
    assert (Hy : coords_y <> []) by (destruct coords_y, coords_x; simpl in *; congruence).
    unfold construct_metrics_map.
    destruct (np_min_max_bounds coords_x Hx) as [xmin [xmax [-> [-> _]]]].
    destruct (np_min_max_bounds coords_y Hy) as [ymin [ymax [-> [-> _]]]].
    cbn [bind].
    assert (Hnz : ~ bin_size == 0) by Lqa.lra.
    destruct (arange64_nonzero xmin (f64_add xmax bin_size) bin_size Hnz) as [range_x ->].
    destruct (arange64_nonzero ymin (f64_add ymax bin_size) bin_size Hnz) as [range_y ->].
    cbn [bind]. eexists. split; [reflexivity|].
    intros j i. rewrite fold_left_id.
    + apply get_full_nan.
    + intros c g0 _. apply fold_left_id. intros c' g1 _. unfold cell_step.
      rewrite mask_sum_neg by (exact Hlen || Lqa.lra). reflexivity.
Qed.

End GridEdges.

(** ** The window taken from a horizon *)

Section AvoEdges.

Import Avo.

Variable calc_method : matrix -> f64.

(** *** The horizon *)

Lemma filter_none {A : Type} (p : A -> bool) (l : list A) :
  Forall (fun x => p x = false) l -> filter p l = [].
Proof.
  intros H. induction H as [| x l Hx Hl IH]; simpl; [reflexivity|]. rewrite Hx. exact IH.
Qed.

Lemma gather_window_miss (hz : list horizon_row) (hw : Q * Q) (window : option (Z * Z))
    (samples : list Q) (ts : Q) (df : list trace_header) :
  (forall tr, hd_error df = Some tr ->
     Forall (fun r => Z.eqb (h_crossline r) (CROSSLINE_3D tr)
                      && Z.eqb (h_inline r) (INLINE_3D tr) = false) hz) ->
  gather_window (Some hz) hw window samples ts df = inl IndexError.
Proof.
  intros H. unfold gather_window. destruct df as [| tr df']; [reflexivity|].
  rewrite (filter_none _ hz (H tr eq_refl)). reflexivity.
Qed.

(** X5.  A gather whose first trace has no entry in the horizon makes the
    call fail: binning the gather raises [IndexError] and leaves the store as
    it was, and a batch that holds such a gather never returns a matrix. *)
Theorem horizon_miss_fails (g : gather) (samples : list Q) (bin_size : bin_spec)
    (storage_size : nat) (window : option (Z * Z)) (horizon_window : Q * Q)
    (hz : list horizon_row) (s0 s1 : Q) (rest : list Q) :
  samples = s0 :: s1 :: rest ->
  (forall tr, hd_error (batch_df g) = Some tr ->
     Forall (fun r => Z.eqb (h_crossline r) (CROSSLINE_3D tr)
                      && Z.eqb (h_inline r) (INLINE_3D tr) = false) hz) ->
  (forall h,
      avo_storage calc_method g samples bin_size storage_size window horizon_window
        (Some hz) h = (inl IndexError, h))
  /\ forall batch params h,
       In g batch ->
       exists e,
         fst (update_avo_params calc_method params batch samples bin_size storage_size
                window horizon_window (Some hz) h) = inl e.
Proof.
  intros Hs Hmiss.
  assert (Hone : forall h,
             avo_storage calc_method g samples bin_size storage_size window horizon_window
               (Some hz) h = (inl IndexError, h)).
  { intros h. unfold avo_storage, mbind, lift. rewrite Hs. cbn [t_step_of].
    rewrite gather_window_miss by exact Hmiss. reflexivity. }
  split; [exact Hone|].
  intros batch. induction batch as [| g0 batch IH]; intros params h Hin; [contradiction|].
  cbn [update_avo_params]. unfold mbind at 1.
  destruct Hin as [-> | Hin].
  - rewrite Hone. cbn. eauto.
  - destruct (avo_storage calc_method g0 samples bin_size storage_size window
                horizon_window (Some hz) h) as [[e | storage] h']; [cbn; eauto|].
    unfold mbind, lift. destruct (append_row params storage) as [e | params']; [cbn; eauto|].
    apply IH. exact Hin.
Qed.


End AvoEdges.

Lemma horizon_miss_fails_witness :
  Avo.avo_storage (fun m => np_nanmean (concat m))
    (Avo.mk_gather (Avo.mk_nd 0 0 1) [Avo.mk_header 5 7 3]) [0; 2] (Avo.BinInt 10) 1
    None (0, 0) (Some [Avo.mk_hrow 3 8 100]) [[[Fin 1]]]
  = (inl IndexError, [[[Fin 1]]]).
Proof.
  apply (horizon_miss_fails (fun m => np_nanmean (concat m))
           (Avo.mk_gather (Avo.mk_nd 0 0 1) [Avo.mk_header 5 7 3]) [0; 2] (Avo.BinInt 10) 1
           None (0, 0) [Avo.mk_hrow 3 8 100] 0 2 []).
  - reflexivity.
  - intros tr H. inversion H; subst. repeat constructor.
Defined.


(** ** The offset bins *)

Section OffsetBins.

Import Avo.

Variable calc_method : matrix -> f64.

Lemma Qle_bool_total (a b : Q) : Qle_bool a b = true \/ Qle_bool b a = true.
Proof.
  destruct (Qlt_le_dec b a) as [H | H].
  - right. apply Qle_bool_iff. Lqa.lra.
  - left. apply Qle_bool_iff. exact H.
Qed.

Lemma Qle_bool_trans (a b c : Q) :
  Qle_bool a b = true -> Qle_bool b c = true -> Qle_bool a c = true.
Proof. rewrite !Qle_bool_iff. intros. Lqa.lra. Qed.

(** The last of the sorted offsets is the largest. *)
Lemma np_sort_last_max (l : list Q) (x : Q) :
  In x l -> x <= last (np_sort Qle_bool l) 0.
Proof.
  intros Hx. unfold np_sort.
  pose proof (isort_stable Qle_bool Qle_bool_total Qle_bool_trans (enumerate l)
                (enumerate_rising 0 l)) as Hs.
  assert (Hin : In x (map snd (isort Qle_bool (enumerate l)))).
  { eapply Permutation_in; [apply Permutation_sym, (np_sort_perm Qle_bool l) | exact Hx]. }
  revert Hs Hin. generalize (isort Qle_bool (enumerate l)) as s. intros s Hs.
  induction Hs as [| a t Ht IH Ha]; simpl; [tauto|]. intros [<- | Hin].
  - destruct t as [| b t']; [simpl; Lqa.lra|].
    change (last (snd a :: map snd (b :: t')) 0) with (last (map snd (b :: t')) 0).
    assert (Hl : In (last (map snd (b :: t')) 0) (map snd (b :: t'))).
    { destruct (@exists_last _ (map snd (b :: t'))) as [l' [z E]]; [discriminate|].
      rewrite E, last_last. apply in_or_app. right. left. reflexivity. }
    apply in_map_iff in Hl. destruct Hl as [y [Ey Hy]].
    rewrite Forall_forall in Ha. destruct (Ha y Hy) as [Hle _].
    apply Qle_bool_iff in Hle. rewrite <- Ey. exact Hle.
  - destruct t as [| b t']; [contradiction|].
    change (last (snd a :: map snd (b :: t')) 0) with (last (map snd (b :: t')) 0).
    apply IH. exact Hin.
Qed.

Lemma rev_last_head (l : list Q) (d : Q) :
  l <> [] -> exists t, rev l = last l d :: t.
Proof.
  intros H. destruct (@exists_last _ l H) as [l' [z E]]. subst l.
  rewrite rev_app_distr, last_last. simpl. eauto.
Qed.

Lemma bins_of_map_seq (f : nat -> Q) (n k : nat) :
  bins_of (map f (seq k (S n))) = map (fun i => (f i, f (S i))) (seq k n).
Proof.
  revert k. induction n as [| n IH]; intros k; [reflexivity|].
  change (seq k (S (S n))) with (k :: seq (S k) (S n)).
  change (map f (k :: seq (S k) (S n))) with (f k :: map f (seq (S k) (S n))).
  specialize (IH (S k)).
  change (seq (S k) (S n)) with (S k :: seq (S (S k)) n) in *.
  cbn [map] in *. cbn [bins_of]. cbn [bins_of] in IH. rewrite IH. reflexivity.
Qed.


Lemma np_sort_last_in (l : list Q) : l <> [] -> In (last (np_sort Qle_bool l) 0) l.
Proof.
  intros H. apply (Permutation_in _ (np_sort_perm Qle_bool l)).
  assert (Hn : np_sort Qle_bool l <> []).
  { intros E. apply H. apply length_zero_iff_nil.
    rewrite <- (np_sort_length Qle_bool l), E. reflexivity. }
  destruct (@exists_last _ _ Hn) as [l' [z E]]. rewrite E, last_last.
  apply in_or_app. right. left. reflexivity.
Qed.

Lemma np_sort_rev_head (l : list Q) :
  l <> [] -> exists t, rev (np_sort Qle_bool l) = last (np_sort Qle_bool l) 0 :: t.
Proof.
  intros H. apply rev_last_head. intros E. apply H. apply length_zero_iff_nil.
  rewrite <- (np_sort_length Qle_bool l), E. reflexivity.
Qed.

Lemma Qfloor_pred (y : Q) : Qfloor (y - 1) = (Qfloor y - 1)%Z.
Proof.
  pose proof (Qfloor_le y) as H1. pose proof (Qlt_floor y) as H2.
  pose proof (Qfloor_le (y - 1)) as H3. pose proof (Qlt_floor (y - 1)) as H4.
  rewrite inject_Z_plus in H2, H4. change (inject_Z 1) with 1 in H2, H4.
  assert (Ha : (Qfloor (y - 1) < Qfloor y)%Z) by (rewrite Zlt_Qlt; Lqa.lra).
  assert (Hb : (Qfloor y - 1 < Qfloor (y - 1) + 1)%Z).
  { rewrite Zlt_Qlt. rewrite inject_Z_plus. unfold Z.sub. rewrite inject_Z_plus.
    change (inject_Z 1) with 1. change (inject_Z (- (1))) with (- (1)). Lqa.lra. }
  lia.
Qed.

Lemma Qceiling_succ (x : Q) : Qceiling (x + 1) = (Qceiling x + 1)%Z.
Proof.
  unfold Qceiling.
  assert (E : - (x + 1) == - x - 1) by ring.
  rewrite E, Qfloor_pred. lia.
Qed.

(** How many steps [np.arange(0, m + b, b)] has. *)
Lemma arange_len_steps (m b : Q) :
  0 < b -> 0 <= m -> arange_len 0 (m + b) b = S (Z.to_nat (Qceiling (m / b))).
Proof.
  intros Hb Hm. unfold arange_len.
  assert (E : (m + b - 0) / b == m / b + 1) by (field; Lqa.lra).
  rewrite E, Qceiling_succ.
  assert (H0 : (0 <= Qceiling (m / b))%Z).
  { change 0%Z with (Qceiling 0). apply Qceiling_resp_le.
    apply Qle_shift_div_l; [exact Hb | Lqa.lra]. }
  rewrite Z2Nat.inj_add by lia. simpl. rewrite Nat.add_1_r. reflexivity.
Qed.

(** An offset lies in one of the first [n] bins of width [b] exactly when it
    is below [n * b]. *)
Lemma fixed_bin_exists (b o : Q) (n : nat) :
  0 < b -> 0 <= o ->
  (exists k, (k < n)%nat /\ in_bin (arange_elt 0 b k) (arange_elt 0 b (S k)) o)
  <-> o < inject_Z (Z.of_nat n) * b.
Proof.
  intros Hb Ho. unfold in_bin, arange_elt. split.
  - intros [k [Hk [_ H2]]].
    assert (Hle : inject_Z (Z.of_nat (S k)) <= inject_Z (Z.of_nat n)).
    { rewrite <- Zle_Qle. lia. }
    assert (Hmul : inject_Z (Z.of_nat (S k)) * b <= inject_Z (Z.of_nat n) * b).
    { apply Qmult_le_compat_r; [exact Hle | Lqa.lra]. }
    Lqa.lra.
  - intros Hlt.
    set (t := o / b).
    assert (Ht : t * b == o) by (unfold t; field; Lqa.lra).
    assert (Ht0 : 0 <= t) by (unfold t; apply Qle_shift_div_l; [exact Hb | Lqa.lra]).
    pose proof (Qfloor_le t) as Hz1. pose proof (Qlt_floor t) as Hz2.
    set (z := Qfloor t) in *.
    assert (Hz0 : (0 <= z)%Z).
    { change 0%Z with (Qfloor 0). apply Qfloor_resp_le. exact Ht0. }
    exists (Z.to_nat z).
    assert (Hzn : (z < Z.of_nat n)%Z).
    { rewrite Zlt_Qlt. apply Qle_lt_trans with t; [exact Hz1|].
      apply Qmult_lt_r with b; [exact Hb|]. rewrite Ht. exact Hlt. }
    split; [lia|].
    rewrite Nat2Z.inj_succ, Z2Nat.id by exact Hz0. unfold Z.succ.
    rewrite inject_Z_plus in *. change (inject_Z 1) with 1 in *.
    assert (H1 : inject_Z z * b <= t * b) by (apply Qmult_le_compat_r; Lqa.lra).
    assert (H2 : t * b < (inject_Z z + 1) * b) by (apply Qmult_lt_compat_r; Lqa.lra).
    split; Lqa.lra.
Qed.

(** X7.  Bins of a fixed width.  For an integer [bin_size > 0] and offsets
    that are not negative, the bins of a gather are the intervals
    [[k * bin_size, (k + 1) * bin_size)] for [k] below the ceiling of
    [largest offset / bin_size].  Every offset below the largest lies in one
    of them; the largest offset itself lies in one exactly when it is not a
    multiple of [bin_size]: the traces at a largest offset that is a multiple
    of the bin width are counted in no bin. *)
Theorem fixed_width_bins (offsets : list Q) (b : Z) :
  offsets <> [] -> (0 < b)%Z -> Forall (fun o => 0 <= o) offsets ->
  let sorted := np_sort Qle_bool offsets in
  let largest := last sorted 0 in
  let width := inject_Z b in
  let count := Z.to_nat (Qceiling (largest / width)) in
  exists step_list,
    step_list_of (BinInt b) sorted = inr step_list
    /\ bins_of step_list
       = map (fun k => (arange_elt 0 width k, arange_elt 0 width (S k))) (seq 0 count)
    /\ In largest offsets
    /\ (forall o, In o offsets -> o <= largest)
    /\ (forall o, In o offsets -> o < largest ->
          exists stp nxt, In (stp, nxt) (bins_of step_list) /\ in_bin stp nxt o)
    /\ ((exists stp nxt, In (stp, nxt) (bins_of step_list) /\ in_bin stp nxt largest)
        <-> ~ exists m : Z, largest == inject_Z m * width).
Proof.
  intros Hne Hb Hpos sorted largest width count.
  assert (Hw : 0 < width) by (unfold width; change 0 with (inject_Z 0); rewrite <- Zlt_Qlt; exact Hb).
  assert (Hin : In largest offsets) by (apply np_sort_last_in; exact Hne).
  assert (Hl0 : 0 <= largest) by (rewrite Forall_forall in Hpos; apply Hpos; exact Hin).
  destruct (np_sort_rev_head offsets Hne) as [t Hrev]. fold sorted largest in Hrev.
  set (bins := map (fun k => (arange_elt 0 width k, arange_elt 0 width (S k))) (seq 0 count)).
  assert (Hbins : forall o, 0 <= o ->
            (exists stp nxt, In (stp, nxt) bins /\ in_bin stp nxt o)
            <-> o < inject_Z (Z.of_nat count) * width).
  { intros o Ho. rewrite <- (fixed_bin_exists width o count Hw Ho). split.
    - intros [stp [nxt [Hi Hb']]]. apply in_map_iff in Hi. destruct Hi as [k [Ek Hk]].
      apply in_seq in Hk. inversion Ek; subst. exists k. split; [lia | exact Hb'].
    - intros [k [Hk Hb']]. exists (arange_elt 0 width k), (arange_elt 0 width (S k)).
      split; [|exact Hb']. apply in_map_iff. exists k. split; [reflexivity|].
      apply in_seq. lia. }
  assert (Hc0 : (0 <= Qceiling (largest / width))%Z).
  { change 0%Z with (Qceiling 0). apply Qceiling_resp_le.
    apply Qle_shift_div_l; [exact Hw | Lqa.lra]. }
  assert (Hcount : inject_Z (Z.of_nat count) = inject_Z (Qceiling (largest / width))).
  { unfold count. rewrite Z2Nat.id by exact Hc0. reflexivity. }
  assert (Hcover : largest <= inject_Z (Z.of_nat count) * width).
  { rewrite Hcount. pose proof (Qle_ceiling (largest / width)) as Hc.
    assert (E : largest / width * width == largest) by (field; Lqa.lra).
    rewrite <- E at 1. apply Qmult_le_compat_r; [exact Hc | Lqa.lra]. }
  exists (map (arange_elt 0 width) (seq 0 (S count))).
  split; [|split; [|split; [|split; [|split]]]].
  - unfold step_list_of. rewrite Hrev. fold width.
    rewrite np_arange_pos by exact Hw.
    rewrite arange_len_steps by assumption. reflexivity.
  - apply bins_of_map_seq.
  - exact Hin.
  - intros o Ho. apply np_sort_last_max. exact Ho.
  - intros o Ho Hlt. rewrite bins_of_map_seq. apply Hbins.
    + rewrite Forall_forall in Hpos. apply Hpos. exact Ho.
    + Lqa.lra.
  - rewrite bins_of_map_seq. fold bins. rewrite (Hbins largest Hl0). split.
    + intros Hlt [m Hm]. rewrite Hcount in Hlt.
      assert (E : largest / width == inject_Z m).
      { rewrite Hm. field. Lqa.lra. }
      rewrite E, Qceiling_Z, <- Hm in Hlt. Lqa.lra.
    + intros Hno. destruct (Qlt_le_dec largest (inject_Z (Z.of_nat count) * width))
        as [Hlt | Hge]; [exact Hlt|].
      exfalso. apply Hno. exists (Z.of_nat count). Lqa.lra.
Qed.

Lemma fixed_width_bins_witness :
  exists step_list,
    Avo.step_list_of (Avo.BinInt 10) (np_sort Qle_bool [20; 5; 12]) = inr step_list
    /\ Avo.bins_of step_list
       = map (fun k => (arange_elt 0 (inject_Z 10) k, arange_elt 0 (inject_Z 10) (S k)))
           (seq 0 (Z.to_nat (Qceiling (last (np_sort Qle_bool [20; 5; 12]) 0 / inject_Z 10)))).
Proof.
  destruct (fixed_width_bins [20; 5; 12] 10) as [sl [H1 [H2 _]]].
  - discriminate.
  - lia.
  - repeat constructor; discriminate.
  - exists sl. split; [exact H1 | exact H2].
Defined.

End OffsetBins.

(** ** The vector of a gather and the rows of a batch *)

Section OffsetBinsRun.

Import Avo.

Variable calc_method : matrix -> f64.

Lemma bins_of_snoc (l : list Q) (a b : Q) :
  bins_of ((l ++ [a]) ++ [b]) = bins_of (l ++ [a]) ++ [(a, b)].
Proof.
  induction l as [| x l IH]; [reflexivity|].
  destruct l as [| y l'].
  - reflexivity.
  - change (bins_of (((x :: y :: l') ++ [a]) ++ [b]))
      with ((x, y) :: bins_of (((y :: l') ++ [a]) ++ [b])).
    rewrite IH. reflexivity.
Qed.

(** X8.  Bins given by their edges.  The step list is the edges strictly
    below the largest offset, in the caller's order, followed by
    [largest + 1].  With no edge below the largest offset there is no bin and
    the vector of the gather is all zeros, whatever the traces hold and even
    without a window.  Otherwise the last bin runs from the last kept edge to
    [largest + 1] and holds the largest offset. *)
Theorem edge_bins (g : gather) (edges : list Q) (samples : list Q) (storage_size : nat)
    (window : option (Z * Z)) (horizon_window : Q * Q) (h : heap) :
  batch_df g <> [] ->
  (2 <= length samples)%nat ->
  let sorted := np_sort Qle_bool (map offset (batch_df g)) in
  let largest := last sorted 0 in
  let kept := filter (fun e => Qlt_bool e largest) edges in
  step_list_of (BinEdges edges) sorted = inr (kept ++ [largest + 1])
  /\ (kept = [] ->
      avo_storage calc_method g samples (BinEdges edges) storage_size window
        horizon_window None h = (inr (repeat (Fin 0) storage_size), h))
  /\ (forall pre e, kept = pre ++ [e] ->
        bins_of (kept ++ [largest + 1]) = bins_of kept ++ [(e, largest + 1)]
        /\ in_bin e (largest + 1) largest).
Proof.
  intros Hne Hs sorted largest kept.
  assert (Hne' : map offset (batch_df g) <> []).
  { intros E. apply Hne. apply map_eq_nil in E. exact E. }
  destruct (np_sort_rev_head _ Hne') as [t Hrev]. fold sorted largest in Hrev.
  assert (Hsl : step_list_of (BinEdges edges) sorted = inr (kept ++ [largest + 1])).
  { unfold step_list_of. rewrite Hrev. reflexivity. }
  split; [exact Hsl|]. split.
  - intros Hk. unfold avo_storage, mbind, lift. fold sorted.
    destruct samples as [| s0 [| s1 rest]]; simpl in Hs; try lia.
    cbn [t_step_of gather_window]. rewrite Hsl, Hk. reflexivity.
  - intros pre e Hk. split.
    + rewrite Hk. apply bins_of_snoc.
    + assert (Hin : In e kept) by (rewrite Hk; apply in_or_app; right; left; reflexivity).
      apply filter_In in Hin. destruct Hin as [_ Hlt]. apply Qlt_bool_iff in Hlt.
      unfold in_bin. split; Lqa.lra.
Qed.

Lemma setitem_length (storage : list f64) (i : nat) (v : f64) (s : list f64) :
  setitem storage i v = inr s -> length s = length storage.
Proof.
  unfold setitem. destruct (Nat.ltb i (length storage)); [|discriminate].
  intros E. inversion E. apply set_nth_length.
Qed.

Lemma bin_step_pure_length (data : matrix) (ncols : nat) (offset : list Q)
    (window : option (Z * Z)) (i : nat) (stp nxt : Q) (storage s : list f64) :
  bin_step_pure calc_method data ncols offset window i stp nxt storage = inr s ->
  length s = length storage.
Proof.
  unfold bin_step_pure.
  destruct (Nat.eqb (length (bin_mask offset stp nxt)) (length data)); [|discriminate].
  destruct (Nat.eqb (length (bin_rows data offset stp nxt) * ncols) 0);
    [apply setitem_length|].
  destruct window as [w |]; [apply setitem_length | discriminate].
Qed.

(** The vector keeps its length through the loop over the bins. *)
Lemma bin_loop_pure_length (data : matrix) (ncols : nat) (offset : list Q)
    (window : option (Z * Z)) (bins : list (Q * Q)) :
  forall (i : nat) (storage s : list f64),
    bin_loop_pure calc_method data ncols offset window i bins storage = inr s ->
    length s = length storage.
Proof.
  induction bins as [| [stp nxt] rest IH]; intros i storage s; simpl.
  - intros E. inversion E. reflexivity.
  - destruct (bin_step_pure calc_method data ncols offset window i stp nxt storage)
      as [e | s'] eqn:Es; simpl; [discriminate|].
    intros E. rewrite (IH _ _ _ E). eapply bin_step_pure_length. exact Es.
Qed.

Lemma avo_storage_pure_length (data : matrix) (ncols : nat) (df : list trace_header)
    (samples : list Q) (bin_size : bin_spec) (storage_size : nat)
    (window : option (Z * Z)) (horizon_window : Q * Q)
    (horizon : option (list horizon_row)) (s : list f64) :
  avo_storage_pure calc_method data ncols df samples bin_size storage_size window
    horizon_window horizon = inr s ->
  length s = storage_size.
Proof.
  unfold avo_storage_pure.
  destruct (t_step_of samples) as [e | ts]; simpl; [discriminate|].
  destruct (gather_window horizon horizon_window window samples ts df) as [e | w];
    simpl; [discriminate|].
  destruct (step_list_of bin_size (np_sort Qle_bool (map offset df))) as [e | sl];
    simpl; [discriminate|].
  intros E. apply bin_loop_pure_length in E. rewrite E. apply repeat_length.
Qed.

(** More bins than places left in the vector. *)
Lemma bin_loop_pure_overflow (data : matrix) (ncols : nat) (offset : list Q) (w : Z * Z)
    (bins : list (Q * Q)) :
  length offset = length data ->
  forall (i : nat) (storage : list f64),
    (i <= length storage)%nat -> (length storage < i + length bins)%nat ->
    bin_loop_pure calc_method data ncols offset (Some w) i bins storage = inl IndexError.
Proof.
  intros Hlen. induction bins as [| [stp nxt] rest IH]; intros i storage Hi Hover.
  - simpl in Hover. lia.
  - simpl in Hover. simpl bin_loop_pure. unfold bin_step_pure.
    rewrite bin_mask_map, length_map, Hlen, Nat.eqb_refl.
    assert (Hset : forall v,
               match setitem storage i v with
               | inl e => inl e
               | inr s' => bin_loop_pure calc_method data ncols offset (Some w) (S i) rest s'
               end = inl IndexError).
    { intros v. unfold setitem. destruct (Nat.ltb_spec i (length storage)) as [Hlt | Hge];
        [|reflexivity].
      apply IH; rewrite set_nth_length; lia. }
    unfold bind.
    destruct (Nat.eqb _ 0); apply Hset.
Qed.

(** What a gather yields does not depend on the buffers allocated after its
    own. *)
Lemma avo_storage_fst_app (g : gather) (samples : list Q) (bin_size : bin_spec)
    (storage_size : nat) (window : option (Z * Z)) (horizon_window : Q * Q)
    (horizon : option (list horizon_row)) (h extra : heap) :
  (base (field g) < length h)%nat ->
  fst (avo_storage calc_method g samples bin_size storage_size window horizon_window
         horizon (h ++ extra))
  = fst (avo_storage calc_method g samples bin_size storage_size window horizon_window
           horizon h).
Proof.
  intros Hb.
  assert (Hb' : (base (field g) < length (h ++ extra))%nat) by (rewrite length_app; lia).
  destruct (avo_storage_run calc_method g samples bin_size storage_size window
              horizon_window horizon (h ++ extra) Hb') as [E1 _].
  destruct (avo_storage_run calc_method g samples bin_size storage_size window
              horizon_window horizon h Hb) as [E2 _].
  rewrite E1, E2, view_app by exact Hb. reflexivity.
Qed.

Lemma avo_storage_length (g : gather) (samples : list Q) (bin_size : bin_spec)
    (storage_size : nat) (window : option (Z * Z)) (horizon_window : Q * Q)
    (horizon : option (list horizon_row)) (h : heap) (s : list f64) :
  (base (field g) < length h)%nat ->
  fst (avo_storage calc_method g samples bin_size storage_size window horizon_window
         horizon h) = inr s ->
  length s = storage_size.
Proof.
  intros Hb E.
  destruct (avo_storage_run calc_method g samples bin_size storage_size window
              horizon_window horizon h Hb) as [E1 _].
  rewrite E1 in E. eapply avo_storage_pure_length. exact E.
Qed.

(** A gather that fails makes the whole batch fail. *)
Lemma update_avo_params_fails (g : gather) (samples : list Q) (bin_size : bin_spec)
    (storage_size : nat) (window : option (Z * Z)) (horizon_window : Q * Q)
    (horizon : option (list horizon_row)) (h : heap) (e : exn) :
  fst (avo_storage calc_method g samples bin_size storage_size window horizon_window
         horizon h) = inl e ->
  forall batch, In g batch ->
    Forall (fun g' => (base (field g') < length h)%nat) batch ->
    forall params extra,
      exists e', fst (update_avo_params calc_method params batch samples bin_size
                        storage_size window horizon_window horizon (h ++ extra))
                 = inl e'.
Proof.
  intros Hfail batch. induction batch as [| g' rest IH]; intros Hin Hall params extra;
    [contradiction|].
  inversion Hall as [| ? ? Hg' Hrest]; subst. simpl. unfold mbind.
  assert (Hg'' : (base (field g') < length (h ++ extra))%nat) by (rewrite length_app; lia).
  destruct (avo_storage_run calc_method g' samples bin_size storage_size window
              horizon_window horizon (h ++ extra) Hg'') as [_ [extra' Hh]].
  pose proof (avo_storage_fst_app g' samples bin_size storage_size window horizon_window
                horizon h extra Hg') as Hfst.
  destruct (avo_storage calc_method g' samples bin_size storage_size window
              horizon_window horizon (h ++ extra)) as [r h'].
  simpl in Hh, Hfst. subst h'.
  destruct r as [e1 | storage]; [eexists; reflexivity|].
  unfold lift. destruct (append_row params storage) as [e2 | params'];
    [eexists; reflexivity|].
  destruct Hin as [-> | Hin]; [rewrite Hfail in Hfst; discriminate|].
  rewrite <- app_assoc. apply IH; assumption.
Qed.

(** X9.  A vector too short for the bins.  When the gather has more bins than
    [storage_size] the call does not cut the bins short: it fails with
    IndexError at the first bin beyond the vector, and so does every batch
    that holds the gather. *)
Theorem storage_too_small (g : gather) (samples : list Q) (bin_size : bin_spec)
    (storage_size : nat) (window : option (Z * Z)) (horizon_window : Q * Q)
    (horizon : option (list horizon_row)) (h : heap) (ts : Q) (w : Z * Z) (sl : list Q) :
  (base (field g) < length h)%nat ->
  length (batch_df g) = length (view (field g) h) ->
  t_step_of samples = inr ts ->
  gather_window horizon horizon_window window samples ts (batch_df g) = inr (Some w) ->
  step_list_of bin_size (np_sort Qle_bool (map offset (batch_df g))) = inr sl ->
  (storage_size < length (bins_of sl))%nat ->
  fst (avo_storage calc_method g samples bin_size storage_size window horizon_window
         horizon h) = inl IndexError
  /\ forall params batch,
       In g batch ->
       Forall (fun g' => (base (field g') < length h)%nat) batch ->
       exists e, fst (update_avo_params calc_method params batch samples bin_size
                        storage_size window horizon_window horizon h) = inl e.
Proof.
  intros Hb Hlen Hts Hw Hsl Hsmall.
  assert (Hfail : fst (avo_storage calc_method g samples bin_size storage_size window
                         horizon_window horizon h) = inl IndexError).
  { destruct (avo_storage_run calc_method g samples bin_size storage_size window
                horizon_window horizon h Hb) as [E _].
    rewrite E. unfold avo_storage_pure. rewrite Hts. cbn [bind]. rewrite Hw. cbn [bind].
    rewrite Hsl. cbn [bind].
    apply bin_loop_pure_overflow.
    - rewrite np_sort_length, length_map. exact Hlen.
    - lia.
    - rewrite repeat_length. simpl. exact Hsmall. }
  split; [exact Hfail|].
  intros params batch Hin Hall.
  destruct (update_avo_params_fails g samples bin_size storage_size window horizon_window
              horizon h IndexError Hfail batch Hin Hall params []) as [e He].
  rewrite app_nil_r in He. exists e. exact He.
Qed.

Lemma update_avo_params_rows_from (samples : list Q) (bin_size : bin_spec)
    (storage_size : nat) (window : option (Z * Z)) (horizon_window : Q * Q)
    (horizon : option (list horizon_row)) (h : heap) :
  forall batch storages,
    Forall (fun g => (base (field g) < length h)%nat) batch ->
    Forall2 (fun g s =>
               fst (avo_storage calc_method g samples bin_size storage_size window
                      horizon_window horizon h) = inr s) batch storages ->
    forall p extra,
      Forall (fun r => length r = storage_size) p ->
      fst (update_avo_params calc_method (Some p) batch samples bin_size storage_size
             window horizon_window horizon (h ++ extra))
      = inr (Some (p ++ storages)).
Proof.
  induction batch as [| g rest IH]; intros storages Hall H2 p extra Hp.
  - inversion H2; subst. simpl. rewrite app_nil_r. reflexivity.
  - inversion H2 as [| ? s ? ss Hs Hss]; subst.
    inversion Hall as [| ? ? Hg Hrest]; subst. simpl. unfold mbind.
    assert (Hg' : (base (field g) < length (h ++ extra))%nat) by (rewrite length_app; lia).
    destruct (avo_storage_run calc_method g samples bin_size storage_size window
                horizon_window horizon (h ++ extra) Hg') as [_ [extra' Hh]].
    pose proof (avo_storage_fst_app g samples bin_size storage_size window horizon_window
                  horizon h extra Hg) as Hfst.
    pose proof (avo_storage_length g samples bin_size storage_size window horizon_window
                  horizon h s Hg Hs) as Hls.
    destruct (avo_storage calc_method g samples bin_size storage_size window
                horizon_window horizon (h ++ extra)) as [r h'].
    simpl in Hh, Hfst. subst h'. rewrite Hs in Hfst. subst r.
    unfold lift, append_row.
    assert (Hall' : forallb (fun r => Nat.eqb (length r) (length s)) p = true).
    { apply forallb_forall. intros r Hr. rewrite Forall_forall in Hp.
      rewrite (Hp r Hr), Hls. apply Nat.eqb_refl. }
    rewrite Hall'. rewrite <- app_assoc.
    rewrite (IH ss Hrest Hss (p ++ [s]) (extra ++ extra')).
    + rewrite <- app_assoc. reflexivity.
    + apply Forall_app. split; [exact Hp | constructor; [exact Hls | constructor]].
Qed.

(** X10.  The rows of a batch.  When every gather of a batch that is not
    empty yields its vector, the call returns one row per gather, in the
    order of the batch, below the rows it was given: each row is the vector
    the gather yields on its own, of [storage_size] values.  Rows given
    with another width make the call fail with ValueError. *)
Theorem update_avo_params_rows (params : option matrix) (batch : list gather)
    (storages : matrix) (samples : list Q) (bin_size : bin_spec) (storage_size : nat)
    (window : option (Z * Z)) (horizon_window : Q * Q)
    (horizon : option (list horizon_row)) (h : heap) :
  batch <> [] ->
  params <> Some [] ->
  Forall (fun g => (base (field g) < length h)%nat) batch ->
  Forall2 (fun g s =>
             fst (avo_storage calc_method g samples bin_size storage_size window
                    horizon_window horizon h) = inr s) batch storages ->
  fst (update_avo_params calc_method params batch samples bin_size storage_size window
         horizon_window horizon h)
  = match params with
    | None => inr (Some storages)
    | Some p =>
        if forallb (fun r => Nat.eqb (length r) storage_size) p
        then inr (Some (p ++ storages))
        else inl ValueError
    end
  /\ Forall (fun s => length s = storage_size) storages.
Proof.
  intros Hne Hp0 Hall H2. split.
  - destruct batch as [| g rest]; [congruence|].
    inversion H2 as [| ? s ? ss Hs Hss]; subst.
    inversion Hall as [| ? ? Hg Hrest]; subst.
    pose proof (avo_storage_length g samples bin_size storage_size window horizon_window
                  horizon h s Hg Hs) as Hls.
    destruct (avo_storage_run calc_method g samples bin_size storage_size window
                horizon_window horizon h Hg) as [_ [extra Hh]].
    simpl. unfold mbind.
    destruct (avo_storage calc_method g samples bin_size storage_size window
                horizon_window horizon h) as [r h'].
    simpl in Hh, Hs. subst h' r. unfold lift, append_row.
    destruct params as [p |].
    + rewrite Hls.
      destruct (forallb (fun r => Nat.eqb (length r) storage_size) p) eqn:Ef;
        [|reflexivity].
      rewrite (update_avo_params_rows_from samples bin_size storage_size window
                 horizon_window horizon h rest ss Hrest Hss (p ++ [s]) extra).
      * rewrite <- app_assoc. reflexivity.
      * apply Forall_app. split; [|constructor; [exact Hls | constructor]].
        apply Forall_forall. intros r Hr.
        rewrite forallb_forall in Ef. apply Nat.eqb_eq, Ef. exact Hr.
    + rewrite (update_avo_params_rows_from samples bin_size storage_size window
                 horizon_window horizon h rest ss Hrest Hss [s] extra); [reflexivity|].
      constructor; [exact Hls | constructor].
  - clear Hne. induction H2 as [| g s rest ss Hs Hss IH]; [constructor|].
    inversion Hall as [| ? ? Hg Hrest]; subst. constructor.
    + eapply avo_storage_length; eassumption.
    + apply IH. exact Hrest.
Qed.

End OffsetBinsRun.

Lemma edge_bins_witness :
  Avo.step_list_of (Avo.BinEdges [0; 10; 30])
    (np_sort Qle_bool (map Avo.offset [Avo.mk_header 20 1 1; Avo.mk_header 5 1 1]))
  = inr (filter (fun e => Qlt_bool e (last (np_sort Qle_bool
             (map Avo.offset [Avo.mk_header 20 1 1; Avo.mk_header 5 1 1])) 0)) [0; 10; 30]
         ++ [last (np_sort Qle_bool
               (map Avo.offset [Avo.mk_header 20 1 1; Avo.mk_header 5 1 1])) 0 + 1]).
Proof.
  apply (edge_bins (fun m => np_nanmean (concat m))
           (Avo.mk_gather (Avo.mk_nd 0 0 1) [Avo.mk_header 20 1 1; Avo.mk_header 5 1 1])
           [0; 10; 30] [0; 2] 3 None (0, 0) []).
  - discriminate.
  - simpl. lia.
Defined.


Lemma storage_too_small_witness :
  fst (Avo.avo_storage (fun m => np_nanmean (concat m))
         (Avo.mk_gather (Avo.mk_nd 0 0 1) [Avo.mk_header 5 1 1; Avo.mk_header 25 1 1])
         [0; 2] (Avo.BinInt 10) 2 (Some (0, 0)%Z) (0, 0) None [[[Fin 1]; [Fin 2]]])
  = inl IndexError.
Proof.
  apply (storage_too_small (fun m => np_nanmean (concat m))
           (Avo.mk_gather (Avo.mk_nd 0 0 1) [Avo.mk_header 5 1 1; Avo.mk_header 25 1 1])
           [0; 2] (Avo.BinInt 10) 2 (Some (0, 0)%Z) (0, 0) None [[[Fin 1]; [Fin 2]]]
           2 (0, 0)%Z [0; 10; 20; 30]).
  - simpl. lia.
  - reflexivity.
  - reflexivity.
  - reflexivity.
  - vm_compute. reflexivity.
  - simpl. lia.
Defined.

Lemma update_avo_params_rows_witness :
  fst (Avo.update_avo_params (fun m => np_nanmean (concat m)) (Some [[Fin 7; Fin 8; Fin 9]])
         [Avo.mk_gather (Avo.mk_nd 0 0 1) [Avo.mk_header 5 1 1; Avo.mk_header 25 1 1]]
         [0; 2] (Avo.BinInt 10) 3 (Some (0, 0)%Z) (0, 0) None [[[Fin 1]; [Fin 2]]])
  = inr (Some [[Fin 7; Fin 8; Fin 9]; [Fin 1; Fin 0; Fin 2]]).
Proof.
  apply (update_avo_params_rows (fun m => np_nanmean (concat m))
           (Some [[Fin 7; Fin 8; Fin 9]])
           [Avo.mk_gather (Avo.mk_nd 0 0 1) [Avo.mk_header 5 1 1; Avo.mk_header 25 1 1]]
           [[Fin 1; Fin 0; Fin 2]]
           [0; 2] (Avo.BinInt 10) 3 (Some (0, 0)%Z) (0, 0) None [[[Fin 1]; [Fin 2]]]).
  - discriminate.
  - discriminate.
  - repeat constructor.
  - constructor; [vm_compute; reflexivity | constructor].
Defined.

(** ** Loading a horizon *)

Section HorizonLoad.

Import Horizon.

Lemma lstrip_nil_iff (s : str) : lstrip s = [] <-> Forall (fun c => is_space c = true) s.
Proof.
  induction s as [| c t IH]; simpl.
  - split; [constructor | reflexivity].
  - destruct (is_space c) eqn:E.
    + rewrite IH. split; [intros H; constructor; assumption | intros H; inversion H; assumption].
    + split; [discriminate | intros H; inversion H; congruence].
Qed.

Lemma strip_nil_iff (s : str) : strip s = [] <-> Forall (fun c => is_space c = true) s.
Proof.
  rewrite <- lstrip_nil_iff. unfold strip. split.
  - intros H. apply (f_equal (@rev ascii)) in H. rewrite rev_involutive in H. simpl in H.
    apply lstrip_nil_iff in H. apply Forall_rev in H. rewrite rev_involutive in H.
    pose proof (lstrip_head s) as Hh. destruct (lstrip s) as [| c t]; [reflexivity|].
    simpl in Hh. inversion H; congruence.
  - intros H. rewrite H. reflexivity.
Qed.

Lemma clean_nil_iff (line : str) :
  clean line = [] <-> Forall (fun c => blank_char c = true) line.
Proof.
  unfold clean. split.
  - intros H. apply sub_spaces_nil, strip_nil_iff in H.
    unfold sub_alpha in H. rewrite Forall_map in H.
    eapply Forall_impl; [|exact H]. intros c Hc. simpl in Hc. unfold blank_char.
    destruct (is_alpha_colon c); [reflexivity | exact Hc].
  - intros H.
    assert (Hs : strip (sub_alpha line) = []).
    { apply strip_nil_iff. unfold sub_alpha. rewrite Forall_map.
      eapply Forall_impl; [|exact H]. intros c Hc. simpl. unfold blank_char in Hc.
      destruct (is_alpha_colon c); [reflexivity | exact Hc]. }
    rewrite Hs. reflexivity.
Qed.

Lemma horizon_line_none_clean (line : str) :
  horizon_line line = inr None <-> clean line = [].
Proof.
  unfold horizon_line. destruct (clean line) as [| c t] eqn:E.
  - split; reflexivity.
  - split; [|discriminate]. intros H. exfalso. revert H.
    destruct (py_index (split space (c :: t)) 0) as [e | t0]; cbn [bind]; [discriminate|].
    destruct (py_int t0) as [e | i]; cbn [bind]; [discriminate|].
    destruct (py_index (split space (c :: t)) 1) as [e | t1]; cbn [bind]; [discriminate|].
    destruct (py_int t1) as [e | cl]; cbn [bind]; [discriminate|].
    destruct (py_index (split space (c :: t)) (-1)) as [e | tl]; cbn [bind]; [discriminate|].
    destruct (py_float tl) as [e | tm]; cbn [bind]; discriminate.
Qed.

(** X11.  The lines that are skipped.  A line adds nothing and raises nothing
    exactly when it is made of letters, colons and white space only: a line
    of column names is passed over like an empty one.  Any other line gives a
    row or makes the load fail. *)
Theorem skipped_lines (line : str) :
  (horizon_line line = inr None <-> forallb blank_char line = true)
  /\ (forallb blank_char line = false ->
      (exists row, horizon_line line = inr (Some row))
      \/ (exists e, horizon_line line = inl e)).
Proof.
  assert (Hiff : horizon_line line = inr None <-> forallb blank_char line = true).
  { rewrite forallb_forall, <- Forall_forall, <- clean_nil_iff.
    apply horizon_line_none_clean. }
  split; [exact Hiff|]. intros Hb.
  destruct (horizon_line line) as [e | [row |]]; [right; eauto | left; eauto|].
  assert (Ht : forallb blank_char line = true) by (apply Hiff; reflexivity).
  congruence.
Qed.

Lemma horizon_lines_rows (lines : list str) :
  forall acc,
    (forall l, In l lines -> exists r, horizon_line l = inr r) ->
    horizon_lines lines acc = inr (acc ++ flat_map row_of_line lines).
Proof.
  induction lines as [| x lines IH]; intros acc Hall; simpl.
  - rewrite app_nil_r. reflexivity.
  - destruct (Hall x (or_introl eq_refl)) as [r Hr]. unfold row_of_line at 1.
    rewrite Hr. cbn [bind].
    rewrite IH by (intros l Hl; apply Hall; right; exact Hl).
    destruct r as [row |]; [rewrite <- app_assoc|]; reflexivity.
Qed.

Lemma horizon_lines_first_error (pre : list str) (l : str) (post : list str) (e : exn) :
  forall acc,
    (forall x, In x pre -> exists r, horizon_line x = inr r) ->
    horizon_line l = inl e ->
    horizon_lines (pre ++ l :: post) acc = inl e.
Proof.
  induction pre as [| x pre IH]; intros acc Hall He; simpl.
  - rewrite He. reflexivity.
  - destruct (Hall x (or_introl eq_refl)) as [r Hr]. rewrite Hr. cbn [bind].
    apply IH; [|exact He]. intros y Hy. apply Hall. right. exact Hy.
Qed.

Lemma row_of_line_length (lines : list str) :
  (forall l, In l lines -> exists r, horizon_line l = inr r) ->
  length (flat_map row_of_line lines)
  = length (filter (fun l => negb (forallb blank_char l)) lines).
Proof.
  induction lines as [| x lines IH]; intros Hall; [reflexivity|].
  simpl. rewrite length_app, IH by (intros l Hl; apply Hall; right; exact Hl).
  destruct (Hall x (or_introl eq_refl)) as [r Hr].
  assert (Hs : horizon_line x = inr None <-> forallb blank_char x = true).
  { rewrite forallb_forall, <- Forall_forall, <- clean_nil_iff.
    apply horizon_line_none_clean. }
  unfold row_of_line. rewrite Hr in *.
  destruct (forallb blank_char x) eqn:Eb; simpl.
  - destruct r as [row |]; [|reflexivity]. destruct Hs as [_ Hs].
    specialize (Hs eq_refl). discriminate.
  - destruct r as [row |]; [reflexivity|]. destruct Hs as [Hs _].
    specialize (Hs eq_refl). discriminate.
Qed.

(** X12.  A load is all or nothing.  The text is cut at its line feeds.  If
    every line reads, the table has one row for each line that is not
    skipped, in the order of the file; if a line does not read, the load
    raises the error of the first such line and returns no row at all. *)
Theorem load_horizon_rows (text : string) :
  let lines := split newline (list_ascii_of_string text) in
  ((forall l, In l lines -> exists r, horizon_line l = inr r) ->
   load_horizon text = inr (flat_map row_of_line lines)
   /\ length (flat_map row_of_line lines)
      = length (filter (fun l => negb (forallb blank_char l)) lines))
  /\ (forall pre l post e,
        lines = pre ++ l :: post ->
        (forall x, In x pre -> exists r, horizon_line x = inr r) ->
        horizon_line l = inl e ->
        load_horizon text = inl e).
Proof.
  intros lines. split.
  - intros Hall. split; [|apply row_of_line_length; exact Hall].
    unfold load_horizon. fold lines. rewrite horizon_lines_rows by exact Hall.
    reflexivity.
  - intros pre l post e Hl Hpre He. unfold load_horizon. fold lines. rewrite Hl.
    apply horizon_lines_first_error; assumption.
Qed.

(** X13.  No token holds a letter or a colon: they are turned into spaces
    before the line is cut, so a letter inside a number cuts it in two.  A
    time written with an exponent, or as [inf] or [nan], is never read as
    such. *)
Theorem tokens_without_letters (line : str) :
  Forall (fun t => Forall (fun c => is_alpha_colon c = false) t) (split space (clean line)).
Proof.
  assert (Hsub : Forall (fun c => is_alpha_colon c = false) (sub_alpha line)).
  { unfold sub_alpha. rewrite Forall_map. apply Forall_forall. intros c _.
    destruct (is_alpha_colon c) eqn:E; [reflexivity | exact E]. }
  assert (Hlstrip : forall s, Forall (fun c => is_alpha_colon c = false) s ->
                              Forall (fun c => is_alpha_colon c = false) (lstrip s)).
  { induction s as [| c t IH]; intros H; simpl; [constructor|].
    destruct (is_space c); [apply IH; inversion H; assumption | exact H]. }
  assert (Hstrip : Forall (fun c => is_alpha_colon c = false) (strip (sub_alpha line))).
  { unfold strip. apply Forall_rev, Hlstrip, Forall_rev, Hlstrip, Hsub. }
  assert (Hspaces : forall s, Forall (fun c => is_alpha_colon c = false) s ->
                              Forall (fun c => is_alpha_colon c = false) (sub_spaces s)).
  { induction s as [| c t IH]; intros H; [constructor|].
    inversion H as [| ? ? Hc Ht]; subst. specialize (IH Ht). simpl.
    destruct (Ascii.eqb c space).
    - destruct t as [| c' t']; [exact H|].
      destruct (Ascii.eqb c' space); [exact IH | constructor; assumption].
    - constructor; assumption. }
  assert (Hsplit : forall s, Forall (fun c => is_alpha_colon c = false) s ->
                             Forall (fun t => Forall (fun c => is_alpha_colon c = false) t)
                               (split space s)).
  { induction s as [| c t IH]; intros H; simpl; [repeat constructor|].
    inversion H as [| ? ? Hc Ht]; subst. specialize (IH Ht).
    destruct (Ascii.eqb c space); [constructor; [constructor | exact IH]|].
    destruct (split space t) as [| w ws]; [repeat constructor; exact Hc|].
    inversion IH; subst. constructor; [constructor; assumption | assumption]. }
  apply Hsplit, Hspaces, Hstrip.
Qed.

End HorizonLoad.

(** ** The bins of the AVO plot *)

Section AvoPlotBins.

Import Avo AvoPlot.

Variable np_polyfit : list Q -> list f64 -> Z -> exn + list f64.
Variable np_polyval : list f64 -> list Q -> list f64.
Variable np_corrcoef01 : list f64 -> list f64 -> f64.
Variable np_mean_nanstd : matrix -> f64.

Lemma nonzero_filter_seq {A : Type} (p : A -> bool) (d : A) (l : list A) :
  nonzero (map p l) = filter (fun i => p (nth i l d)) (seq 0 (length l)).
Proof.
  unfold nonzero. rewrite <- (map_nth_seq d l) at 1. rewrite map_map.
  apply (nonzero_from_seq (fun i => p (nth i l d))).
Qed.

Lemma stat_step_lengths (nan_rows : matrix) (av ap : list f64)
    (acc : list f64 * list string) (stat : stat_sel) :
  length (fst acc) = length (snd acc) ->
  length (fst (stat_step np_corrcoef01 np_mean_nanstd nan_rows av ap acc stat))
  = length (snd (stat_step np_corrcoef01 np_mean_nanstd nan_rows av ap acc stat)).
Proof.
  destruct acc as [vals names]. simpl. intros H.
  destruct stat as [s | f |]; simpl.
  - destruct (String.eqb s "std"); [simpl; rewrite !length_app, H; reflexivity|].
    destruct (String.eqb s "corr"); simpl; [rewrite !length_app, H; reflexivity | exact H].
  - rewrite !length_app, H. reflexivity.
  - exact H.
Qed.

Lemma run_stats_lengths (stats : stats_arg) (nan_rows : matrix) (av ap : list f64)
    (st : list f64 * list string) :
  run_stats np_corrcoef01 np_mean_nanstd stats nan_rows av ap = inr st ->
  length (fst st) = length (snd st).
Proof.
  destruct stats as [| s | l |]; simpl; intros E; inversion E; subst; clear E.
  - reflexivity.
  - apply (stat_step_lengths nan_rows av ap ([], []) (StatStr s)). reflexivity.
  - assert (H : forall acc, length (fst acc) = length (snd acc) ->
                  length (fst (fold_left (stat_step np_corrcoef01 np_mean_nanstd nan_rows av ap) l acc))
                  = length (snd (fold_left (stat_step np_corrcoef01 np_mean_nanstd nan_rows av ap) l acc))).
    { induction l as [| x l IH]; intros acc Hacc; simpl; [exact Hacc|].
      apply IH, stat_step_lengths, Hacc. }
    apply H. reflexivity.
Qed.

Lemma kept_values_finite (l : list f64) :
  Forall (fun v => exists q, v = Fin q /\ ~ q == 0)
    (filter (fun v => negb (f_is_zero v)) (map nan_to_num l)).
Proof.
  apply Forall_forall. intros v Hv. apply filter_In in Hv. destruct Hv as [Hin Hz].
  apply in_map_iff in Hin. destruct Hin as [x [Ex _]].
  assert (Hfin : exists q, v = Fin q).
  { subst v. destruct x as [q | | |]; simpl; eauto. }
  destruct Hfin as [q Hq]. exists q. split; [exact Hq|]. subst v.
  intros Eq. apply Qeq_bool_iff in Eq. rewrite Hq in Hz.
  cbn [f_is_zero] in Hz. rewrite Eq in Hz. discriminate.
Qed.

(** X14.  The bins that are drawn.  When the call gets to drawing, the
    averages it draws are the averages of the bins, not-a-number read as
    zero, with the zero ones taken out: each is a finite number that is not
    zero.  For ['offset'] or an integer [bin_size] the positions are the
    original indices of the bins that are left (times [bin_size]), one for
    each average, so dropping a bin does not move the others.  An array given
    as [bin_size] has one element, the comparison with ['offset'] having
    failed for any other, and that array goes to the fit as it is.  The
    statistics have one name for each value. *)
Theorem avo_plot_kept_bins (data : matrix) (bin_size : bin_arg) (avg_method : avg_sel)
    (approx_degree : Z) (stats : stats_arg) (s : summary) :
  avo_plot np_polyfit np_polyval np_corrcoef01 np_mean_nanstd data bin_size avg_method
    approx_degree stats = inr s ->
  exists avg,
    resolve_avg avg_method = inr avg
    /\ let averages := map nan_to_num (avg (map (map zero_to_nan) (transpose data))) in
       let kept := filter (fun i => negb (f_is_zero (nth i averages NaN)))
                     (seq 0 (length averages)) in
       avg_value s = filter (fun v => negb (f_is_zero v)) averages
       /\ Forall (fun v => exists q, v = Fin q /\ ~ q == 0) (avg_value s)
       /\ length kept = length (avg_value s)
       /\ bins s = match bin_size with
                   | BinOffset => map (fun i => inject_Z (Z.of_nat i)) kept
                   | BinWidth b => map (fun i => inject_Z (Z.of_nat i * b)) kept
                   | BinArray x => x
                   end
       /\ (forall x, bin_size = BinArray x -> length x = 1%nat)
       /\ length (stats_names s) = length (stats_val s).
Proof.
  unfold avo_plot. intros H.
  destruct (resolve_avg avg_method) as [e | avg]; cbn [bind] in H; [discriminate|].
  exists avg. split; [reflexivity|].
  cbv zeta.
  set (averages := map nan_to_num (avg (map (map zero_to_nan) (transpose data)))) in *.
  set (kept := filter (fun i => negb (f_is_zero (nth i averages NaN)))
                 (seq 0 (length averages))).
  assert (Hnz : nonzero (map (fun v => negb (f_is_zero v)) averages) = kept).
  { unfold kept. apply (nonzero_filter_seq (fun v => negb (f_is_zero v)) NaN). }
  rewrite Hnz in H.
  assert (Hav : take NaN averages kept = filter (fun v => negb (f_is_zero v)) averages).
  { rewrite <- Hnz, take_nonzero by (rewrite length_map; reflexivity).
    apply select_map_filter. }
  rewrite Hav in H.
  assert (Hone : forall x, bin_size = BinArray x -> length x = 1%nat).
  { intros x ->. destruct (Nat.eqb (length x) 1) eqn:E; [apply Nat.eqb_eq; exact E|].
    cbn [bind] in H. discriminate. }
  destruct bin_size as [| b | x];
    [| | rewrite (proj2 (Nat.eqb_eq _ _) (Hone x eq_refl)) in H]; cbn [bind] in H.
  all: destruct (np_polyfit _ _ approx_degree) as [e | poly]; cbn [bind] in H;
    [discriminate|].
  all: destruct (run_stats _ _ stats _ _ _) as [e | st] eqn:Est; cbn [bind] in H;
    [discriminate|].
  all: inversion H; subst s; clear H; cbn [avg_value bins stats_names stats_val].
  all: split; [reflexivity|]; split; [apply kept_values_finite|];
    split; [rewrite <- Hav; unfold take; rewrite length_map; reflexivity|];
    split; [reflexivity|]; split; [exact Hone|];
    symmetry; eapply run_stats_lengths; exact Est.
Qed.

End AvoPlotBins.

Lemma avo_plot_kept_bins_witness :
  exists avg,
    AvoPlot.resolve_avg (AvoPlot.AvgStr "mean") = inr avg
    /\ AvoPlot.avg_value
         (AvoPlot.mk_summary [0; 20] [Fin (2 # 2); Fin (6 # 2)] [Fin 0; Fin 0] [] [])
       = filter (fun v => negb (f_is_zero v))
           (map nan_to_num
              (avg (map (map Avo.zero_to_nan)
                      (AvoPlot.transpose [[Fin 1; Fin 0; Fin 2]; [Fin 1; Fin 0; Fin 4]])))).
Proof.
  destruct (avo_plot_kept_bins (fun _ _ _ => inr []) (fun _ x => map (fun _ => Fin 0) x)
              (fun _ _ => Fin 0) (fun _ => Fin 0)
              [[Fin 1; Fin 0; Fin 2]; [Fin 1; Fin 0; Fin 4]] (AvoPlot.BinWidth 10)
              (AvoPlot.AvgStr "mean") 3 AvoPlot.StatsNone
              (AvoPlot.mk_summary [0; 20] [Fin (2 # 2); Fin (6 # 2)] [Fin 0; Fin 0] [] []))
    as [avg [H1 [H2 _]]].
  - vm_compute. reflexivity.
  - exists avg. split; [exact H1 | exact H2].
Defined.

(** ** The names of the distributions *)

Section StdPlotNames.

Import StdPlot.

Lemma map2_firstn {A B C : Type} (f : A -> B -> C) (a : list A) (b : list B) :
  map2 f a b = map2 f (firstn (length b) a) (firstn (length a) b).
Proof.
  revert b. induction a as [| x a IH]; intros [| y b]; simpl; try reflexivity.
  rewrite <- IH. reflexivity.
Qed.

Lemma map2_In {A B C : Type} (f : A -> B -> C) (a : list A) (b : list B) (z : C) :
  In z (map2 f a b) -> exists x y, In x a /\ In y b /\ z = f x y.
Proof.
  revert b. induction a as [| x a IH]; intros [| y b]; simpl; try contradiction.
  intros [<- | H].
  - exists x, y. auto.
  - destruct (IH b H) as [x' [y' [Hx [Hy E]]]]. exists x', y'. auto.
Qed.

Lemma series_rows_name (results : list (list Q)) (bin_size : Z) (nm : string) (r : row) :
  In r (series_rows results bin_size nm) -> name r = nm.
Proof.
  unfold series_rows. intros H. apply map2_In in H.
  destruct H as [v [o [_ [_ ->]]]]. reflexivity.
Qed.

(** X15.  Distributions and names are paired in order and the longer list
    is cut: given fewer names than distributions, the distributions without
    a name are left out of the plot, and no error is raised.  Every row of
    the table bears one of the names that were paired. *)
Theorem std_plot_pairs_names (avo_results : list (list (list Q))) (bin_size : Z)
    (names : list string) (align_mean : bool) :
  std_plot avo_results bin_size (Some names) align_mean
  = std_plot (firstn (length names) avo_results) bin_size
      (Some (firstn (length avo_results) names)) align_mean
  /\ forall r, In r (std_plot avo_results bin_size (Some names) align_mean) ->
               In (name r) (firstn (length avo_results) names).
Proof.
  assert (Htbl : build_table avo_results bin_size (Some names)
                 = build_table (firstn (length names) avo_results) bin_size
                     (Some (firstn (length avo_results) names))).
  { unfold build_table. rewrite <- map2_firstn. reflexivity. }
  split.
  - unfold std_plot. rewrite Htbl. reflexivity.
  - assert (Hin : forall r, In r (build_table avo_results bin_size (Some names)) ->
                            In (name r) (firstn (length avo_results) names)).
    { intros r Hr. rewrite Htbl in Hr. unfold build_table in Hr.
      apply in_concat in Hr. destruct Hr as [rows [Hrows Hr]].
      apply map2_In in Hrows. destruct Hrows as [res [nm [_ [Hnm ->]]]].
      apply series_rows_name in Hr. rewrite Hr. exact Hnm. }
    intros r Hr. unfold std_plot in Hr. destruct align_mean; [|apply Hin; exact Hr].
    rewrite align_is_shifted in Hr. unfold shifted in Hr.
    apply in_map_iff in Hr. destruct Hr as [r0 [<- Hr0]]. simpl. apply Hin. exact Hr0.
Qed.

End StdPlotNames.

(** ** Reading a tuple of integers *)

Section ParseTuple.

Import Horizon QcUtils.

Lemma split_length (sep : ascii) (s : str) :
  length (split sep s) = S (count_char sep s).
Proof.
  unfold count_char. induction s as [| c t IH]; [reflexivity|].
  simpl. rewrite (Ascii.eqb_sym sep c). destruct (Ascii.eqb c sep).
  - simpl. rewrite IH. reflexivity.
  - destruct (split sep t) as [| w ws] eqn:E; [discriminate IH|].
    simpl in *. exact IH.
Qed.

Lemma comprehension_length {A B : Type} (f : A -> exn + B) (l : list A) (r : list B) :
  comprehension f l = inr r -> length r = length l.
Proof.
  revert r. induction l as [| x t IH]; intros r; simpl.
  - intros E. inversion E. reflexivity.
  - destruct (f x) as [e | y]; cbn [bind]; [discriminate|].
    destruct (comprehension f t) as [e | ys]; cbn [bind]; [discriminate|].
    intros E. inversion E. simpl. rewrite (IH ys eq_refl). reflexivity.
Qed.

Lemma py_int_error (s : str) (e : exn) : py_int s = inl e -> e = ValueError.
Proof.
  unfold py_int. destruct (sign_of (strip s)) as [sg body].
  destruct (digitpart false 0 0 body) as [[v n] |]; [discriminate|].
  intros E. inversion E. reflexivity.
Qed.

Lemma comprehension_error {A B : Type} (f : A -> exn + B) (l : list A) (e e0 : exn) :
  (forall x e', f x = inl e' -> e' = e0) -> comprehension f l = inl e -> e = e0.
Proof.
  intros Hf. induction l as [| x t IH]; simpl; [discriminate|].
  destruct (f x) as [e1 | y] eqn:Ex; cbn [bind].
  - intros E. inversion E; subst. eapply Hf. exact Ex.
  - destruct (comprehension f t) as [e2 | ys]; cbn [bind]; [|discriminate].
    intros E. inversion E; subst. apply IH. reflexivity.
Qed.

(** X16.  What [parse_tuple] accepts.  A text without a comma is refused with
    ValueError; a text that is read gives one integer for each piece between
    commas, so two at least; and whatever is wrong with a piece, the error is
    a ValueError. *)
Theorem parse_tuple_shape (str_arg : str) :
  (count_char "," str_arg = 0%nat -> parse_tuple str_arg = inl ValueError)
  /\ (forall l, parse_tuple str_arg = inr l ->
        length l = S (count_char "," str_arg) /\ (2 <= length l)%nat)
  /\ (forall e, parse_tuple str_arg = inl e -> e = ValueError).
Proof.
  unfold parse_tuple. pose proof (split_length "," str_arg) as Hlen.
  split; [|split].
  - intros H0. rewrite Hlen, H0. reflexivity.
  - intros l. destruct (Nat.ltb_spec (length (split "," str_arg)) 2) as [Hlt | Hge];
      [discriminate|].
    intros E. apply comprehension_length in E. rewrite E. split; [exact Hlen | exact Hge].
  - intros e. destruct (Nat.ltb (length (split "," str_arg)) 2).
    + intros E. inversion E. reflexivity.
    + apply comprehension_error. apply py_int_error.
Qed.


(** *** Reading back what [str] prints *)

Lemma split_sep_free_id (sep : ascii) (s : str) : ~ In sep s -> split sep s = [s].
Proof.
  induction s as [| c t IH]; intros H; [reflexivity|]. simpl.
  destruct (Ascii.eqb c sep) eqn:E.
  - apply Ascii.eqb_eq in E. subst. exfalso. apply H. left. reflexivity.
  - rewrite IH by (intros Hin; apply H; right; exact Hin). reflexivity.
Qed.

Lemma split_app_sep (sep : ascii) (a b : str) :
  ~ In sep a -> split sep (a ++ sep :: b) = a :: split sep b.
Proof.
  induction a as [| c t IH]; intros H; simpl.
  - rewrite Ascii.eqb_refl. reflexivity.
  - destruct (Ascii.eqb c sep) eqn:E.
    + apply Ascii.eqb_eq in E. subst. exfalso. apply H. left. reflexivity.
    + rewrite IH by (intros Hin; apply H; right; exact Hin). reflexivity.
Qed.

Lemma split_join (sep : ascii) (toks : list str) :
  toks <> [] -> Forall (fun t => ~ In sep t) toks -> split sep (py_join sep toks) = toks.
Proof.
  induction toks as [| t rest IH]; intros Hne Hfree; [congruence|].
  inversion Hfree as [| ? ? Ht Hrest]; subst.
  destruct rest as [| t' rest'].
  - simpl. apply split_sep_free_id. exact Ht.
  - change (py_join sep (t :: t' :: rest')) with (t ++ sep :: py_join sep (t' :: rest')).
    rewrite split_app_sep by exact Ht. rewrite IH; [reflexivity | discriminate | exact Hrest].
Qed.

Lemma digit_chars_digits (d : Decimal.uint) :
  Forall (fun c => is_digit c = true) (digit_chars d).
Proof.
  unfold digit_chars. induction d; simpl; constructor; try reflexivity; assumption.
Qed.

Lemma digitpart_digit (b : bool) (acc : Z) (cnt : nat) (c : ascii) (t : str) :
  is_digit c = true ->
  digitpart b acc cnt (c :: t) = digitpart true (10 * acc + digit_val c) (S cnt) t.
Proof. intros H. simpl. rewrite H. reflexivity. Qed.

Ltac read_digit :=
  cbn [DecimalString.NilEmpty.string_of_uint list_ascii_of_string Pos.of_uint_acc
       Pos.of_uint];
  rewrite digitpart_digit by reflexivity;
  match goal with
  | |- context [digit_val ?ch] =>
      let v := eval vm_compute in (digit_val ch) in change (digit_val ch) with v
  end.

Lemma digitpart_acc (d : Decimal.uint) :
  forall (acc : positive) (cnt : nat),
    exists c, digitpart true (Z.pos acc) cnt (digit_chars d)
              = Some (Z.pos (Pos.of_uint_acc d acc), c).
Proof.
  unfold digit_chars.
  induction d as [| d IH | d IH | d IH | d IH | d IH | d IH | d IH | d IH | d IH | d IH];
    intros acc cnt; [eexists; reflexivity | | | | | | | | | |];
    read_digit;
    (match goal with
     | |- context [Pos.of_uint_acc d ?a] =>
         replace (10 * Z.pos acc + _)%Z with (Z.pos a) by lia; apply IH
     end).
Qed.

Lemma digitpart_of_uint (d : Decimal.uint) :
  forall (b : bool) (cnt : nat),
    b = true \/ d <> Decimal.Nil ->
    exists c, digitpart b 0 cnt (digit_chars d) = Some (Z.of_N (Pos.of_uint d), c).
Proof.
  unfold digit_chars.
  induction d as [| d IH | d IH | d IH | d IH | d IH | d IH | d IH | d IH | d IH | d IH];
    intros b cnt Hb.
  - destruct Hb as [-> | Hb]; [eexists; reflexivity | congruence].
  - read_digit. apply (IH true (S cnt)). left. reflexivity.
  - read_digit. apply (digitpart_acc d 1 (S cnt)).
  - read_digit. apply (digitpart_acc d 2 (S cnt)).
  - read_digit. apply (digitpart_acc d 3 (S cnt)).
  - read_digit. apply (digitpart_acc d 4 (S cnt)).
  - read_digit. apply (digitpart_acc d 5 (S cnt)).
  - read_digit. apply (digitpart_acc d 6 (S cnt)).
  - read_digit. apply (digitpart_acc d 7 (S cnt)).
  - read_digit. apply (digitpart_acc d 8 (S cnt)).
  - read_digit. apply (digitpart_acc d 9 (S cnt)).
Qed.

Lemma lstrip_id (s : str) :
  match s with [] => True | c :: _ => is_space c = false end -> lstrip s = s.
Proof. destruct s as [| c t]; [reflexivity|]. simpl. intros ->. reflexivity. Qed.

Lemma strip_id (s : str) : Forall (fun c => is_space c = false) s -> strip s = s.
Proof.
  intros H. unfold strip. rewrite (lstrip_id s) by (destruct H; auto).
  rewrite (lstrip_id (rev s)); [apply rev_involutive|].
  apply Forall_rev in H. destruct H; auto.
Qed.

Lemma digit_not_space (c : ascii) : is_digit c = true -> is_space c = false.
Proof.
  unfold is_digit, is_space. intros H. apply andb_true_iff in H. destruct H as [H1 H2].
  apply Nat.leb_le in H1. apply Nat.leb_le in H2.
  apply orb_false_iff. split; apply andb_false_iff.
  - right. apply Nat.leb_gt. lia.
  - right. apply Nat.leb_gt. lia.
Qed.

Lemma digit_not_char (c x : ascii) :
  is_digit c = true -> is_digit x = false -> Ascii.eqb c x = false.
Proof.
  intros Hc Hx. destruct (Ascii.eqb c x) eqn:E; [|reflexivity].
  apply Ascii.eqb_eq in E. subst. congruence.
Qed.

Lemma py_int_digit_chars (d : Decimal.uint) :
  d <> Decimal.Nil -> py_int (digit_chars d) = inr (Z.of_uint d).
Proof.
  intros Hd. unfold py_int.
  pose proof (digit_chars_digits d) as Hdig.
  rewrite strip_id
    by (eapply Forall_impl; [|exact Hdig]; intros c Hc; apply digit_not_space, Hc).
  destruct (digitpart_of_uint d false 0 (or_intror Hd)) as [c Hc].
  assert (Hsign : sign_of (digit_chars d) = (1%Z, digit_chars d)).
  { destruct (digit_chars d) as [| x t]; [reflexivity|].
    inversion Hdig as [| ? ? Hx _]; subst. unfold sign_of.
    rewrite (digit_not_char x "-") by (exact Hx || reflexivity).
    rewrite (digit_not_char x "+") by (exact Hx || reflexivity). reflexivity. }
  rewrite Hsign, Hc. unfold Z.of_uint. f_equal; lia.
Qed.

Lemma py_int_minus_digit_chars (d : Decimal.uint) :
  d <> Decimal.Nil -> py_int ("-"%char :: digit_chars d) = inr (- Z.of_uint d)%Z.
Proof.
  intros Hd. unfold py_int.
  pose proof (digit_chars_digits d) as Hdig.
  rewrite strip_id.
  - destruct (digitpart_of_uint d false 0 (or_intror Hd)) as [c Hc].
    cbn [sign_of]. rewrite Ascii.eqb_refl, Hc. unfold Z.of_uint. f_equal; lia.
  - constructor; [reflexivity|].
    eapply Forall_impl; [|exact Hdig]. intros c Hc. apply digit_not_space, Hc.
Qed.

Lemma nilzero_chars (d : Decimal.uint) :
  d <> Decimal.Nil ->
  list_ascii_of_string (DecimalString.NilZero.string_of_uint d) = digit_chars d.
Proof. intros H. destruct d; [congruence | reflexivity ..]. Qed.

(** [int(str(z))] is [z]. *)
Lemma py_int_py_str (z : Z) : py_int (py_str_int z) = inr z.
Proof.
  unfold py_str_int. rewrite <- (DecimalZ.of_to z) at 2.
  destruct z as [| p | p]; cbn [Z.to_int Z.of_int DecimalString.NilZero.string_of_int].
  - reflexivity.
  - pose proof (DecimalPos.Unsigned.to_uint_nonnil p) as Hn.
    rewrite nilzero_chars by exact Hn. apply py_int_digit_chars. exact Hn.
  - pose proof (DecimalPos.Unsigned.to_uint_nonnil p) as Hn.
    cbn [list_ascii_of_string]. rewrite nilzero_chars by exact Hn.
    apply py_int_minus_digit_chars. exact Hn.
Qed.

Lemma py_str_no_comma (z : Z) : ~ In ","%char (py_str_int z).
Proof.
  assert (Hd : forall d, ~ In ","%char (digit_chars d)).
  { intros d Hin. pose proof (digit_chars_digits d) as H. rewrite Forall_forall in H.
    specialize (H _ Hin). discriminate. }
  unfold py_str_int.
  destruct z as [| p | p]; cbn [Z.to_int DecimalString.NilZero.string_of_int].
  - simpl. intros [H | []]. discriminate.
  - rewrite nilzero_chars by apply DecimalPos.Unsigned.to_uint_nonnil. apply Hd.
  - cbn [list_ascii_of_string].
    rewrite nilzero_chars by apply DecimalPos.Unsigned.to_uint_nonnil.
    intros [H | H]; [discriminate | revert H; apply Hd].
Qed.

Lemma comprehension_map {A B : Type} (f : A -> exn + B) (g : B -> A) (l : list B) :
  (forall y, f (g y) = inr y) -> comprehension f (map g l) = inr l.
Proof.
  intros H. induction l as [| y l IH]; [reflexivity|].
  simpl. rewrite H. cbn [bind]. rewrite IH. reflexivity.
Qed.

(** X17.  Reading back.  Two integers or more, printed in decimal and joined
    with commas, are read back as they were. *)
Theorem parse_tuple_round_trip (zs : list Z) :
  (2 <= length zs)%nat ->
  parse_tuple (py_join "," (map py_str_int zs)) = inr zs.
Proof.
  intros Hlen. unfold parse_tuple.
  rewrite split_join.
  - rewrite length_map.
    destruct (Nat.ltb_spec (length zs) 2) as [Hlt | _]; [lia|].
    apply comprehension_map. apply py_int_py_str.
  - destruct zs; [simpl in Hlen; lia | discriminate].
  - apply Forall_map. apply Forall_forall. intros z _. apply py_str_no_comma.
Qed.

Lemma parse_tuple_round_trip_witness :
  parse_tuple (py_join "," (map py_str_int [120; -7; 0]%Z)) = inr [120; -7; 0]%Z.
Proof. apply (parse_tuple_round_trip [120; -7; 0]%Z). simpl. lia. Defined.

End ParseTuple.

(** ** The spread of a semblance *)

Section SemblanceFacts.

Import SemblanceMetrics QcUtils.

Lemma Qmax_list_in (d : Q) (l : list Q) : In (Qmax_list d l) (d :: l).
Proof.
  revert d. induction l as [| y l IH]; intros d; simpl; [left; reflexivity|].
  destruct (Qlt_bool d y).
  - right. apply (IH y).
  - destruct (IH d) as [H | H]; [left; exact H | right; right; exact H].
Qed.

Lemma Qmin_list_in (d : Q) (l : list Q) : In (Qmin_list d l) (d :: l).
Proof.
  revert d. induction l as [| y l IH]; intros d; simpl; [left; reflexivity|].
  destruct (Qlt_bool y d).
  - right. apply (IH y).
  - destruct (IH d) as [H | H]; [left; exact H | right; right; exact H].
Qed.

Lemma axis1_rows (m : list (list Q)) :
  ~ In [] m ->
  exists maxs mins,
    np_max_axis1 m = inr maxs /\ np_min_axis1 m = inr mins
    /\ map2 Qminus maxs mins = map spread m.
Proof.
  unfold np_max_axis1, np_min_axis1.
  induction m as [| row m IH]; intros Hne.
  - exists [], []. repeat split.
  - destruct IH as [maxs [mins [H1 [H2 H3]]]]; [intros H; apply Hne; right; exact H|].
    destruct row as [| x t]; [exfalso; apply Hne; left; reflexivity|].
    exists (Qmax_list x t :: maxs), (Qmin_list x t :: mins).
    simpl. rewrite H1, H2. cbn [bind]. rewrite H3. repeat split.
Qed.

Lemma axis1_empty_row (m : list (list Q)) :
  In [] m ->
  (exists e, np_max_axis1 m = inl e /\ e = ValueError).
Proof.
  unfold np_max_axis1. induction m as [| row m IH]; intros Hin; [contradiction|].
  simpl. destruct row as [| x t].
  - exists ValueError. split; reflexivity.
  - destruct Hin as [H | Hin]; [discriminate|]. destruct (IH Hin) as [e [He ->]].
    cbn [np_max bind]. rewrite He. exists ValueError. split; reflexivity.
Qed.

Lemma spread_bounds (row : list Q) (a b : Q) :
  In a row -> In b row -> a - b <= spread row.
Proof.
  destruct row as [| x t]; [contradiction|]. intros Ha Hb. unfold spread.
  destruct (Qmax_list_ge x t) as [H1 H2]. destruct (Qmin_list_le x t) as [H3 H4].
  assert (Ha' : a <= Qmax_list x t) by (destruct Ha as [<- | Ha]; auto).
  assert (Hb' : Qmin_list x t <= b) by (destruct Hb as [<- | Hb]; auto).
  Lqa.lra.
Qed.

(** X18.  The value of [calculate_minmax].  On an array with no row, or with
    rows of no value, it raises ValueError.  Otherwise it is the largest
    spread of a row: no two values of one row differ by more, two values of
    some row differ by exactly that much, it is never negative, and it is
    zero exactly when every row is constant. *)
Theorem calculate_minmax_spread (semblance : list (list Q)) :
  (semblance = [] \/ In [] semblance -> calculate_minmax semblance = inl ValueError)
  /\ (semblance <> [] -> ~ In [] semblance ->
      exists v,
        calculate_minmax semblance = inr v
        /\ (forall row a b, In row semblance -> In a row -> In b row -> a - b <= v)
        /\ (exists row a b, In row semblance /\ In a row /\ In b row /\ v = a - b)
        /\ 0 <= v
        /\ (v == 0 <-> forall row a b, In row semblance -> In a row -> In b row -> a == b)).
Proof.
  unfold calculate_minmax. split.
  - intros [-> | Hin]; [reflexivity|].
    destruct (axis1_empty_row semblance Hin) as [e [He ->]]. rewrite He. reflexivity.
  - intros Hne Hrows.
    destruct (axis1_rows semblance Hrows) as [maxs [mins [H1 [H2 H3]]]].
    rewrite H1, H2. cbn [bind]. rewrite H3.
    destruct semblance as [| r0 rest]; [congruence|].
    cbn [map np_max]. set (v := Qmax_list (spread r0) (map spread rest)).
    exists v.
    assert (Hub : forall row a b, In row (r0 :: rest) -> In a row -> In b row -> a - b <= v).
    { intros row a b Hrow Ha Hb.
      apply Qle_trans with (spread row); [apply spread_bounds; assumption|].
      destruct (Qmax_list_ge (spread r0) (map spread rest)) as [G1 G2].
      destruct Hrow as [<- | Hrow]; [exact G1|]. apply G2, in_map, Hrow. }
    assert (Hat : exists row a b, In row (r0 :: rest) /\ In a row /\ In b row /\ v = a - b).
    { assert (Hv : In v (map spread (r0 :: rest))) by apply Qmax_list_in.
      apply in_map_iff in Hv. destruct Hv as [row [Ev Hrow]].
      destruct row as [| x t]; [exfalso; apply Hrows; exact Hrow|].
      exists (x :: t), (Qmax_list x t), (Qmin_list x t).
      split; [exact Hrow|]. split; [apply Qmax_list_in|]. split; [apply Qmin_list_in|].
      symmetry. exact Ev. }
    split; [reflexivity|]. split; [exact Hub|]. split; [exact Hat|].
    assert (H0 : 0 <= v).
    { destruct Hat as [row [a [b [Hrow [Ha [Hb Ev]]]]]].
      pose proof (Hub row a a Hrow Ha Ha) as H. Lqa.lra. }
    split; [exact H0|]. split.
    + intros Hz row a b Hrow Ha Hb.
      pose proof (Hub row a b Hrow Ha Hb). pose proof (Hub row b a Hrow Hb Ha). Lqa.lra.
    + intros Hconst. destruct Hat as [row [a [b [Hrow [Ha [Hb Ev]]]]]].
      rewrite Ev. rewrite (Hconst row a b Hrow Ha Hb). ring.
Qed.

End SemblanceFacts.

(** ** The cells of a figure *)

Section PlotFacts.

Import QcUtils QcPlots.

Variable prepare : nat -> exn + unit.
Variable decorate : nat -> exn + unit.

Lemma comprehension_ok {A B : Type} (f : A -> exn + B) (g : A -> B) (l : list A) :
  (forall x, In x l -> f x = inr (g x)) -> comprehension f l = inr (map g l).
Proof.
  induction l as [| x l IH]; intros H; [reflexivity|].
  simpl. rewrite (H x) by (left; reflexivity). cbn [bind].
  rewrite IH by (intros y Hy; apply H; right; exact Hy). reflexivity.
Qed.

Lemma comprehension_fails {A B : Type} (f : A -> exn + B) (pre : list A) (x : A)
    (post : list A) (e : exn) :
  (forall y, In y pre -> exists b, f y = inr b) -> f x = inl e ->
  comprehension f (pre ++ x :: post) = inl e.
Proof.
  intros Hpre Hx. induction pre as [| y pre IH]; simpl.
  - rewrite Hx. reflexivity.
  - destruct (Hpre y (or_introl eq_refl)) as [b Hb]. rewrite Hb. cbn [bind].
    rewrite IH by (intros z Hz; apply Hpre; right; exact Hz). reflexivity.
Qed.

(** The number of rows is the least that holds the images. *)
Lemma rows_ceiling (n cols : nat) :
  (0 < cols)%nat ->
  let rows := if negb (n mod cols =? 0)%nat then (n / cols + 1)%nat else (n / cols)%nat in
  (n <= rows * cols)%nat /\ (rows * cols < n + cols)%nat.
Proof.
  intros Hc rows. pose proof (Nat.div_mod_eq n cols) as Hdm.
  pose proof (Nat.mod_upper_bound n cols ltac:(lia)) as Hm.
  subst rows. destruct (Nat.eqb_spec (n mod cols) 0) as [E | E]; simpl; nia.
Qed.

(** The cells in the order of the loops: number [k] is [(k / cols, k mod cols)]. *)
Lemma list_prod_seq (rows cols : nat) :
  (0 < cols)%nat ->
  list_prod (seq 0 rows) (seq 0 cols)
  = map (fun k => (k / cols, k mod cols)%nat) (seq 0 (rows * cols)).
Proof.
  intros Hc.
  assert (H : forall r0,
             list_prod (seq r0 rows) (seq 0 cols)
             = map (fun k => (k / cols, k mod cols)%nat) (seq (r0 * cols) (rows * cols))).
  { induction rows as [| rows IH]; intros r0; [reflexivity|].
    cbn [seq list_prod]. rewrite IH.
    replace (S rows * cols)%nat with (cols + rows * cols)%nat by lia.
    rewrite seq_app, map_app. f_equal.
    - clear IH. apply nth_ext with (d := (0, 0)%nat) (d' := (0, 0)%nat);
        [rewrite !length_map, !length_seq; reflexivity|].
      intros k Hk. rewrite length_map, length_seq in Hk.
      rewrite (nth_indep _ (0, 0)%nat ((fun y => (r0, y)) 0%nat))
        by (rewrite length_map, length_seq; exact Hk).
      rewrite (map_nth (fun y => (r0, y))), seq_nth by exact Hk.
      rewrite (nth_indep _ (0, 0)%nat ((fun k => (k / cols, k mod cols)%nat) 0%nat))
        by (rewrite length_map, length_seq; exact Hk).
      rewrite (map_nth (fun k => (k / cols, k mod cols)%nat)), seq_nth by exact Hk.
      simpl. f_equal.
      + symmetry. rewrite Nat.add_comm, Nat.div_add by lia.
        rewrite Nat.div_small by exact Hk. reflexivity.
      + symmetry. rewrite Nat.add_comm, Nat.Div0.mod_add. apply Nat.mod_small. exact Hk.
    - f_equal. f_equal. lia. }
  apply (H 0%nat).
Qed.


Lemma comprehension_map_ok {A B C : Type} (f : B -> exn + C) (h : A -> B) (g : A -> C)
    (l : list A) :
  (forall x, In x l -> f (h x) = inr (g x)) -> comprehension f (map h l) = inr (map g l).
Proof.
  induction l as [| x l IH]; intros H; [reflexivity|].
  simpl. rewrite (H x) by (left; reflexivity). cbn [bind].
  rewrite IH by (intros y Hy; apply H; right; exact Hy). reflexivity.
Qed.

(** X19.  The grid of [plot_metrics].  With at least one image, and more than
    one column unless there is one image only, and when the work on each
    image raises nothing, the figure has the least number of rows that holds
    the images, the cells are visited row by row, image [k] is shown in cell
    number [k], that is in row [k / cols] and column [k mod cols], and the
    cells after the last image, fewer than [cols], are removed. *)
Theorem plot_metrics_cells (n cols : nat) :
  (0 < n)%nat -> (0 < cols)%nat -> (cols = 1%nat -> n = 1%nat) ->
  (forall k, (k < n)%nat -> prepare k = inr tt /\ decorate k = inr tt) ->
  exists rows,
    plot_metrics prepare decorate n cols
    = inr (map (cell_action n cols) (seq 0 (rows * cols)))
    /\ (n <= rows * cols)%nat /\ (rows * cols < n + cols)%nat.
Proof.
  intros Hn Hc Hone Hok. unfold plot_metrics.
  destruct (Nat.eqb_spec cols 0) as [E | _]; [lia|].
  pose proof (rows_ceiling n cols Hc) as Hrows. cbv zeta in Hrows.
  set (rows := if negb (n mod cols =? 0)%nat then (n / cols + 1)%nat else (n / cols)%nat) in *.
  destruct Hrows as [Hlo Hhi].
  exists rows. split; [|split; assumption].
  assert (Hr : (0 < rows)%nat) by nia.
  assert (Hax : exists a, plt_subplots rows cols = inr a /\ np_atleast_2d a = Ax2 rows cols).
  { unfold plt_subplots.
    destruct (Nat.eqb_spec rows 0) as [E | _]; [lia|].
    destruct (Nat.eqb_spec cols 0) as [E | _]; [lia|]. cbn [orb].
    destruct (Nat.eqb_spec rows 1) as [Er | Er];
      destruct (Nat.eqb_spec cols 1) as [Ec | Ec]; cbn [andb].
    - exists AxScalar. rewrite Er, Ec. split; reflexivity.
    - exists (Ax1 cols). rewrite Er. split; reflexivity.
    - exfalso. specialize (Hone Ec). subst. nia.
    - exists (Ax2 rows cols). split; reflexivity. }
  destruct Hax as [a [Ha Ha2]]. rewrite Ha. cbn [bind]. rewrite Ha2.
  rewrite list_prod_seq by exact Hc.
  apply comprehension_map_ok. intros k Hk. apply in_seq in Hk.
  unfold cell, cell_action.
  assert (Ek : (k / cols * cols + k mod cols)%nat = k).
  { pose proof (Nat.div_mod_eq k cols). lia. }
  rewrite Ek.
  assert (Hi : (k / cols <? rows)%nat = true).
  { apply Nat.ltb_lt. apply Nat.Div0.div_lt_upper_bound. lia. }
  assert (Hj : (k mod cols <? cols)%nat = true).
  { apply Nat.ltb_lt. apply Nat.mod_upper_bound. lia. }
  destruct (Nat.ltb_spec k n) as [Hlt | Hge].
  - destruct (Hok k Hlt) as [Hp Hd]. rewrite Hp. cbn [bind ax_index].
    rewrite Hi. cbn [bind ax_index]. rewrite Hj. cbn [bind]. rewrite Hd. reflexivity.
  - cbn [bind ax_index]. rewrite Hi. cbn [bind ax_index]. rewrite Hj. reflexivity.
Qed.

(** X20.  One column.  With [cols = 1] and two images or more the call fails:
    the axes come back as a one-dimensional array, which is made a single
    row, and the second row is looked up in it.  When the work on the first
    two images raises nothing the error is IndexError, after the first image
    has been shown. *)
Theorem plot_metrics_one_column (n : nat) :
  (2 <= n)%nat ->
  (exists e, plot_metrics prepare decorate n 1 = inl e)
  /\ (prepare 0%nat = inr tt -> decorate 0%nat = inr tt -> prepare 1%nat = inr tt ->
      plot_metrics prepare decorate n 1 = inl IndexError).
Proof.
  intros Hn. destruct n as [| [| m]]; try lia.
  assert (Hrun : plot_metrics prepare decorate (S (S m)) 1
                 = comprehension (cell prepare decorate (S (S m)) 1 (Ax2 1 (S (S m))))
                     ((0, 0) :: (1, 0) :: list_prod (seq 2 m) (seq 0 1))%nat).
  { unfold plot_metrics. cbn [Nat.eqb]. rewrite Nat.mod_1_r, Nat.div_1_r.
    cbn [Nat.eqb negb plt_subplots orb andb bind np_atleast_2d seq list_prod map app].
    reflexivity. }
  rewrite Hrun.
  assert (Hsecond : cell prepare decorate (S (S m)) 1 (Ax2 1 (S (S m))) (1, 0)%nat
                    = (_ <- prepare 1%nat ;; inl IndexError)).
  { unfold cell. cbn [Nat.mul Nat.add Nat.ltb Nat.leb ax_index bind].
    destruct (prepare 1%nat); reflexivity. }
  split.
  - cbn [comprehension]. rewrite Hsecond.
    destruct (cell prepare decorate (S (S m)) 1 (Ax2 1 (S (S m))) (0, 0)%nat) as [e | a];
      cbn [bind]; [eauto|].
    destruct (prepare 1%nat) as [e | u]; cbn [bind]; eauto.
  - intros H0 H0' H1. cbn [comprehension]. rewrite Hsecond, H1.
    unfold cell. cbn [Nat.mul Nat.add Nat.ltb Nat.leb ax_index bind].
    rewrite H0. cbn [bind]. rewrite H0'. reflexivity.
Qed.

(** X21.  The images of [plot_slice].  With one image the call fails: the
    axes come back as a single object, which cannot be indexed, so that
    TypeError is raised once the image is ready.  With two images or more,
    when the work on each raises nothing, they are shown one below the other
    in their order. *)
Theorem plot_slice_images (rows : nat) :
  (rows = 1%nat ->
   (exists e, plot_slice prepare decorate rows = inl e)
   /\ (prepare 0%nat = inr tt -> plot_slice prepare decorate rows = inl TypeError))
  /\ ((2 <= rows)%nat ->
      (forall k, (k < rows)%nat -> prepare k = inr tt /\ decorate k = inr tt) ->
      plot_slice prepare decorate rows = inr (map (fun k => Imshow k 0 k) (seq 0 rows))).
Proof.
  split.
  - intros ->. unfold plot_slice. cbn [plt_subplots Nat.eqb orb andb bind seq comprehension
                                        ax_index].
    split.
    + destruct (prepare 0%nat); cbn [bind]; eauto.
    + intros ->. reflexivity.
  - intros Hr Hok. unfold plot_slice.
    assert (Hax : plt_subplots rows 1 = inr (Ax1 rows)).
    { unfold plt_subplots. destruct rows as [| [| m]]; try lia. reflexivity. }
    rewrite Hax. cbn [bind]. apply comprehension_ok. intros k Hk. apply in_seq in Hk.
    destruct (Hok k ltac:(lia)) as [Hp Hd]. rewrite Hp. cbn [bind ax_index].
    destruct (Nat.ltb_spec k rows) as [_ | Hge]; [|lia]. cbn [bind]. rewrite Hd. reflexivity.
Qed.

End PlotFacts.

Lemma plot_metrics_cells_witness :
  exists rows,
    QcPlots.plot_metrics (fun _ => inr tt) (fun _ => inr tt) 5 2
    = inr (map (cell_action 5 2) (seq 0 (rows * 2)))
    /\ (5 <= rows * 2)%nat /\ (rows * 2 < 5 + 2)%nat.
Proof.
  apply (plot_metrics_cells (fun _ => inr tt) (fun _ => inr tt) 5 2).
  - lia.
  - lia.
  - intros H. discriminate H.
  - intros k _. split; reflexivity.
Defined.

Lemma plot_metrics_one_column_witness :
  QcPlots.plot_metrics (fun _ => inr tt) (fun _ => inr tt) 3 1 = inl IndexError.
Proof.
  apply (plot_metrics_one_column (fun _ => inr tt) (fun _ => inr tt) 3); [lia | | |];
    reflexivity.
Defined.

(** ** The colour range *)

Section RangeFacts.

Import QcRange.

Variable array3 : Type.
Variable shape_last : array3 -> nat.
Variable np_nanpercentile : array3 -> Q -> list f64.

Lemma f_min2_small (p : f64) :
  (p = NaN -> f_min2 p (Fin (- small)) = NaN)
  /\ (p <> NaN ->
      f_ltb (f_min2 p (Fin (- small))) (Fin 0) = true
      /\ (f_ltb (Fin (- small)) p = false -> f_min2 p (Fin (- small)) = p)
      /\ (f_ltb (Fin (- small)) p = true -> f_min2 p (Fin (- small)) = Fin (- small))).
Proof.
  split; [intros ->; reflexivity|]. intros Hp.
  destruct p as [q | | |]; try congruence; try (repeat split; (reflexivity || discriminate)).
  unfold f_min2. cbn [f_ltb].
  destruct (Qlt_bool (- small) q) eqn:E.
  - repeat split; try reflexivity; discriminate.
  - split; [|split; [reflexivity | discriminate]].
    cbn [f_ltb]. apply Qlt_bool_iff.
    assert (Hq : q <= - small).
    { destruct (Qlt_le_dec (- small) q) as [H | H]; [|exact H].
      apply Qlt_bool_iff in H. congruence. }
    unfold small in *. Lqa.lra.
Qed.

Lemma f_max2_small (p : f64) :
  (p = NaN -> f_max2 p (Fin small) = NaN)
  /\ (p <> NaN ->
      f_ltb (Fin 0) (f_max2 p (Fin small)) = true
      /\ (f_ltb p (Fin small) = false -> f_max2 p (Fin small) = p)
      /\ (f_ltb p (Fin small) = true -> f_max2 p (Fin small) = Fin small)).
Proof.
  split; [intros ->; reflexivity|]. intros Hp.
  destruct p as [q | | |]; try congruence; try (repeat split; (reflexivity || discriminate)).
  unfold f_max2. cbn [f_ltb].
  destruct (Qlt_bool q small) eqn:E.
  - repeat split; try reflexivity; discriminate.
  - split; [|split; [reflexivity | discriminate]].
    cbn [f_ltb]. apply Qlt_bool_iff.
    assert (Hq : small <= q).
    { destruct (Qlt_le_dec q small) as [H | H]; [|exact H].
      apply Qlt_bool_iff in H. congruence. }
    unfold small in *. Lqa.lra.
Qed.

Lemma length_map2_repeat {A B : Type} (f : A -> B -> A) (l : list A) (y : B) (n : nat) :
  length l = n -> length (map2 f l (repeat y n)) = n.
Proof. intros <-. rewrite map2_repeat. apply length_map. Qed.

Lemma nth_map2_repeat {A B : Type} (f : A -> B -> A) (l : list A) (y : B) (d : A)
    (n i : nat) :
  length l = n -> (i < n)%nat ->
  nth i (map2 f l (repeat y n)) d = f (nth i l d) y.
Proof.
  intros <- H. rewrite map2_repeat.
  rewrite (nth_indep _ d ((fun x => f x y) d)) by (rewrite length_map; exact H).
  apply (map_nth (fun x => f x y)).
Qed.

(** X22.  The range of [calc_range].  For every image whose percentiles are
    numbers the lower bound is below zero and the upper bound above it: the
    5th percentile is kept when it is at most [-1e-6] and replaced by
    [-1e-6] otherwise, the 95th is kept when it is at least [1e-6] and
    replaced by [1e-6] otherwise.  A percentile that is not a number (an
    image without a value) gives a bound that is not a number. *)
Theorem calc_range_signs (arr : array3) :
  length (np_nanpercentile arr 5) = shape_last arr ->
  length (np_nanpercentile arr 95) = shape_last arr ->
  let vmins := fst (calc_range array3 shape_last np_nanpercentile arr) in
  let vmaxs := snd (calc_range array3 shape_last np_nanpercentile arr) in
  length vmins = shape_last arr /\ length vmaxs = shape_last arr
  /\ forall i, (i < shape_last arr)%nat ->
       let lo := nth i (np_nanpercentile arr 5) NaN in
       let hi := nth i (np_nanpercentile arr 95) NaN in
       let vmin := nth i vmins NaN in
       let vmax := nth i vmaxs NaN in
       (lo = NaN -> vmin = NaN)
       /\ (hi = NaN -> vmax = NaN)
       /\ (lo <> NaN ->
           f_ltb vmin (Fin 0) = true
           /\ (f_ltb (Fin (- small)) lo = false -> vmin = lo)
           /\ (f_ltb (Fin (- small)) lo = true -> vmin = Fin (- small)))
       /\ (hi <> NaN ->
           f_ltb (Fin 0) vmax = true
           /\ (f_ltb hi (Fin small) = false -> vmax = hi)
           /\ (f_ltb hi (Fin small) = true -> vmax = Fin small)).
Proof.
  intros H5 H95. unfold calc_range. cbn [fst snd].
  split; [apply length_map2_repeat; exact H5|].
  split; [apply length_map2_repeat; exact H95|].
  intros i Hi. cbv zeta.
  rewrite (nth_map2_repeat f_min2 _ _ NaN (shape_last arr) i H5 Hi).
  rewrite (nth_map2_repeat f_max2 _ _ NaN (shape_last arr) i H95 Hi).
  destruct (f_min2_small (nth i (np_nanpercentile arr 5) NaN)) as [A1 A2].
  destruct (f_max2_small (nth i (np_nanpercentile arr 95) NaN)) as [B1 B2].
  repeat split; try (apply A1; assumption); try (apply B1; assumption);
    try (apply A2; assumption); try (apply B2; assumption).
Qed.

End RangeFacts.

Lemma calc_range_signs_witness :
  length (fst (QcRange.calc_range (list f64 * list f64) (fun a => length (fst a))
                 (fun a q => if Qeq_bool q 5 then fst a else snd a)
                 ([Fin 3; Fin (-2); NaN], [Fin 4; Fin (-1); NaN]))) = 3%nat.
Proof.
  apply (calc_range_signs (list f64 * list f64) (fun a => length (fst a))
           (fun a q => if Qeq_bool q 5 then fst a else snd a)
           ([Fin 3; Fin (-2); NaN], [Fin 4; Fin (-1); NaN])); reflexivity.
Defined.

(** ** Merging SEG-Y files *)

Section MergeFacts.

Variable trace : Type.
Variable fields : Type.
Variable iglob : string -> list string.
Variable segyio_open : string -> exn + FileUtils.segy_file trace fields.
Variable segyio_create : nat -> option (list Q) -> exn + unit.

Local Abbreviation segy_file := (FileUtils.segy_file trace fields).
Local Abbreviation tracecount := (FileUtils.tracecount trace fields).
Local Abbreviation renumber := (FileUtils.renumber trace fields).
Local Abbreviation check_files := (FileUtils.check_files trace fields segyio_open).
Local Abbreviation copy_files := (FileUtils.copy_files trace fields segyio_open).
Local Abbreviation merge_segy_files :=
  (FileUtils.merge_segy_files trace fields iglob segyio_open segyio_create).
Local Abbreviation payload :=
  (map (fun ht => (FileUtils.others fields (fst ht), snd ht))).
Local Abbreviation sequence :=
  (map (fun ht => FileUtils.TRACE_SEQUENCE_FILE fields (fst ht))).

(** The files of a list as they are opened. *)
Local Abbreviation opened := (Forall2 (fun name f => segyio_open name = inr f)).

Lemma check_files_opens (names : list string) :
  forall s n r,
    check_files names s n = inr r -> exists fs, opened names fs.
Proof.
  induction names as [| name names IH]; intros s n r H.
  - exists []. constructor.
  - simpl in H. destruct (segyio_open name) as [e | f] eqn:Ef; cbn [bind] in H;
      [discriminate|].
    assert (Hrest : exists s' n' , check_files names s' n' = inr r).
    { destruct s as [s0 |].
      - destruct (FileUtils.all_differ s0 (FileUtils.samples trace fields f));
          [discriminate | eauto].
      - eauto. }
    destruct Hrest as [s' [n' Hr]]. destruct (IH _ _ _ Hr) as [fs Hfs].
    exists (f :: fs). constructor; assumption.
Qed.

Lemma check_files_some (names : list string) (fs : list segy_file) :
  opened names fs ->
  forall s n,
    check_files names (Some s) n
    = if forallb (fun g => negb (FileUtils.all_differ s (FileUtils.samples trace fields g))) fs
      then inr (Some s, (n + list_sum (map tracecount fs))%nat)
      else inl ValueError.
Proof.
  intros Hop. induction Hop as [| name f names fs Hf Hop IH]; intros s n.
  - simpl. rewrite Nat.add_0_r. reflexivity.
  - simpl. rewrite Hf. cbn [bind].
    destruct (FileUtils.all_differ s (FileUtils.samples trace fields f)); [reflexivity|].
    simpl. rewrite IH. rewrite Nat.add_assoc. reflexivity.
Qed.

Lemma renumber_length (i : nat) (src : segy_file) :
  length (renumber i src) = tracecount src.
Proof.
  unfold FileUtils.renumber, FileUtils.tracecount.
  rewrite map2_length; rewrite length_seq; reflexivity.
Qed.

Lemma renumber_seq (i : nat) (src : segy_file) :
  sequence (renumber i src)
  = map (fun k => Z.of_nat (k + 1)) (seq i (tracecount src)).
Proof.
  unfold FileUtils.renumber, FileUtils.tracecount.
  generalize (FileUtils.traces trace fields src) as l. intros l.
  assert (H : forall j0,
             map (fun ht => FileUtils.TRACE_SEQUENCE_FILE fields (fst ht))
               (map2 (fun j ht => (FileUtils.mk_hdr fields (Z.of_nat (i + j + 1))
                                     (FileUtils.others fields (fst ht)), snd ht))
                  (seq j0 (length l)) l)
             = map (fun k => Z.of_nat (k + 1)) (seq (i + j0) (length l))).
  { induction l as [| x l IH]; intros j0; [reflexivity|].
    simpl. rewrite IH. replace (i + S j0)%nat with (S (i + j0)) by lia. reflexivity. }
  rewrite (H 0%nat), Nat.add_0_r. reflexivity.
Qed.

Lemma renumber_payload (i : nat) (src : segy_file) :
  map (fun ht => (FileUtils.others fields (fst ht), snd ht)) (renumber i src)
  = map (fun ht => (FileUtils.others fields (fst ht), snd ht))
      (FileUtils.traces trace fields src).
Proof.
  unfold FileUtils.renumber, FileUtils.tracecount.
  generalize (FileUtils.traces trace fields src) as l. intros l.
  assert (H : forall j0,
             map (fun ht => (FileUtils.others fields (fst ht), snd ht))
               (map2 (fun j ht => (FileUtils.mk_hdr fields (Z.of_nat (i + j + 1))
                                     (FileUtils.others fields (fst ht)), snd ht))
                  (seq j0 (length l)) l)
             = map (fun ht => (FileUtils.others fields (fst ht), snd ht)) l).
  { induction l as [| x l IH]; intros j0; [reflexivity|].
    simpl. rewrite IH. reflexivity. }
  apply (H 0%nat).
Qed.

Lemma copy_files_opened (names : list string) (fs : list segy_file) :
  opened names fs ->
  forall i dst,
    exists out,
      copy_files names i dst = inr (dst ++ out)
      /\ length out = list_sum (map tracecount fs)
      /\ map (fun ht => FileUtils.TRACE_SEQUENCE_FILE fields (fst ht)) out
         = map (fun k => Z.of_nat (k + 1)) (seq i (list_sum (map tracecount fs)))
      /\ map (fun ht => (FileUtils.others fields (fst ht), snd ht)) out
         = flat_map (fun f => map (fun ht => (FileUtils.others fields (fst ht), snd ht))
                                (FileUtils.traces trace fields f)) fs.
Proof.
  intros Hop. induction Hop as [| name f names fs Hf Hop IH]; intros i dst.
  - exists []. simpl. rewrite app_nil_r. repeat split.
  - simpl. rewrite Hf. cbn [bind].
    destruct (IH (i + tracecount f)%nat (dst ++ renumber i f)) as [out [H1 [H2 [H3 H4]]]].
    exists (renumber i f ++ out). split; [|split; [|split]].
    + rewrite app_assoc. exact H1.
    + rewrite length_app, renumber_length, H2. reflexivity.
    + rewrite map_app, renumber_seq, H3, seq_app, map_app. reflexivity.
    + rewrite map_app, renumber_payload, H4. reflexivity.
Qed.


Lemma check_files_none (names : list string) (fs : list segy_file) (n : nat) :
  opened names fs ->
  check_files names None n
  = match fs with
    | [] => inr (None, n)
    | f0 :: rest =>
        if forallb (fun g => negb (FileUtils.all_differ (FileUtils.samples trace fields f0)
                                     (FileUtils.samples trace fields g))) rest
        then inr (Some (FileUtils.samples trace fields f0),
                  (n + list_sum (map tracecount (f0 :: rest)))%nat)
        else inl ValueError
    end.
Proof.
  intros Hop. destruct Hop as [| name f names fs Hf Hop]; [reflexivity|].
  simpl. rewrite Hf. cbn [bind]. rewrite (check_files_some names fs Hop).
  rewrite Nat.add_assoc. reflexivity.
Qed.

(** Two arrays of one length differ everywhere unless they agree somewhere. *)
Lemma all_differ_false_iff (s t : list Q) :
  length s = length t ->
  (FileUtils.all_differ s t = false
   <-> exists i, (i < length s)%nat /\ nth i s 0 == nth i t 0).
Proof.
  intros Hlen. unfold FileUtils.all_differ. rewrite Hlen, Nat.eqb_refl.
  revert t Hlen. induction s as [| x s IH]; intros [| y t] Hlen; simpl in Hlen;
    try discriminate.
  - simpl. split; [discriminate | intros [i [Hi _]]; lia].
  - simpl. destruct (Qeq_bool x y) eqn:E; simpl.
    + split; [|reflexivity]. intros _. exists 0%nat. split; [lia|].
      apply Qeq_bool_iff. exact E.
    + rewrite (IH t) by lia. split.
      * intros [i [Hi He]]. exists (S i). split; [lia | exact He].
      * intros [[| i] [Hi He]].
        -- apply Qeq_bool_iff in He. congruence.
        -- exists i. split; [lia | exact He].
Qed.

(** X23.  What a merge writes.  When the call succeeds, the trace count of
    the output is the sum of the counts of the files, its samples are those
    of the first file, and [TRACE_SEQUENCE_FILE] runs 1, 2, 3, ... along the
    output, whatever it was in the sources.  When the files have as many
    samples as one another, the output holds their traces in the order the
    patterns list the files and each file has them, with the other header
    fields as they were. *)
Theorem merge_segy_files_output (paths : FileUtils.paths_arg)
    (m : FileUtils.merged trace fields) :
  merge_segy_files paths = inr m ->
  exists fs,
    opened (flat_map iglob (match paths with
                            | FileUtils.PathStr s => [s]
                            | FileUtils.PathList l => l
                            end)) fs
    /\ FileUtils.m_tracecount trace fields m = list_sum (map tracecount fs)
    /\ length (FileUtils.m_traces trace fields m) = FileUtils.m_tracecount trace fields m
    /\ sequence (FileUtils.m_traces trace fields m)
       = map (fun k => Z.of_nat (k + 1)) (seq 0 (FileUtils.m_tracecount trace fields m))
    /\ ((forall f g, In f fs -> In g fs ->
           length (FileUtils.samples trace fields f)
           = length (FileUtils.samples trace fields g)) ->
        payload (FileUtils.m_traces trace fields m)
        = flat_map (fun f => payload (FileUtils.traces trace fields f)) fs)
    /\ FileUtils.m_samples trace fields m
       = match fs with
         | [] => None
         | f0 :: _ => Some (FileUtils.samples trace fields f0)
         end.
Proof.
  unfold FileUtils.merge_segy_files.
  set (names := flat_map iglob _).
  destruct (Nat.eqb _ 0); [discriminate|].
  destruct (check_files names None 0) as [e | [s n]] eqn:Ec; cbn [bind]; [discriminate|].
  destruct (segyio_create n s) as [e | u]; cbn [bind]; [discriminate|].
  destruct (check_files_opens names None 0%nat (s, n) Ec) as [fs Hop].
  destruct (copy_files_opened names fs Hop 0%nat []) as [out [H1 [H2 [H3 H4]]]].
  rewrite H1. cbn [bind app]. intros E. inversion E; subst m; clear E.
  cbn [FileUtils.m_tracecount FileUtils.m_traces FileUtils.m_samples].
  rewrite (check_files_none names fs 0%nat Hop) in Ec.
  assert (Hn : n = list_sum (map tracecount fs)
               /\ s = match fs with
                      | [] => None
                      | f0 :: _ => Some (FileUtils.samples trace fields f0)
                      end).
  { destruct fs as [| f0 rest]; [inversion Ec; split; reflexivity|].
    destruct (forallb _ rest); [|discriminate]. inversion Ec. split; reflexivity. }
  destruct Hn as [Hn Hs]. exists fs. rewrite Hn.
  split; [exact Hop|]. split; [reflexivity|]. split; [exact H2|].
  split; [exact H3|]. split; [intros _; exact H4 | exact Hs].
Qed.

(** X24.  The check of the samples.  An empty list of paths is refused with
    ValueError.  A file is compared with the first one only, and it is
    refused, with ValueError, when its samples differ from the first file's
    at every place; files of as many samples that agree with the first at
    one place at least, for instance at the first sample, pass the check
    whatever the others are. *)
Theorem merge_segy_files_check (paths : FileUtils.paths_arg) (f0 : segy_file)
    (rest : list segy_file) :
  let names := flat_map iglob (match paths with
                               | FileUtils.PathStr s => [s]
                               | FileUtils.PathList l => l
                               end) in
  merge_segy_files (FileUtils.PathList []) = inl ValueError
  /\ (opened names (f0 :: rest) ->
      ((exists g, In g rest
                  /\ length (FileUtils.samples trace fields g)
                     = length (FileUtils.samples trace fields f0)
                  /\ forall i, (i < length (FileUtils.samples trace fields f0))%nat ->
                       ~ nth i (FileUtils.samples trace fields f0) 0
                         == nth i (FileUtils.samples trace fields g) 0) ->
       check_files names None 0 = inl ValueError
       /\ (paths <> FileUtils.PathList [] -> merge_segy_files paths = inl ValueError))
      /\ ((forall g, In g rest ->
             length (FileUtils.samples trace fields g)
             = length (FileUtils.samples trace fields f0)
             /\ exists i, (i < length (FileUtils.samples trace fields f0))%nat
                          /\ nth i (FileUtils.samples trace fields f0) 0
                             == nth i (FileUtils.samples trace fields g) 0) ->
          check_files names None 0
          = inr (Some (FileUtils.samples trace fields f0),
                 list_sum (map tracecount (f0 :: rest))))).
Proof.
  intros names. split; [reflexivity|]. intros Hop.
  pose proof (check_files_none names (f0 :: rest) 0%nat Hop) as Hc. cbv iota in Hc.
  split.
  - intros [g [Hg [Hlen Hdiff]]].
    assert (Hall : FileUtils.all_differ (FileUtils.samples trace fields f0)
                     (FileUtils.samples trace fields g) = true).
    { destruct (FileUtils.all_differ _ _) eqn:E; [reflexivity|].
      apply all_differ_false_iff in E; [|symmetry; exact Hlen].
      destruct E as [i [Hi He]]. exfalso. apply (Hdiff i Hi He). }
    assert (Hf : forallb (fun g => negb (FileUtils.all_differ
                                            (FileUtils.samples trace fields f0)
                                            (FileUtils.samples trace fields g))) rest
                 = false).
    { destruct (forallb _ rest) eqn:E; [|reflexivity].
      rewrite forallb_forall in E. specialize (E g Hg). rewrite Hall in E. discriminate. }
    rewrite Hf in Hc. split; [exact Hc|].
    intros Hne. unfold FileUtils.merge_segy_files. fold names.
    destruct paths as [s | [| p l]]; [| congruence |]; cbn [length Nat.eqb];
      rewrite Hc; reflexivity.
  - intros Hall.
    assert (Hf : forallb (fun g => negb (FileUtils.all_differ
                                            (FileUtils.samples trace fields f0)
                                            (FileUtils.samples trace fields g))) rest
                 = true).
    { apply forallb_forall. intros g Hg. destruct (Hall g Hg) as [Hlen Hex].
      apply negb_true_iff. apply all_differ_false_iff; [symmetry; exact Hlen | exact Hex]. }
    rewrite Hf in Hc. exact Hc.
Qed.

End MergeFacts.

Lemma merge_segy_files_output_witness :
  exists fs : list (FileUtils.segy_file nat unit),
    map (fun ht => FileUtils.TRACE_SEQUENCE_FILE unit (fst ht))
      [(FileUtils.mk_hdr unit 1 tt, 10%nat); (FileUtils.mk_hdr unit 2 tt, 20%nat);
       (FileUtils.mk_hdr unit 3 tt, 10%nat); (FileUtils.mk_hdr unit 4 tt, 20%nat)]
    = map (fun k => Z.of_nat (k + 1)) (seq 0 4)
    /\ length fs = 2%nat.
Proof.
  destruct (merge_segy_files_output nat unit
              (fun _ => ["a"%string; "b"%string])
              (fun _ => inr (FileUtils.mk_file nat unit [0; 2]
                               [(FileUtils.mk_hdr unit 7 tt, 10%nat);
                                (FileUtils.mk_hdr unit 7 tt, 20%nat)]))
              (fun _ _ => inr tt)
              (FileUtils.PathStr "*")
              (FileUtils.mk_merged nat unit (Some [0; 2]) 4
                 [(FileUtils.mk_hdr unit 1 tt, 10%nat); (FileUtils.mk_hdr unit 2 tt, 20%nat);
                  (FileUtils.mk_hdr unit 3 tt, 10%nat); (FileUtils.mk_hdr unit 4 tt, 20%nat)]))
    as [fs [Hop [_ [_ [Hseq _]]]]].
  - reflexivity.
  - exists fs. split; [exact Hseq|].
    apply Forall2_length in Hop. simpl in Hop. symmetry. exact Hop.
Defined.

(** ** A call without a window *)

Section NoWindow.

Import Avo.

Variable calc_method : matrix -> f64.

(** Without a window the loop stops at the first bin that holds a trace. *)
Lemma bin_loop_pure_no_window (data : matrix) (ncols : nat) (offset : list Q)
    (bins : list (Q * Q)) :
  length offset = length data ->
  forall (i : nat) (storage : list f64),
    (i + length bins <= length storage)%nat ->
    (exists stp nxt, In (stp, nxt) bins
                     /\ Nat.eqb (length (bin_rows data offset stp nxt) * ncols) 0 = false) ->
    bin_loop_pure calc_method data ncols offset None i bins storage = inl TypeError.
Proof.
  intros Hlen. induction bins as [| [stp nxt] rest IH]; intros i storage Hfit Hex.
  - destruct Hex as [s [n [[] _]]].
  - simpl in Hfit. simpl bin_loop_pure. unfold bin_step_pure.
    assert (Hm : length (bin_mask offset stp nxt) = length data)
      by (rewrite bin_mask_map, length_map; exact Hlen).
    rewrite Hm, Nat.eqb_refl.
    destruct (Nat.eqb (length (bin_rows data offset stp nxt) * ncols) 0) eqn:Es;
      [|reflexivity].
    unfold setitem. destruct (Nat.ltb_spec i (length storage)) as [_ | Hge]; [|lia].
    cbn [bind]. apply IH.
    + rewrite set_nth_length. lia.
    + destruct Hex as [s [n [[E | Hin] Hnz]]]; [inversion E; subst; congruence|].
      exists s, n. split; assumption.
Qed.

(** X25.  The window is needed.  Called with neither a window nor a horizon,
    on a gather that has a trace in one of its bins (and samples in its
    array, and room for the bins in the vector), the call fails with
    TypeError: only a gather with no trace in any bin gets through without a
    window. *)
Theorem window_required (g : gather) (samples : list Q) (bin_size : bin_spec)
    (storage_size : nat) (horizon_window : Q * Q) (h : heap) (sl : list Q)
    (stp nxt : Q) (tr : trace_header) :
  (base (field g) < length h)%nat ->
  length (batch_df g) = length (view (field g) h) ->
  (0 < nd_cols (field g))%nat ->
  (2 <= length samples)%nat ->
  step_list_of bin_size (np_sort Qle_bool (map offset (batch_df g))) = inr sl ->
  (length (bins_of sl) <= storage_size)%nat ->
  In (stp, nxt) (bins_of sl) -> In tr (batch_df g) -> in_bin stp nxt (offset tr) ->
  fst (avo_storage calc_method g samples bin_size storage_size None horizon_window
         None h) = inl TypeError.
Proof.
  intros Hb Hlen Hcols Hs Hsl Hfit Hbin Htr Hin.
  destruct (avo_storage_run calc_method g samples bin_size storage_size None
              horizon_window None h Hb) as [E _].
  rewrite E. unfold avo_storage_pure.
  destruct samples as [| s0 [| s1 rest]]; simpl in Hs; try lia.
  cbn [t_step_of gather_window bind]. rewrite Hsl. cbn [bind].
  set (sorted := np_sort Qle_bool (map offset (batch_df g))).
  assert (Hlen' : length sorted = length (view (field g) h)).
  { unfold sorted. rewrite np_sort_length, length_map. exact Hlen. }
  apply bin_loop_pure_no_window.
  - exact Hlen'.
  - rewrite repeat_length. simpl. exact Hfit.
  - exists stp, nxt. split; [exact Hbin|].
    assert (Hrows : bin_rows (view (field g) h) sorted stp nxt <> []).
    { unfold bin_rows. apply select_some.
      - rewrite bin_mask_map, length_map. exact Hlen'.
      - rewrite bin_mask_map. apply in_map_iff. exists (offset tr).
        split; [apply in_bin_dec_iff; exact Hin|].
        apply (Permutation_in _ (Permutation_sym (np_sort_perm Qle_bool _))).
        apply in_map. exact Htr. }
    apply Nat.eqb_neq. destruct (bin_rows (view (field g) h) sorted stp nxt);
      [congruence|]. simpl. lia.
Qed.

End NoWindow.

Lemma window_required_witness :
  fst (Avo.avo_storage (fun m => np_nanmean (concat m))
         (Avo.mk_gather (Avo.mk_nd 0 0 1) [Avo.mk_header 5 1 1; Avo.mk_header 25 1 1])
         [0; 2] (Avo.BinInt 10) 3 None (0, 0) None [[[Fin 1]; [Fin 2]]])
  = inl TypeError.
Proof.
  apply (window_required (fun m => np_nanmean (concat m))
           (Avo.mk_gather (Avo.mk_nd 0 0 1) [Avo.mk_header 5 1 1; Avo.mk_header 25 1 1])
           [0; 2] (Avo.BinInt 10) 3 (0, 0) [[[Fin 1]; [Fin 2]]]
           [0; 10; 20; 30] 0 10 (Avo.mk_header 5 1 1)).
  - vm_compute. lia.
  - reflexivity.
  - vm_compute. lia.
  - vm_compute. lia.
  - vm_compute. reflexivity.
  - vm_compute. lia.
  - left. reflexivity.
  - left. reflexivity.
  - unfold in_bin. simpl. split; Lqa.lra.
Defined.
